(** * Filter / aggregate / derive pipeline of the agri-environmental dashboards

    A shallow embedding of the data-shaping code of the four Streamlit
    dashboards (nutrients.py, pages/erosion_charts.py, pages/land_charts.py,
    pages/greenhouse-gas.py) together with the pandas operations they call.

    Modelling conventions.
    - A DataFrame is the list of its rows, in row order; a row is a record
      with one field per column the code reads.
    - Key columns (country, measure, year ...) are never missing; the value
      column holds a finite number or a missing entry (pandas NaN), modelled
      as [option Q] with [None] for NaN.
    - Derived float columns (means, quotients) are IEEE-754 doubles.  Where
      a statement says which value is computed from which rows, finite
      doubles are idealised as exact rationals (module [Float]); the special
      values +inf, -inf and NaN are kept, with the IEEE rules for them.
      Zero is unsigned.
    - Where a statement is about the size of the rounding error, the
      arithmetic is binary64 itself (module [F64]): every sum and quotient
      is rounded to the nearest double, ties to even, with overflow to an
      infinity and gradual underflow.  The order in which a library sum
      adds a column is not part of its interface, so the float64 pipeline
      takes the summation routine as an argument; summation in row order
      and compensated (Kahan) summation are the instances given here.
    - pandas library calls ([groupby], [sum], [mean], [merge], [pivot],
      [fillna], [sort_values], [tail], [isin]) are modelled by their
      documented semantics with default arguments. *)

From Stdlib Require Import List String ZArith QArith Qabs Bool Lia Permutation.
From Stdlib Require Import Sorted Qround Qpower Lqa.
Import ListNotations.

Set Implicit Arguments.

(* ================================================================== *)
(** * IEEE doubles with exact finite part                              *)
(* ================================================================== *)

Module Float.

Inductive float : Type :=
| Fin (q : Q)
| PInf
| NInf
| NaN.

(** Sign of a rational as a comparison with 0. *)
Definition Qsign (q : Q) : comparison := (q ?= 0)%Q.

Definition fopp (x : float) : float :=
  match x with
  | Fin q => Fin (- q)
  | PInf => NInf
  | NInf => PInf
  | NaN => NaN
  end.

Definition fadd (x y : float) : float :=
  match x, y with
  | NaN, _ | _, NaN => NaN
  | Fin a, Fin b => Fin (a + b)
  | PInf, NInf | NInf, PInf => NaN
  | PInf, _ | _, PInf => PInf
  | NInf, _ | _, NInf => NInf
  end.

Definition fsub (x y : float) : float := fadd x (fopp y).

(** Infinity carrying the sign of [c]; [0 * inf] is NaN. *)
Definition inf_of_sign (c : comparison) : float :=
  match c with Gt => PInf | Lt => NInf | Eq => NaN end.

Definition fmul (x y : float) : float :=
  match x, y with
  | NaN, _ | _, NaN => NaN
  | Fin a, Fin b => Fin (a * b)
  | Fin a, PInf | PInf, Fin a => inf_of_sign (Qsign a)
  | Fin a, NInf | NInf, Fin a => inf_of_sign (CompOpp (Qsign a))
  | PInf, PInf | NInf, NInf => PInf
  | PInf, NInf | NInf, PInf => NInf
  end.

(** numpy true division: a finite quotient when the divisor is not zero,
    otherwise silently [x/0 = +-inf] and [0/0 = NaN] (no exception). *)
Definition fdiv (x y : float) : float :=
  match x, y with
  | NaN, _ | _, NaN => NaN
  | Fin a, Fin b =>
      if Qeq_bool b 0 then inf_of_sign (Qsign a) else Fin (a / b)
  | Fin _, (PInf | NInf) => Fin 0
  | (PInf | NInf), (PInf | NInf) => NaN
  | PInf, Fin b => match Qsign b with Lt => NInf | _ => PInf end
  | NInf, Fin b => match Qsign b with Lt => PInf | _ => NInf end
  end.

(** Ascending order used by [sort_values]: NaN is placed last. *)
Definition fleb (x y : float) : bool :=
  match x, y with
  | _, NaN => true
  | NaN, _ => false
  | NInf, _ => true
  | _, NInf => false
  | _, PInf => true
  | PInf, _ => false
  | Fin a, Fin b => Qle_bool a b
  end.

(** Numeric equality of doubles (NaN is only related to NaN here: this is
    identity of the stored value, not the IEEE [==]). *)
Definition feq (x y : float) : Prop :=
  match x, y with
  | Fin a, Fin b => (a == b)%Q
  | PInf, PInf | NInf, NInf | NaN, NaN => True
  | _, _ => False
  end.

End Float.
Export Float.

(* ================================================================== *)
(** * Group keys                                                       *)
(* ================================================================== *)

(** What pandas needs of a key column: equality (hashing) and the order
    used to sort group labels. *)
Class Key (K : Type) : Type := {
  keqb : K -> K -> bool;
  kleb : K -> K -> bool
}.

#[export] Instance Key_string : Key string :=
  {| keqb := String.eqb; kleb := String.leb |}.

#[export] Instance Key_Z : Key Z :=
  {| keqb := Z.eqb; kleb := Z.leb |}.

(** Tuples of keys compare lexicographically. *)
#[export] Instance Key_prod {A B : Type} `{Key A} `{Key B} : Key (A * B) :=
  {| keqb := fun x y => keqb (fst x) (fst y) && keqb (snd x) (snd y);
     kleb := fun x y =>
       if keqb (fst x) (fst y) then kleb (snd x) (snd y)
       else kleb (fst x) (fst y) |}.

(** Key equality decides Leibniz equality. *)
Class KeyEq (K : Type) `{Key K} : Prop := {
  keqb_eq : forall a b : K, keqb a b = true <-> a = b
}.
Arguments KeyEq K {_}.

(** The label order is a total order. *)
Class KeyOrd (K : Type) `{Key K} : Prop := {
  kleb_total : forall a b : K, kleb a b = true \/ kleb b a = true;
  kleb_trans : forall a b c : K,
      kleb a b = true -> kleb b c = true -> kleb a c = true;
  kleb_antisym : forall a b : K, kleb a b = true -> kleb b a = true -> a = b
}.
Arguments KeyOrd K {_}.

(** Strictly before, in the label order. *)
Definition klt {K : Type} `{Key K} (a b : K) : Prop :=
  kleb a b = true /\ a <> b.

(* ================================================================== *)
(** * The pandas operations used by the dashboards                     *)
(* ================================================================== *)

Module Pandas.

(** [Series.isin(values)] and Python's [x in values]. *)
Definition isin {K : Type} `{Key K} (x : K) (values : list K) : bool :=
  existsb (keqb x) values.

(** [Series.sum()] with the default [skipna=True, min_count=0]: missing
    entries are skipped and the sum of nothing is 0. *)
Fixpoint nansum (col : list (option Q)) : Q :=
  match col with
  | [] => 0
  | Some q :: rest => q + nansum rest
  | None :: rest => nansum rest
  end.

(** The entries of a column that are present, and the plain sum of a list
    of numbers: what "the sum / mean ignores missing values" refers to. *)
Fixpoint present (col : list (option Q)) : list Q :=
  match col with
  | [] => []
  | Some q :: rest => q :: present rest
  | None :: rest => present rest
  end.

Fixpoint Qsum (l : list Q) : Q :=
  match l with
  | [] => 0
  | q :: rest => q + Qsum rest
  end.

(** Number of entries that are not missing. *)
Fixpoint count (col : list (option Q)) : nat :=
  match col with
  | [] => O
  | Some _ :: rest => S (count rest)
  | None :: rest => count rest
  end.

(** [Series.mean()] with [skipna=True]: the mean of the entries that are
    present, and NaN when there is none. *)
Definition nanmean (col : list (option Q)) : float :=
  match count col with
  | O => NaN
  | S _ => Fin (nansum col / inject_Z (Z.of_nat (count col)))
  end.

(** Distinct values in order of first appearance ([factorize]). *)
Fixpoint unique {K : Type} `{Key K} (l : list K) : list K :=
  match l with
  | [] => []
  | x :: rest => x :: filter (fun y => negb (keqb y x)) (unique rest)
  end.

(** Stable insertion sort for a boolean order. *)
Fixpoint insert_sorted {A : Type} (le : A -> A -> bool) (x : A)
         (l : list A) : list A :=
  match l with
  | [] => [x]
  | h :: t => if le x h then x :: l else h :: insert_sorted le x t
  end.

Definition sort_by {A : Type} (le : A -> A -> bool) (l : list A) : list A :=
  fold_right (insert_sorted le) [] l.

(** Group labels of [df.groupby(by)]: the distinct keys, sorted
    ([sort=True] is the default). *)
Definition group_keys {R K : Type} `{Key K} (by_ : R -> K) (df : list R)
  : list K :=
  sort_by kleb (unique (map by_ df)).

(** [df.groupby(by)]: each label with the rows that carry it, rows in
    their original order. *)
Definition groupby {R K : Type} `{Key K} (by_ : R -> K) (df : list R)
  : list (K * list R) :=
  map (fun k => (k, filter (fun r => keqb (by_ r) k) df))
      (group_keys by_ df).

(** [groupby(...)[col].sum()]. *)
Definition agg_sum {R K : Type} (col : R -> option Q)
           (g : list (K * list R)) : list (K * Q) :=
  map (fun kr => (fst kr, nansum (map col (snd kr)))) g.

(** [groupby(...)[col].mean()]. *)
Definition agg_mean {R K : Type} (col : R -> option Q)
           (g : list (K * list R)) : list (K * float) :=
  map (fun kr => (fst kr, nanmean (map col (snd kr)))) g.

(** [left.merge(right, on=key)] (inner join): for every left row, in
    order, one output row per right row with the same key. *)
Definition merge {L R K O : Type} `{Key K} (lkey : L -> K) (rkey : R -> K)
           (join : L -> R -> O) (left : list L) (right : list R) : list O :=
  flat_map
    (fun l => map (join l)
                  (filter (fun r => keqb (lkey l) (rkey r)) right))
    left.

(** [df.tail(n)]: the last [n] rows (all of them when there are fewer). *)
Definition tail {A : Type} (n : nat) (l : list A) : list A :=
  skipn (List.length l - n) l.

(** [df.sort_values(col, ascending=True)]: rows in ascending order of a
    float column, NaN last.  numpy's default sort does not promise an
    order among equal values; this model is the stable one and no
    statement below depends on the order among ties. *)
Definition sort_values {R : Type} (col : R -> float) (df : list R)
  : list R :=
  sort_by (fun a b => fleb (col a) (col b)) df.

(** [Series.sort_index()] of a series given as (label, value) pairs. *)
Definition sort_index {K V : Type} `{Key K} (s : list (K * V))
  : list (K * V) :=
  sort_by (fun a b => kleb (fst a) (fst b)) s.

(** [df.empty]. *)
Definition empty {A : Type} (df : list A) : bool :=
  match df with [] => true | _ => false end.

(** A wide table: column labels, and for each index label its cells, one
    per column; a missing cell is NaN ([None]). *)
Record wide (I C : Type) : Type := {
  columns : list C;
  rows : list (I * list (option Q))
}.

(** Does a list of keys contain the same key twice? *)
Fixpoint has_duplicates {K : Type} `{Key K} (l : list K) : bool :=
  match l with
  | [] => false
  | x :: rest => existsb (keqb x) rest || has_duplicates rest
  end.

(** Value of the long-form row labelled [(i, c)], NaN when there is none. *)
Definition cell {I C : Type} `{Key I} `{Key C}
           (long : list ((I * C) * Q)) (i : I) (c : C) : option Q :=
  match find (fun r => keqb (fst r) (i, c)) long with
  | Some r => Some (snd r)
  | None => None
  end.

(** The wide table with the given labels whose cell at [(i, c)] is
    [g i c]. *)
Definition table {I C : Type} (cols : list C) (idx : list I)
           (g : I -> C -> option Q) : wide I C :=
  {| columns := cols; rows := map (fun i => (i, map (g i) cols)) idx |}.

(** Index and column labels of a pivot: the distinct values, sorted. *)
Definition pivot_index {I C : Type} `{Key I} (long : list ((I * C) * Q))
  : list I :=
  sort_by kleb (unique (map (fun r => fst (fst r)) long)).

Definition pivot_columns {I C : Type} `{Key C} (long : list ((I * C) * Q))
  : list C :=
  sort_by kleb (unique (map (fun r => snd (fst r)) long)).

(** [long.pivot(index=, columns=, values=)]: raises [ValueError] ([None])
    when an (index, column) pair occurs twice; otherwise the sorted
    distinct index and column labels, each cell holding the value of its
    pair, or NaN when the pair does not occur. *)
Definition pivot {I C : Type} `{Key I} `{Key C}
           (long : list ((I * C) * Q)) : option (wide I C) :=
  if has_duplicates (map fst long) then None
  else Some (table (pivot_columns long) (pivot_index long) (cell long)).

(** The index labels of a wide table. *)
Definition index {I C : Type} (w : wide I C) : list I := map fst (rows w).

(** [wide.fillna(v)]. *)
Definition fillna {I C : Type} (v : Q) (w : wide I C) : wide I C :=
  {| columns := columns w;
     rows := map (fun r =>
                    (fst r,
                     map (fun x => match x with
                                   | Some q => Some q
                                   | None => Some v
                                   end) (snd r)))
                 (rows w) |}.

(** [wide.loc[i, c]]: [None] is a [KeyError], [Some None] a NaN cell. *)
Definition loc {I C : Type} `{Key I} `{Key C} (w : wide I C) (i : I) (c : C)
  : option (option Q) :=
  match find (fun r => keqb (fst r) i) (rows w) with
  | None => None
  | Some r =>
      match find (fun cv => keqb (fst cv) c) (combine (columns w) (snd r)) with
      | None => None
      | Some cv => Some (snd cv)
      end
  end.

(** What a chart function hands to the renderer: [go.Figure()] with no
    data, or a plot of a table. *)
Inductive figure (T : Type) : Type :=
| EmptyFigure
| Plot (data : T).
Arguments EmptyFigure {T}.

(** [Series.min()] and [Series.max()] of an integer column; the result for
    an empty column is NaN, on which [int(...)] raises ([None]). *)
Definition col_min (l : list Z) : option Z :=
  match l with
  | [] => None
  | x :: rest => Some (fold_left Z.min rest x)
  end.

Definition col_max (l : list Z) : option Z :=
  match l with
  | [] => None
  | x :: rest => Some (fold_left Z.max rest x)
  end.

(** [st.slider(label, min_value, max_value, (min_value, max_value))] left
    untouched returns its default value, the whole range.  Streamlit
    refuses a slider whose [min_value] is not below its [max_value] (a
    [StreamlitAPIException], [None]). *)
Definition slider_default (min_value max_value : Z) : option (Z * Z) :=
  if (min_value <? max_value)%Z then Some (min_value, max_value) else None.

(** Does [p] occur in [s] as a contiguous substring? *)
Fixpoint is_substring (p s : string) : bool :=
  String.prefix p s
  || match s with
     | EmptyString => false
     | String _ s' => is_substring p s'
     end.

(** [Series.str.contains("a|b|...", na=False)] for a pattern that is an
    alternation of literal words: some alternative occurs in the value. *)
Definition str_contains (alternatives : list string) (s : string) : bool :=
  existsb (fun p => is_substring p s) alternatives.

(** [len(col.unique())]. *)
Definition nunique {K : Type} `{Key K} (col : list K) : nat :=
  List.length (unique col).

End Pandas.
Export Pandas.

(* ================================================================== *)
(** * Binary64 arithmetic with rounding                                *)
(* ================================================================== *)

Module F64.

(** Binary logarithm of a positive rational, rounded down: the exponent
    of its leading bit. *)
Definition ilog2 (x : Q) : Z :=
  let a := (Z.log2 (Qnum x) - Z.log2 (Zpos (Qden x)))%Z in
  if Qle_bool (2 ^ a) x then a else (a - 1)%Z.

(** The nearest integer, a tie going to the even one. *)
Definition round_half_even (x : Q) : Z :=
  let f := Qfloor x in
  match ((x - inject_Z f) ?= (1 # 2))%Q with
  | Lt => f
  | Gt => (f + 1)%Z
  | Eq => if Z.even f then f else (f + 1)%Z
  end.

(** The double nearest to a positive rational: 53 significant bits, the
    last of weight [2^e]; [e] stops at -1074 (subnormal numbers), and a
    result of [2^1024] or more is an overflow. *)
Definition round_pos (x : Q) : float :=
  let e := Z.max (ilog2 x - 52) (-1074) in
  let y := inject_Z (round_half_even (x / 2 ^ e)) * 2 ^ e in
  if Qle_bool (2 ^ 1024) y then PInf else Fin (Qred y).

Definition round (x : Q) : float :=
  match (x ?= 0)%Q with
  | Eq => Fin 0
  | Gt => round_pos x
  | Lt => fopp (round_pos (- x))
  end.

(** Float64 addition and numpy true division: the exact result, rounded;
    the special values as in [fadd] and [fdiv]. *)
Definition add (x y : float) : float :=
  match x, y with
  | NaN, _ | _, NaN => NaN
  | Fin a, Fin b => round (a + b)
  | PInf, NInf | NInf, PInf => NaN
  | PInf, _ | _, PInf => PInf
  | NInf, _ | _, NInf => NInf
  end.

Definition div (x y : float) : float :=
  match x, y with
  | NaN, _ | _, NaN => NaN
  | Fin a, Fin b =>
      if Qeq_bool b 0 then inf_of_sign (Qsign a) else round (a / b)
  | Fin _, (PInf | NInf) => Fin 0
  | (PInf | NInf), (PInf | NInf) => NaN
  | PInf, Fin b => match Qsign b with Lt => NInf | _ => PInf end
  | NInf, Fin b => match Qsign b with Lt => PInf | _ => NInf end
  end.

(** The sum of a float64 column added in row order, starting from 0.0,
    one rounded addition per row. *)
Definition sum (l : list float) : float := fold_left add l (Fin 0).

(** Float64 subtraction. *)
Definition sub (x y : float) : float := add x (fopp y).

(** Compensated (Kahan) summation, the loop of the group sums of recent
    pandas versions: the rounding error of each addition is recovered
    and taken off the next value; a compensation that is NaN is reset. *)
Fixpoint kahan (l : list float) (sumx compensation : float) : float :=
  match l with
  | [] => sumx
  | val :: rest =>
      let y := sub val compensation in
      let t := add sumx y in
      let c := sub (sub t sumx) y in
      kahan rest t (match c with NaN => Fin 0 | _ => c end)
  end.

Definition kahan_sum (l : list float) : float := kahan l (Fin 0) (Fin 0).

(** Unit roundoff of binary64, [2^-53], and half the smallest subnormal
    number, [2^-1075]. *)
Definition u : Q := 1 # 9007199254740992.
Definition eta : Q := 2 ^ (-1075).

(** [t] is the accumulator after [k] rounded additions whose exact sum
    is [Sx]. *)
Definition near (k : Q) (t Sx : Q) : Prop :=
  (1 - k * u) * Sx <= t /\ t * (1 - k * u) <= Sx.

(** The state of the compensated sum after [k] rows whose exact sum is
    [Sx]: the accumulator [s] and the compensation [c]. *)
Definition kahan_inv (k : Q) (s c Sx : Q) : Prop :=
  (Sx - 6 * k * u * Sx <= s /\ s <= Sx + 6 * k * u * Sx)
  /\ (- (3 * u * Sx) <= c /\ c <= 3 * u * Sx).

(** A value that is zero or within [lo, hi]. *)
Definition ranged (lo hi x : Q) : Prop := x == 0 \/ (lo <= x /\ x <= hi).

(** The columns the tolerance is proved for: at most [max_rows] rows, each
    value zero or between [value_lo] and [value_hi]; the quotients then
    are zero or between [quotient_lo] and [quotient_hi]. *)
Definition max_rows : Z := 100000.
Definition value_lo : Q := 2 ^ (-400).
Definition value_hi : Q := 2 ^ 400.
Definition quotient_lo : Q := 2 ^ (-850).
Definition quotient_hi : Q := 4.

(** What is asked of a float64 summation routine: on a column of at most
    [max_rows] values, each zero or between [2^-900] and [2^900], it
    returns a number within relative error [eps] of the exact sum. *)
Definition eps : Q := 1 # 10000000000.

Definition accurate (summation : list float -> float) : Prop :=
  forall l : list Q,
    (Z.of_nat (List.length l) <= max_rows)%Z ->
    (forall x, In x l -> ranged (2 ^ (-900)) (2 ^ 900) x) ->
    exists s,
      summation (map Fin l) = Fin s
      /\ (1 - eps) * Qsum l <= s /\ s <= (1 + eps) * Qsum l.

End F64.

(* ================================================================== *)
(** * nutrients.py                                                     *)
(* ================================================================== *)

Module NutrientDashboard.

Record row : Type := {
  TIME_PERIOD : Z;
  Reference_area : string;
  REF_AREA : string;
  Measure : string;
  Nutrients : string;
  OBS_VALUE : option Q
}.

(** [render_nutrient_page], lines 45-51: the year filter, then the area
    filter unless ['All areas'] is among the selected areas. *)
Definition filtered_data (data : list row) (selected_areas : list string)
           (year_range : Z * Z) : list row :=
  let filtered :=
    filter (fun r => (TIME_PERIOD r >=? fst year_range)%Z
                     && (TIME_PERIOD r <=? snd year_range)%Z) data in
  if negb (isin "All areas"%string selected_areas) then
    filter (fun r => isin (Reference_area r) selected_areas) filtered
  else filtered.

(** A row of [grouped] in [render_hori_stacked_plot] after the merge. *)
Record proportion_row : Type := {
  p_Reference_area : string;
  p_Measure : string;
  p_OBS_VALUE : Q;
  Total : Q;
  Proportion : float
}.

(** Line 208: [data.groupby(['Reference area','Measure'])['OBS_VALUE'].sum()]. *)
Definition grouped (data : list row) : list ((string * string) * Q) :=
  agg_sum OBS_VALUE
          (groupby (fun r => (Reference_area r, Measure r)) data).

(** Lines 209-210: the per-area total of the aggregated table. *)
Definition total (g : list ((string * string) * Q)) : list (string * Q) :=
  agg_sum (fun r => Some (snd r)) (groupby (fun r => fst (fst r)) g).

(** Lines 209-214 on an aggregated table: merge with the totals on the
    area and divide. *)
Definition proportion (g : list ((string * string) * Q))
  : list proportion_row :=
  merge (fun l => fst (fst l)) fst
        (fun l t =>
           {| p_Reference_area := fst (fst l);
              p_Measure := snd (fst l);
              p_OBS_VALUE := snd l;
              Total := snd t;
              Proportion := fdiv (Fin (snd l)) (Fin (snd t)) |})
        g (total g).

(** The partition of an aggregated table for one area, and the total of
    its value column. *)
Definition partition (a : string) (g : list ((string * string) * Q))
  : list ((string * string) * Q) :=
  filter (fun r => keqb (fst (fst r)) a) g.

Definition partition_total (a : string) (g : list ((string * string) * Q))
  : Q :=
  nansum (map (fun r => Some (snd r)) (partition a g)).

(** The proportion values of the rows of one area. *)
Definition proportions_of (a : string) (t : list proportion_row)
  : list float :=
  map Proportion (filter (fun r => keqb (p_Reference_area r) a) t).

(** Lines 209-214 in float64 arithmetic.  [summation] is the routine
    behind [.sum()]: the total of an area is its result on the values of
    the area in row order, the proportion is the rounded quotient. *)
Record proportion_row64 : Type := {
  r_Reference_area : string;
  r_Measure : string;
  r_OBS_VALUE : Q;
  r_Total : float;
  r_Proportion : float
}.

Definition total64 (summation : list float -> float)
           (g : list ((string * string) * Q)) : list (string * float) :=
  map (fun kr => (fst kr, summation (map (fun r => Fin (snd r)) (snd kr))))
      (groupby (fun r => fst (fst r)) g).

Definition proportion64 (summation : list float -> float)
           (g : list ((string * string) * Q)) : list proportion_row64 :=
  merge (fun l => fst (fst l)) fst
        (fun l t =>
           {| r_Reference_area := fst (fst l);
              r_Measure := snd (fst l);
              r_OBS_VALUE := snd l;
              r_Total := snd t;
              r_Proportion := F64.div (Fin (snd l)) (snd t) |})
        g (total64 summation g).

Definition partition_total64 (summation : list float -> float) (a : string)
           (g : list ((string * string) * Q)) : float :=
  summation (map (fun r => Fin (snd r)) (partition a g)).

Definition proportions64_of (a : string) (t : list proportion_row64)
  : list float :=
  map r_Proportion (filter (fun r => keqb (r_Reference_area r) a) t).

(** The table plotted by [render_hori_stacked_plot]. *)
Definition render_hori_stacked_plot (data : list row)
  : list proportion_row :=
  proportion (grouped data).

(** The two percentages [(value/total)*100] written on the bars by
    [draw_proportion_bar]. *)
Definition draw_proportion_bar (value1 value2 : Q) : float * float :=
  let total := (value1 + value2)%Q in
  (fmul (fdiv (Fin value1) (Fin total)) (Fin 100),
   fmul (fdiv (Fin value2) (Fin total)) (Fin 100)).

(** [render_nitphos]: nitrogen and phosphorus sums handed to
    [draw_proportion_bar]. *)
Definition render_nitphos (data : list row) : float * float :=
  let nit_in :=
    filter (fun r => keqb (Nutrients r) "Nitrogen"%string) data in
  let phos_in :=
    filter (fun r => keqb (Nutrients r) "Phosphorus"%string) data in
  draw_proportion_bar (nansum (map OBS_VALUE nit_in))
                      (nansum (map OBS_VALUE phos_in)).

(** [run], lines 388-402: the options of the area selector and the bounds
    of the year slider. *)
Definition area_options (data : list row) : list string :=
  "All areas"%string :: sort_by kleb (unique (map Reference_area data)).

Definition year_bounds (data : list row) : option (Z * Z) :=
  match col_min (map TIME_PERIOD data), col_max (map TIME_PERIOD data) with
  | Some lo, Some hi => Some (lo, hi)
  | _, _ => None
  end.

(** The view of [render_nutrient_page] when the widgets of [run] are left
    at their defaults: ['All areas'] and the whole slider range.  [None]
    when [int(...)] of an empty column or the slider raises. *)
Definition default_view (data : list row) : option (list row) :=
  match year_bounds data with
  | Some (min_year, max_year) =>
      match slider_default min_year max_year with
      | Some year_range =>
          Some (filtered_data data ["All areas"%string] year_range)
      | None => None
      end
  | None => None
  end.

(** What [format_number] prints: [Abbrev m u] stands for the text
    [f"{m:.1f}" + u], [Plain n] for [str(n)]. *)
Inductive number_text : Type :=
| Abbrev (mantissa : Q) (unit : string)
| Plain (num : Q).

Definition format_number (num : Q) : number_text :=
  if Qle_bool 1000000000 num then Abbrev (num / 1000000000) "B"
  else if Qle_bool 1000000 num then Abbrev (num / 1000000) "M"
  else if Qle_bool 1000 num then Abbrev (num / 1000) "K"
  else Plain num.

End NutrientDashboard.

(* ================================================================== *)
(** * pages/erosion_charts.py                                          *)
(* ================================================================== *)

Module ErosionCharts.

Record row : Type := {
  Country : string;
  Time : Z;
  Types_of_Erosion : string;
  EROSION_LEVEL : string;
  Erosion_risk_level : string;
  OBS_VALUE : option Q
}.

(** [filter_data]: every argument that is truthy restricts the rows; an
    empty list (or a missing year pair, [None]) restricts nothing. *)
Definition filter_data (df : list row) (countries : list string)
           (years : option (Z * Z)) (erosion_types : list string)
           (severity_levels : list string) : list row :=
  let filtered_df := df in
  let filtered_df :=
    if negb (empty countries) then
      filter (fun r => isin (Country r) countries) filtered_df
    else filtered_df in
  let filtered_df :=
    match years with
    | Some y =>
        filter (fun r => (Time r >=? fst y)%Z && (Time r <=? snd y)%Z)
               filtered_df
    | None => filtered_df
    end in
  let filtered_df :=
    if negb (empty erosion_types) then
      filter (fun r => isin (Types_of_Erosion r) erosion_types) filtered_df
    else filtered_df in
  let filtered_df :=
    if negb (empty severity_levels) then
      filter (fun r => isin (EROSION_LEVEL r) severity_levels) filtered_df
    else filtered_df in
  filtered_df.

(** [df[df['EROSION_LEVEL'] == '_T']]. *)
Definition totals_only (df : list row) : list row :=
  filter (fun r => keqb (EROSION_LEVEL r) "_T"%string) df.

(** The rows of one (country, year, erosion type) group of the totals. *)
Definition time_series_group (k : string * Z * string) (df : list row)
  : list row :=
  filter (fun r => keqb (Country r, Time r, Types_of_Erosion r) k)
         (totals_only df).

(** The rows of one (country, erosion type) group of the totals. *)
Definition comparison_group (k : string * string) (df : list row)
  : list row :=
  filter (fun r => keqb (Country r, Types_of_Erosion r) k) (totals_only df).

(** Line 94, [total_data] of [create_time_series_chart]. *)
Definition total_data (df : list row)
  : list ((string * Z * string) * Q) :=
  agg_sum OBS_VALUE
          (groupby (fun r => (Country r, Time r, Types_of_Erosion r))
                   (totals_only df)).

Definition create_time_series_chart (df : list row)
  : figure (list ((string * Z * string) * Q)) :=
  if empty df then EmptyFigure else Plot (total_data df).

(** Line 122, [total_data] of [create_erosion_comparison_chart]. *)
Definition comparison_data (df : list row)
  : list ((string * string) * float) :=
  agg_mean OBS_VALUE
           (groupby (fun r => (Country r, Types_of_Erosion r))
                    (totals_only df)).

Definition create_erosion_comparison_chart (df : list row)
  : figure (list ((string * string) * float)) :=
  if empty df then EmptyFigure else Plot (comparison_data df).

(** Line 180: average total erosion by country. *)
Definition country_avg (df : list row) : list (string * float) :=
  agg_mean OBS_VALUE (groupby Country (totals_only df)).

(** Line 181 with the row count as a parameter (the code has 15):
    [sort_values('OBS_VALUE', ascending=True).tail(n)]. *)
Definition ranking (n : nat) (df : list row) : list (string * float) :=
  tail n (sort_values snd (country_avg df)).

Definition create_country_ranking_chart (df : list row)
  : figure (list (string * float)) :=
  if empty df then EmptyFigure else Plot (ranking 15 df).

(** [main], line 270: the "Average Total Erosion" metric. *)
Definition avg_erosion (filtered_df : list row) : float :=
  if negb (empty filtered_df) then
    nanmean (map OBS_VALUE (totals_only filtered_df))
  else Fin 0.

(** The test a row has to pass to be kept by [filter_data]: each selection
    that is not empty must contain the row's value. *)
Definition selected (countries : list string) (years : option (Z * Z))
           (erosion_types severity_levels : list string) (r : row) : bool :=
  (empty countries || isin (Country r) countries)
  && match years with
     | Some y => (fst y <=? Time r)%Z && (Time r <=? snd y)%Z
     | None => true
     end
  && (empty erosion_types || isin (Types_of_Erosion r) erosion_types)
  && (empty severity_levels || isin (EROSION_LEVEL r) severity_levels).

(** Line 149, [severity_data] before the label column is added. *)
Definition severity_means (df : list row) : list ((string * string) * float) :=
  agg_mean OBS_VALUE
           (groupby (fun r => (EROSION_LEVEL r, Erosion_risk_level r))
                    (filter (fun r => negb (isin (EROSION_LEVEL r)
                                                 ["_T"%string; "TOL"%string]))
                            df)).

(** Lines 152-159: [Series.map(severity_mapping)]; a level that is not a
    key of the dictionary gets a missing label. *)
Definition severity_mapping (level : string) : option string :=
  if keqb level "LW"%string then Some "Low"%string
  else if keqb level "MD"%string then Some "Moderate"%string
  else if keqb level "HG"%string then Some "High"%string
  else if keqb level "SV"%string then Some "Severe"%string
  else None.

Definition severity_data (df : list row)
  : list (((string * string) * float) * option string) :=
  map (fun r => (r, severity_mapping (fst (fst r)))) (severity_means df).

(** [main], lines 261-275: the summary metrics. *)
Definition total_countries (filtered_df : list row) : nat :=
  if negb (empty filtered_df) then nunique (map Country filtered_df) else O.

Definition total_records (filtered_df : list row) : nat :=
  List.length filtered_df.

(** [main], lines 221-256: the view when every widget is left at its
    default.  [None] when [int(...)] of an empty column or the slider
    raises. *)
Definition default_view (df : list row) : option (list row) :=
  let countries := sort_by kleb (unique (map Country df)) in
  match col_min (map Time df), col_max (map Time df) with
  | Some min_year, Some max_year =>
      let erosion_types := unique (map Types_of_Erosion df) in
      let severity_levels := unique (map EROSION_LEVEL df) in
      match slider_default min_year max_year with
      | Some selected_years =>
          Some (filter_data df (firstn 5 countries) (Some selected_years)
                            erosion_types severity_levels)
      | None => None
      end
  | _, _ => None
  end.

End ErosionCharts.

(* ================================================================== *)
(** * pages/land_charts.py                                             *)
(* ================================================================== *)

Module LandCharts.

Record row : Type := {
  Country : string;
  Time : Z;
  Types_of_Land : string;
  Actual_area : option Q
}.

Definition filter_data (df : list row) (countries : list string)
           (years : option (Z * Z)) (land_types : list string)
  : list row :=
  let filtered_df := df in
  let filtered_df :=
    if negb (empty countries) then
      filter (fun r => isin (Country r) countries) filtered_df
    else filtered_df in
  let filtered_df :=
    match years with
    | Some y =>
        filter (fun r => (Time r >=? fst y)%Z && (Time r <=? snd y)%Z)
               filtered_df
    | None => filtered_df
    end in
  let filtered_df :=
    if negb (empty land_types) then
      filter (fun r => isin (Types_of_Land r) land_types) filtered_df
    else filtered_df in
  filtered_df.

(** Line 98: area by year and land type. *)
Definition area_long (df : list row) : list ((Z * string) * Q) :=
  agg_sum Actual_area (groupby (fun r => (Time r, Types_of_Land r)) df).

(** Line 99: [.pivot(index='Time', columns='Types of Land', ...).fillna(0)]. *)
Definition area_data (df : list row) : option (wide Z string) :=
  option_map (fillna 0) (pivot (area_long df)).

(** [create_stacked_area_chart]; [None] stands for an exception. *)
Definition create_stacked_area_chart (df : list row)
  : option (figure (wide Z string)) :=
  if empty df then Some EmptyFigure else option_map (@Plot _) (area_data df).

(** Line 269 with the row count as a parameter (the code has 15):
    [groupby('Country')[...].sum().sort_values(ascending=True).tail(n)]. *)
Definition top_countries (n : nat) (df : list row) : list (string * Q) :=
  tail n (sort_values (fun r => Fin (snd r))
                      (agg_sum Actual_area (groupby Country df))).

Definition create_top_countries_chart (df : list row)
  : figure (list (string * Q)) :=
  if empty df then EmptyFigure else Plot (top_countries 15 df).

(** The test a row has to pass to be kept by [filter_data]. *)
Definition selected (countries : list string) (years : option (Z * Z))
           (land_types : list string) (r : row) : bool :=
  (empty countries || isin (Country r) countries)
  && match years with
     | Some y => (fst y <=? Time r)%Z && (Time r <=? snd y)%Z
     | None => true
     end
  && (empty land_types || isin (Types_of_Land r) land_types).

(** Lines 184-185: total area by land type, zero and negative totals
    removed. *)
Definition pie_data (df : list row) : list (string * Q) :=
  filter (fun r => negb (Qle_bool (snd r) 0))
         (agg_sum Actual_area (groupby Types_of_Land df)).

(** Line 133, [trend_data]. *)
Definition trend_data (df : list row) : list ((string * string * Z) * Q) :=
  agg_sum Actual_area
          (groupby (fun r => (Country r, Types_of_Land r, Time r)) df).

(** [main], lines 339-352: the summary metrics. *)
Definition total_countries (filtered_df : list row) : nat :=
  if negb (empty filtered_df) then nunique (map Country filtered_df) else O.

Definition land_type_count (filtered_df : list row) : nat :=
  if negb (empty filtered_df) then nunique (map Types_of_Land filtered_df)
  else O.

(** [main], lines 306-333: the view when every widget is left at its
    default.  [None] when [int(...)] of an empty column or the slider
    raises. *)
Definition default_view (df : list row) : option (list row) :=
  let countries := sort_by kleb (unique (map Country df)) in
  match col_min (map Time df), col_max (map Time df) with
  | Some min_year, Some max_year =>
      let land_types := sort_by kleb (unique (map Types_of_Land df)) in
      match slider_default min_year max_year with
      | Some selected_years =>
          Some (filter_data df (firstn 8 countries) (Some selected_years)
                            land_types)
      | None => None
      end
  | _, _ => None
  end.

End LandCharts.

(* ================================================================== *)
(** * pages/greenhouse-gas.py                                          *)
(* ================================================================== *)

Module GreenhouseGas.

Record row : Type := {
  MEASURE : string;
  Reference_area : string;
  TIME_PERIOD : Z;
  OBS_VALUE : option Q
}.

(** Lines 85-90. *)
Definition df_filtered (df_ghg : list row) (selected_measures : list string)
           (selected_region : string) (selected_range : Z * Z) : list row :=
  filter (fun r => isin (MEASURE r) selected_measures
                   && keqb (Reference_area r) selected_region
                   && (TIME_PERIOD r >=? fst selected_range)%Z
                   && (TIME_PERIOD r <=? snd selected_range)%Z) df_ghg.

(** Lines 98-100: emissions per year, ordered by year. *)
Definition annual_emissions (filtered : list row) : list (Z * Q) :=
  sort_index (agg_sum OBS_VALUE (groupby TIME_PERIOD filtered)).

(** [.iloc[0]] and [.iloc[-1]] of a series of at least one entry. *)
Definition iloc_first (s : list (Z * Q)) : Q := snd (hd (0%Z, 0) s).
Definition iloc_last (s : list (Z * Q)) : Q := snd (last s (0%Z, 0)).

(** Lines 103-109: percent change between the first and the last year. *)
Definition percent_change (annual : list (Z * Q)) : float :=
  if (2 <=? List.length annual)%nat then
    fmul (fdiv (fsub (Fin (iloc_last annual)) (Fin (iloc_first annual)))
               (Fin (iloc_first annual)))
         (Fin 100)
  else Fin 0.

(** Lines 120-125: emissions by year and measure, pivoted to one column
    per measure (no [fillna]). *)
Definition plot_long (filtered : list row) : list ((Z * string) * Q) :=
  agg_sum OBS_VALUE (groupby (fun r => (TIME_PERIOD r, MEASURE r)) filtered).

Definition df_plot (filtered : list row) : option (wide Z string) :=
  pivot (plot_long filtered).

(** What [kpi_and_line_tab] shows. *)
Record kpi : Type := {
  total_emissions : Q;
  avg_annual : float;
  pct_change : float;
  line_plot : option (wide Z string)
}.

(** [kpi_and_line_tab] from the filtered frame on: a warning and an early
    return ([None]) when nothing is left. *)
Definition kpi_and_line_tab (filtered : list row) : option kpi :=
  if empty filtered then None
  else
    let annual := annual_emissions filtered in
    Some {| total_emissions := nansum (map OBS_VALUE filtered);
            avg_annual := nanmean (map (fun r => Some (snd r)) annual);
            pct_change := percent_change annual;
            line_plot := df_plot filtered |}.

(** Lines 160-179: the rows of [pie_chart_tab] for a region, a time range
    and an emission category. *)
Definition pie_filtered (df_ghg : list row) (selected_region : string)
           (time_range : Z * Z) (category_filter : string) : list row :=
  let df_filtered :=
    filter (fun r => keqb (Reference_area r) selected_region
                     && (TIME_PERIOD r >=? fst time_range)%Z
                     && (TIME_PERIOD r <=? snd time_range)%Z) df_ghg in
  let df_filtered :=
    filter (fun r => negb (str_contains ["TOTGHG"%string] (MEASURE r)))
           df_filtered in
  if keqb category_filter "TOTAL"%string then
    filter (fun r => negb (str_contains ["LULUCF"%string; "AGR"%string]
                                        (MEASURE r))) df_filtered
  else if keqb category_filter "LULUCF"%string then
    filter (fun r => str_contains ["LULUCF"%string] (MEASURE r)) df_filtered
  else if keqb category_filter "AGR"%string then
    filter (fun r => str_contains ["AGR"%string] (MEASURE r)) df_filtered
  else df_filtered.

(** The emissions of one year of a view: the sum of its present values. *)
Definition year_emissions (y : Z) (filtered : list row) : Q :=
  nansum (map OBS_VALUE (filter (fun r => keqb (TIME_PERIOD r) y) filtered)).

End GreenhouseGas.

(* ================================================================== *)
(** * Wide-to-long, for the round trip                                 *)
(* ================================================================== *)

(** Modelled from the spec: the wide-to-long reshape named by the round-trip
    property is not in the source; this is [DataFrame.stack()], which lists
    the cells row by row and drops the NaN ones. *)
Definition unpivot {I C : Type} (w : wide I C) : list ((I * C) * Q) :=
  flat_map
    (fun r =>
       flat_map (fun cv => match snd cv with
                           | Some v => [((fst r, fst cv), v)]
                           | None => []
                           end)
                (combine (columns w) (snd r)))
    (rows w).

(* ================================================================== *)
(** * Example data                                                     *)
(* ================================================================== *)

Module Examples.
Open Scope string_scope.

Definition nutrient (e : string) (t : Z) (d : string) (v : option Q)
  : NutrientDashboard.row :=
  {| NutrientDashboard.TIME_PERIOD := t;
     NutrientDashboard.Reference_area := e;
     NutrientDashboard.REF_AREA := e;
     NutrientDashboard.Measure := d;
     NutrientDashboard.Nutrients := "Nitrogen";
     NutrientDashboard.OBS_VALUE := v |}.

(** The rows of the spec's end-to-end proportion scenario. *)
Definition scenario : list NutrientDashboard.row :=
  [ nutrient "A" 2015 "X" (Some 10);
    nutrient "A" 2015 "Y" (Some 30);
    nutrient "B" 2015 "X" (Some 0) ].

(** The row the scenario produces for entity B. *)
Definition scenario_B : NutrientDashboard.proportion_row :=
  {| NutrientDashboard.p_Reference_area := "B";
     NutrientDashboard.p_Measure := "X";
     NutrientDashboard.p_OBS_VALUE := 0;
     NutrientDashboard.Total := 0;
     NutrientDashboard.Proportion := NaN |}.

(** An aggregated table whose area A has the values 1, 4 and 1. *)
Definition sixths : list ((string * string) * Q) :=
  [ (("A", "X"), 1); (("A", "Y"), 4); (("B", "X"), 5); (("A", "Z"), 1) ].

(** An aggregated table whose area A has a large surplus and a large
    deficit that nearly cancel: [3 * 2^50 + 1] and [-(3 * 2^50 - 2)]. *)
Definition cancelling : list ((string * string) * Q) :=
  [ (("A", "X"), 3377699720527873); (("A", "Y"), -3377699720527870) ].

(** A nutrient data set spanning 2000-2020. *)
Definition nutrient_years : list NutrientDashboard.row :=
  [ nutrient "A" 2000 "X" (Some 1);
    nutrient "A" 2010 "X" (Some 2);
    nutrient "B" 2010 "Y" None;
    nutrient "B" 2020 "X" (Some 4) ].

Definition erosion (c : string) (t : Z) (ty lv : string) (v : option Q)
  : ErosionCharts.row :=
  {| ErosionCharts.Country := c;
     ErosionCharts.Time := t;
     ErosionCharts.Types_of_Erosion := ty;
     ErosionCharts.EROSION_LEVEL := lv;
     ErosionCharts.Erosion_risk_level := lv;
     ErosionCharts.OBS_VALUE := v |}.

(** An erosion data set spanning 2000-2020, with a missing value. *)
Definition erosion_years : list ErosionCharts.row :=
  [ erosion "A" 2000 "Water" "_T" (Some 1);
    erosion "A" 2010 "Water" "_T" None;
    erosion "B" 2010 "Wind" "_T" (Some 2);
    erosion "B" 2020 "Wind" "LW" (Some 4) ].


Definition land (c : string) (t : Z) (ty : string) (v : option Q)
  : LandCharts.row :=
  {| LandCharts.Country := c;
     LandCharts.Time := t;
     LandCharts.Types_of_Land := ty;
     LandCharts.Actual_area := v |}.

(** Two land observations that leave two (year, land type) pairs unseen. *)
Definition land_sparse : list LandCharts.row :=
  [ land "A" 2000 "Arable" (Some 5);
    land "A" 2001 "Pasture" (Some 7) ].


Definition ghg (m reg : string) (t : Z) (v : option Q)
  : GreenhouseGas.row :=
  {| GreenhouseGas.MEASURE := m;
     GreenhouseGas.Reference_area := reg;
     GreenhouseGas.TIME_PERIOD := t;
     GreenhouseGas.OBS_VALUE := v |}.

Definition ghg_sparse : list GreenhouseGas.row :=
  [ ghg "CO2" "A" 2000 (Some 5);
    ghg "CH4" "A" 2001 (Some 7);
    ghg "CO2" "A" 2000 None ].

End Examples.

(* ================================================================== *)
(** * Laws of keys and of the pandas operations                        *)
(* ================================================================== *)

#[export] Instance KeyEq_string : KeyEq string.
Proof. constructor. exact String.eqb_eq. Qed.

#[export] Instance KeyEq_Z : KeyEq Z.
Proof. constructor. exact Z.eqb_eq. Qed.

#[export] Instance KeyEq_prod {A B : Type} `{KeyEq A} `{KeyEq B}
  : KeyEq (A * B).
Proof.
  constructor. intros [a1 b1] [a2 b2]. simpl.
  rewrite andb_true_iff, !keqb_eq. split.
  - intros [-> ->]. reflexivity.
  - intros E. inversion E. auto.
Qed.

Section KeyFacts.
Context {K : Type} `{KeyEq K}.

Lemma keqb_refl (a : K) : keqb a a = true.
Proof. apply keqb_eq. reflexivity. Qed.

Lemma keqb_neq (a b : K) : keqb a b = false <-> a <> b.
Proof.
  rewrite <- keqb_eq. destruct (keqb a b); split; congruence.
Qed.

Lemma keqb_sym (a b : K) : keqb a b = keqb b a.
Proof.
  destruct (keqb a b) eqn:E.
  - apply keqb_eq in E. subst. symmetry. apply keqb_refl.
  - destruct (keqb b a) eqn:E'; [|reflexivity].
    apply keqb_eq in E'. subst. rewrite keqb_refl in E. discriminate.
Qed.

Lemma isin_In (x : K) (l : list K) : isin x l = true <-> In x l.
Proof.
  unfold isin. rewrite existsb_exists. split.
  - intros [y [Hy E]]. apply keqb_eq in E. subst. exact Hy.
  - intros Hx. exists x. split; [exact Hx | apply keqb_refl].
Qed.

Lemma unique_In (x : K) (l : list K) : In x (unique l) <-> In x l.
Proof.
  induction l as [|a l IH]; simpl; [tauto|].
  rewrite filter_In, IH, negb_true_iff, keqb_neq.
  destruct (keqb x a) eqn:E.
  - apply keqb_eq in E. subst. tauto.
  - apply keqb_neq in E. split; [tauto|].
    intros [->|Hx]; [congruence|]. right. split; assumption.
Qed.

Lemma unique_NoDup (l : list K) : NoDup (unique l).
Proof.
  induction l as [|a l IH]; simpl; constructor.
  - rewrite filter_In, negb_true_iff, keqb_neq. intros [_ Hne]. congruence.
  - apply NoDup_filter. exact IH.
Qed.

Lemma has_duplicates_NoDup (l : list K) :
  NoDup l -> has_duplicates l = false.
Proof.
  induction 1 as [|a l Hnin Hnd IH]; simpl; [reflexivity|].
  rewrite IH, orb_false_r.
  destruct (existsb (keqb a) l) eqn:E; [|reflexivity].
  apply (isin_In a l) in E. contradiction.
Qed.

End KeyFacts.

Section SortFacts.
Context {A : Type} (le : A -> A -> bool).

Lemma insert_sorted_perm (x : A) (l : list A) :
  Permutation (insert_sorted le x l) (x :: l).
Proof.
  induction l as [|h t IH]; simpl; [reflexivity|].
  destruct (le x h); [reflexivity|].
  rewrite IH. apply perm_swap.
Qed.

Lemma sort_by_perm (l : list A) : Permutation (sort_by le l) l.
Proof.
  induction l as [|a l IH]; simpl; [constructor|].
  rewrite insert_sorted_perm. constructor. exact IH.
Qed.

Lemma sort_by_In (x : A) (l : list A) : In x (sort_by le l) <-> In x l.
Proof.
  split; apply Permutation_in;
    [apply sort_by_perm | symmetry; apply sort_by_perm].
Qed.

Lemma sort_by_length (l : list A) : List.length (sort_by le l) = List.length l.
Proof. apply Permutation_length, sort_by_perm. Qed.

End SortFacts.

Lemma filter_comm {A : Type} (p q : A -> bool) (l : list A) :
  filter p (filter q l) = filter q (filter p l).
Proof.
  induction l as [|a l IH]; simpl; [reflexivity|].
  destruct (q a) eqn:Eq, (p a) eqn:Ep; simpl;
    rewrite ?Eq, ?Ep, IH; reflexivity.
Qed.

Lemma filter_none {A : Type} (p : A -> bool) (l : list A) :
  (forall x, In x l -> p x = false) -> filter p l = [].
Proof.
  induction l as [|a l IH]; simpl; intros Hp; [reflexivity|].
  rewrite (Hp a (or_introl eq_refl)). apply IH. intros x Hx.
  apply Hp. right. exact Hx.
Qed.

Lemma nil_of_no_member {A : Type} (l : list A) :
  (forall x, ~ In x l) -> l = [].
Proof.
  destruct l as [|a l]; [reflexivity|]. intros Hn.
  exfalso. apply (Hn a). left. reflexivity.
Qed.

(** The inclusive year test of the filters, as a proposition. *)
Lemma year_test (t lo hi : Z) :
  ((t >=? lo)%Z && (t <=? hi)%Z) = true <-> (lo <= t <= hi)%Z.
Proof. rewrite andb_true_iff, Z.geb_le, Z.leb_le. tauto. Qed.

(** A selection list restricts a column only when it is not empty. *)
Lemma optional_isin_filter {R : Type} (col : R -> string) (sel : list string)
      (df : list R) (r : R) :
  In r (if negb (empty sel) then filter (fun r => isin (col r) sel) df else df)
  <-> In r df /\ (sel = [] \/ In (col r) sel).
Proof.
  destruct sel as [|s sel]; cbn [empty negb].
  - tauto.
  - rewrite filter_In, isin_In. intuition congruence.
Qed.

Lemma erosion_filter_In (df : list ErosionCharts.row) cs years ets sls r :
  In r (ErosionCharts.filter_data df cs years ets sls) <->
  In r df
  /\ (cs = [] \/ In (ErosionCharts.Country r) cs)
  /\ match years with
     | Some y => (fst y <= ErosionCharts.Time r <= snd y)%Z
     | None => True
     end
  /\ (ets = [] \/ In (ErosionCharts.Types_of_Erosion r) ets)
  /\ (sls = [] \/ In (ErosionCharts.EROSION_LEVEL r) sls).
Proof.
  unfold ErosionCharts.filter_data.
  rewrite (optional_isin_filter ErosionCharts.EROSION_LEVEL).
  rewrite (optional_isin_filter ErosionCharts.Types_of_Erosion).
  destruct years as [y|].
  - rewrite filter_In, year_test.
    rewrite (optional_isin_filter ErosionCharts.Country). tauto.
  - rewrite (optional_isin_filter ErosionCharts.Country). tauto.
Qed.

Lemma land_filter_In (df : list LandCharts.row) cs years lts r :
  In r (LandCharts.filter_data df cs years lts) <->
  In r df
  /\ (cs = [] \/ In (LandCharts.Country r) cs)
  /\ match years with
     | Some y => (fst y <= LandCharts.Time r <= snd y)%Z
     | None => True
     end
  /\ (lts = [] \/ In (LandCharts.Types_of_Land r) lts).
Proof.
  unfold LandCharts.filter_data.
  rewrite (optional_isin_filter LandCharts.Types_of_Land).
  destruct years as [y|].
  - rewrite filter_In, year_test.
    rewrite (optional_isin_filter LandCharts.Country). tauto.
  - rewrite (optional_isin_filter LandCharts.Country). tauto.
Qed.

Lemma nutrient_filter_In (data : list NutrientDashboard.row) areas yr r :
  In r (NutrientDashboard.filtered_data data areas yr) <->
  In r data
  /\ (fst yr <= NutrientDashboard.TIME_PERIOD r <= snd yr)%Z
  /\ (In "All areas"%string areas
      \/ In (NutrientDashboard.Reference_area r) areas).
Proof.
  unfold NutrientDashboard.filtered_data.
  destruct (isin "All areas"%string areas) eqn:E; simpl.
  - apply isin_In in E. rewrite filter_In, year_test. tauto.
  - rewrite !filter_In, year_test, isin_In.
    assert (~ In "All areas"%string areas).
    { intros Hin. apply isin_In in Hin. congruence. }
    tauto.
Qed.

(* ================================================================== *)
(** * Filters                                                          *)
(* ================================================================== *)

(** C7.  The year filter keeps exactly the rows with [lo <= time <= hi],
    both ends included: a row is in the nutrients view, or in the view of
    the erosion [filter_data], exactly when it is a row of the data set
    whose year is in the range and which passes the other filters, and
    with no other filter set the erosion view is the data set filtered by
    the year test alone, rows in their order.  The range (2010, 2010)
    keeps exactly the rows of 2010; a range outside the years of the data,
    such as (2030, 2035) for data within 2000-2020, yields the empty view
    (and no error). *)
Theorem time_filter_inclusive :
  forall (data : list NutrientDashboard.row) (areas : list string)
         (df : list ErosionCharts.row) (cs ets sls : list string)
         (lo hi : Z),
    (forall r, In r (NutrientDashboard.filtered_data data areas (lo, hi)) <->
               (lo <= NutrientDashboard.TIME_PERIOD r <= hi)%Z
               /\ In r data
               /\ (In "All areas"%string areas
                   \/ In (NutrientDashboard.Reference_area r) areas))
    /\ (forall r, In r (ErosionCharts.filter_data df cs (Some (lo, hi)) ets sls)
                  <-> (lo <= ErosionCharts.Time r <= hi)%Z
                      /\ In r df
                      /\ (cs = [] \/ In (ErosionCharts.Country r) cs)
                      /\ (ets = [] \/ In (ErosionCharts.Types_of_Erosion r) ets)
                      /\ (sls = [] \/ In (ErosionCharts.EROSION_LEVEL r) sls))
    /\ ErosionCharts.filter_data df [] (Some (lo, hi)) [] []
       = filter (fun r => (lo <=? ErosionCharts.Time r)%Z
                          && (ErosionCharts.Time r <=? hi)%Z) df
    /\ ErosionCharts.filter_data df cs (Some (lo, hi)) ets sls
       = filter (fun r => (lo <=? ErosionCharts.Time r)%Z
                          && (ErosionCharts.Time r <=? hi)%Z)
                (ErosionCharts.filter_data df cs None ets sls)
    /\ (forall r,
           In r (NutrientDashboard.filtered_data data areas (2010, 2010)%Z) <->
           NutrientDashboard.TIME_PERIOD r = 2010%Z
           /\ In r data
           /\ (In "All areas"%string areas
               \/ In (NutrientDashboard.Reference_area r) areas))
    /\ (forall r,
           In r (ErosionCharts.filter_data df cs (Some (2010, 2010)%Z) ets sls)
           <-> ErosionCharts.Time r = 2010%Z
               /\ In r df
               /\ (cs = [] \/ In (ErosionCharts.Country r) cs)
               /\ (ets = [] \/ In (ErosionCharts.Types_of_Erosion r) ets)
               /\ (sls = [] \/ In (ErosionCharts.EROSION_LEVEL r) sls))
    /\ ((forall r, In r data ->
                   (2000 <= NutrientDashboard.TIME_PERIOD r <= 2020)%Z) ->
        NutrientDashboard.filtered_data data areas (2030, 2035)%Z = [])
    /\ ((forall r, In r df -> (2000 <= ErosionCharts.Time r <= 2020)%Z) ->
        ErosionCharts.filter_data df cs (Some (2030, 2035)%Z) ets sls = []).
Proof.
  intros data areas df cs ets sls lo hi.
  assert (Hnut : forall a b r,
             In r (NutrientDashboard.filtered_data data areas (a, b)) <->
             (a <= NutrientDashboard.TIME_PERIOD r <= b)%Z
             /\ In r data
             /\ (In "All areas"%string areas
                 \/ In (NutrientDashboard.Reference_area r) areas)).
  { intros a b r. rewrite nutrient_filter_In. simpl. tauto. }
  assert (Hero : forall a b r,
             In r (ErosionCharts.filter_data df cs (Some (a, b)) ets sls)
             <-> (a <= ErosionCharts.Time r <= b)%Z
                 /\ In r df
                 /\ (cs = [] \/ In (ErosionCharts.Country r) cs)
                 /\ (ets = [] \/ In (ErosionCharts.Types_of_Erosion r) ets)
                 /\ (sls = [] \/ In (ErosionCharts.EROSION_LEVEL r) sls)).
  { intros a b r. rewrite erosion_filter_In. simpl. tauto. }
  assert (Hext : forall l : list ErosionCharts.row,
             filter (fun r => (ErosionCharts.Time r >=? fst (lo, hi))%Z
                              && (ErosionCharts.Time r <=? snd (lo, hi))%Z) l
             = filter (fun r => (lo <=? ErosionCharts.Time r)%Z
                                && (ErosionCharts.Time r <=? hi)%Z) l).
  { intros l. apply filter_ext. intros r. simpl. rewrite Z.geb_leb.
    reflexivity. }
  split; [apply Hnut|].
  split; [apply Hero|].
  split.
  { unfold ErosionCharts.filter_data. cbn [empty negb]. apply Hext. }
  split.
  { unfold ErosionCharts.filter_data.
    set (d1 := if negb (empty cs) then _ else df).
    rewrite Hext.
    destruct (negb (empty ets)), (negb (empty sls));
      rewrite ?(filter_comm (fun r => (lo <=? ErosionCharts.Time r)%Z
                                      && (ErosionCharts.Time r <=? hi)%Z));
      reflexivity. }
  split.
  { intros r. rewrite Hnut. intuition lia. }
  split.
  { intros r. rewrite Hero. intuition lia. }
  split.
  - intros Hspan. apply nil_of_no_member. intros r Hin.
    apply Hnut in Hin. destruct Hin as [Ht [Hd _]]. apply Hspan in Hd. lia.
  - intros Hspan. apply nil_of_no_member. intros r Hin.
    apply Hero in Hin. destruct Hin as [Ht [Hd _]].
    apply Hspan in Hd. lia.
Qed.

(** The time filter at work on data spanning 2000-2020: the range
    (2010, 2010) keeps the two rows of 2010, in their order, and the range
    (2030, 2035) keeps nothing. *)
Lemma time_filter_inclusive_witness :
  ErosionCharts.filter_data Examples.erosion_years [] (Some (2010, 2010)%Z)
    [] []
  = [Examples.erosion "A" 2010 "Water" "_T" None;
     Examples.erosion "B" 2010 "Wind" "_T" (Some 2)]
  /\ In (Examples.nutrient "A" 2010 "X" (Some 2))
        (NutrientDashboard.filtered_data Examples.nutrient_years
           ["All areas"%string] (2010, 2010)%Z)
  /\ NutrientDashboard.filtered_data Examples.nutrient_years
       ["All areas"%string] (2030, 2035)%Z = []
  /\ ErosionCharts.filter_data Examples.erosion_years [] (Some (2030, 2035)%Z)
       [] [] = [].
Proof.
  pose proof (time_filter_inclusive Examples.nutrient_years
                ["All areas"%string] Examples.erosion_years [] [] []
                2010%Z 2010%Z) as T.
  destruct T as [_ [_ [Teq [_ [Tn10 [_ [Tn Te]]]]]]].
  split; [rewrite Teq; reflexivity|].
  split.
  { apply Tn10. split; [reflexivity|]. split; simpl; tauto. }
  split.
  - apply Tn. intros r Hr. simpl in Hr.
    repeat (destruct Hr as [<-|Hr]; [simpl; lia|]). contradiction.
  - apply Te. intros r Hr. simpl in Hr.
    repeat (destruct Hr as [<-|Hr]; [simpl; lia|]). contradiction.
Defined.

(** C9.  When the entity selection is the "all" sentinel -- ['All areas']
    among the selected areas of the nutrients page, the empty country
    selection of the erosion [filter_data] -- the view is the one obtained
    from the time and dimension filters alone: the entity filter does
    nothing. *)
Theorem all_entities_is_no_restriction :
  forall (data : list NutrientDashboard.row) (areas : list string)
         (yr : Z * Z) (df : list ErosionCharts.row)
         (years : option (Z * Z)) (ets sls : list string),
    In "All areas"%string areas ->
    NutrientDashboard.filtered_data data areas yr
    = filter (fun r => (fst yr <=? NutrientDashboard.TIME_PERIOD r)%Z
                       && (NutrientDashboard.TIME_PERIOD r <=? snd yr)%Z) data
    /\ NutrientDashboard.filtered_data data areas yr
       = NutrientDashboard.filtered_data data ["All areas"%string] yr
    /\ (forall r, In r (NutrientDashboard.filtered_data data areas yr) <->
                  In r data
                  /\ (fst yr <= NutrientDashboard.TIME_PERIOD r <= snd yr)%Z)
    /\ (forall r, In r (ErosionCharts.filter_data df [] years ets sls) <->
                  In r df
                  /\ match years with
                     | Some y => (fst y <= ErosionCharts.Time r <= snd y)%Z
                     | None => True
                     end
                  /\ (ets = [] \/ In (ErosionCharts.Types_of_Erosion r) ets)
                  /\ (sls = [] \/ In (ErosionCharts.EROSION_LEVEL r) sls)).
Proof.
  intros data areas yr df years ets sls Hall.
  assert (E : isin "All areas"%string areas = true) by (apply isin_In; exact Hall).
  split.
  { unfold NutrientDashboard.filtered_data. rewrite E. simpl.
    apply filter_ext. intros r. rewrite Z.geb_leb. reflexivity. }
  split.
  { unfold NutrientDashboard.filtered_data. rewrite E. reflexivity. }
  split.
  { intros r. rewrite nutrient_filter_In. tauto. }
  intros r. rewrite erosion_filter_In. tauto.
Qed.

(** 'All areas' next to another selected area still selects every area. *)
Lemma all_entities_is_no_restriction_witness :
  NutrientDashboard.filtered_data Examples.nutrient_years
    ["B"%string; "All areas"%string] (2010, 2020)%Z
  = NutrientDashboard.filtered_data Examples.nutrient_years
      ["All areas"%string] (2010, 2020)%Z.
Proof.
  apply (all_entities_is_no_restriction Examples.nutrient_years
           ["B"%string; "All areas"%string] (2010, 2020)%Z
           Examples.erosion_years None [] []).
  simpl. right. left. reflexivity.
Defined.

(** C10.  An empty area selection on the nutrients page keeps no row (it
    does not contain 'All areas', and no area is a member of the empty
    list), while an empty country selection in the erosion and land
    [filter_data] restricts nothing: the rows kept are those the other
    filters keep, all of them when no other filter is set. *)
Theorem empty_selection_semantics :
  forall (data : list NutrientDashboard.row) (yr : Z * Z)
         (edf : list ErosionCharts.row) (ldf : list LandCharts.row)
         (years : option (Z * Z)) (ets sls lts : list string),
    NutrientDashboard.filtered_data data [] yr = []
    /\ (forall r, In r (ErosionCharts.filter_data edf [] years ets sls) <->
                  In r edf
                  /\ match years with
                     | Some y => (fst y <= ErosionCharts.Time r <= snd y)%Z
                     | None => True
                     end
                  /\ (ets = [] \/ In (ErosionCharts.Types_of_Erosion r) ets)
                  /\ (sls = [] \/ In (ErosionCharts.EROSION_LEVEL r) sls))
    /\ ErosionCharts.filter_data edf [] None [] [] = edf
    /\ (forall r, In r (LandCharts.filter_data ldf [] years lts) <->
                  In r ldf
                  /\ match years with
                     | Some y => (fst y <= LandCharts.Time r <= snd y)%Z
                     | None => True
                     end
                  /\ (lts = [] \/ In (LandCharts.Types_of_Land r) lts))
    /\ LandCharts.filter_data ldf [] None [] = ldf.
Proof.
  intros data yr edf ldf years ets sls lts.
  split.
  { apply nil_of_no_member. intros r Hin.
    apply nutrient_filter_In in Hin. simpl in Hin. tauto. }
  split.
  { intros r. rewrite erosion_filter_In. tauto. }
  split; [reflexivity|].
  split; [|reflexivity].
  intros r. rewrite land_filter_In. tauto.
Qed.

(* ================================================================== *)
(** * Grouping                                                         *)
(* ================================================================== *)

Section GroupFacts.
Context {R K : Type} `{KeyEq K}.
Variable by_ : R -> K.

Lemma group_keys_In (df : list R) (k : K) :
  In k (group_keys by_ df) <-> In k (map by_ df).
Proof. unfold group_keys. rewrite sort_by_In. apply unique_In. Qed.

Lemma group_keys_NoDup (df : list R) : NoDup (group_keys by_ df).
Proof.
  unfold group_keys.
  apply (Permutation_NoDup (l := unique (map by_ df))).
  - symmetry. apply sort_by_perm.
  - apply unique_NoDup.
Qed.

(** The aggregated table, label by label. *)
Lemma agg_sum_groupby (col : R -> option Q) (df : list R) :
  agg_sum col (groupby by_ df)
  = map (fun k => (k, nansum (map col (filter (fun r => keqb (by_ r) k) df))))
        (group_keys by_ df).
Proof. unfold agg_sum, groupby. rewrite map_map. reflexivity. Qed.

Lemma agg_mean_groupby (col : R -> option Q) (df : list R) :
  agg_mean col (groupby by_ df)
  = map (fun k => (k, nanmean (map col (filter (fun r => keqb (by_ r) k) df))))
        (group_keys by_ df).
Proof. unfold agg_mean, groupby. rewrite map_map. reflexivity. Qed.

Lemma agg_sum_keys (col : R -> option Q) (df : list R) :
  map fst (agg_sum col (groupby by_ df)) = group_keys by_ df.
Proof.
  rewrite agg_sum_groupby, map_map. simpl. apply map_id.
Qed.

End GroupFacts.

(** In a table with one row per label, the rows of a label are that row. *)
Lemma filter_label {K V : Type} `{KeyEq K} (f : K -> V) (a : K) (ks : list K) :
  NoDup ks -> In a ks ->
  filter (fun t => keqb a (fst t)) (map (fun k => (k, f k)) ks) = [(a, f a)].
Proof.
  induction 1 as [|k ks Hnin Hnd IH]; simpl; [contradiction|].
  intros [->|Hin].
  - rewrite keqb_refl. f_equal. apply filter_none.
    intros [k v] Hkv. simpl. apply keqb_neq. intros ->.
    apply in_map_iff in Hkv. destruct Hkv as [k' [E Hk']].
    inversion E; subst. contradiction.
  - destruct (keqb a k) eqn:E.
    + apply keqb_eq in E. subst. contradiction.
    + apply IH. exact Hin.
Qed.

Lemma flat_map_singleton {A B : Type} (f : A -> list B) (h : A -> B)
      (l : list A) :
  (forall x, In x l -> f x = [h x]) -> flat_map f l = map h l.
Proof.
  induction l as [|a l IH]; simpl; intros Hf; [reflexivity|].
  rewrite (Hf a (or_introl eq_refl)). simpl. f_equal.
  apply IH. intros x Hx. apply Hf. right. exact Hx.
Qed.

(* ================================================================== *)
(** * Rounding and summation in binary64                               *)
(* ================================================================== *)

(** The rounding of the model on a few numbers: 0.1 is the double
    0x1.999999999999ap-4; the midpoint between the largest double and
    [2^1024] overflows; half of the smallest subnormal number is rounded
    to zero and three halves of it to twice it; ten times the double 0.1
    added up in row order is not 1, and is 1 with compensation. *)
Lemma round_examples :
  let tenth := 3602879701896397 # 36028797018963968 in
  F64.round (1 # 10) = Fin tenth
  /\ F64.round (2 ^ 1024 - 2 ^ 970) = PInf
  /\ F64.round (2 ^ (-1075)) = Fin 0
  /\ F64.round (3 * 2 ^ (-1075)) = Fin (Qred (2 ^ (-1073)))
  /\ F64.round (- (1 # 3)) = Fin (-6004799503160661 # 18014398509481984)
  /\ F64.sum (map Fin [tenth; tenth; tenth; tenth; tenth;
                       tenth; tenth; tenth; tenth; tenth])
     = Fin (9007199254740991 # 9007199254740992)
  /\ F64.kahan_sum (map Fin [tenth; tenth; tenth; tenth; tenth;
                             tenth; tenth; tenth; tenth; tenth])
     = Fin 1.
Proof. vm_compute. repeat split. Qed.

Lemma pow2_pos (e : Z) : 0 < 2 ^ e.
Proof. apply Qpower_0_lt. reflexivity. Qed.

Lemma pow2_succ (n : Z) : 2 ^ (n + 1) == 2 * 2 ^ n.
Proof. rewrite Qpower_plus by discriminate. rewrite Qpower_1_r. ring. Qed.

Lemma pow2_plus (n m : Z) : 2 ^ (n + m) == 2 ^ n * 2 ^ m.
Proof. apply Qpower_plus. discriminate. Qed.

Lemma pow2_inject (n : Z) : (0 <= n)%Z -> inject_Z (2 ^ n) == 2 ^ n.
Proof. intros H. rewrite Zpower_Qpower by exact H. reflexivity. Qed.

(** An integer is between two consecutive powers of two given by its
    binary logarithm. *)
Lemma log2_bounds (n : Z) :
  (0 < n)%Z ->
  2 ^ Z.log2 n <= inject_Z n /\ inject_Z n < 2 * 2 ^ Z.log2 n.
Proof.
  intros Hn. destruct (Z.log2_spec n Hn) as [H1 H2].
  pose proof (Z.log2_nonneg n) as H0.
  split.
  - rewrite <- pow2_inject by exact H0. rewrite <- Zle_Qle. exact H1.
  - rewrite <- pow2_succ. rewrite <- pow2_inject by lia.
    rewrite <- Zlt_Qlt. exact H2.
Qed.

Lemma ilog2_spec (x : Q) :
  0 < x -> 2 ^ F64.ilog2 x <= x /\ x < 2 * 2 ^ F64.ilog2 x.
Proof.
  intros Hx. unfold F64.ilog2.
  destruct x as [n d]. cbn [Qnum Qden].
  assert (Hn : (0 < n)%Z).
  { unfold Qlt in Hx. simpl in Hx. lia. }
  destruct (log2_bounds Hn) as [N1 N2].
  destruct (@log2_bounds (Zpos d) eq_refl) as [D1 D2].
  set (ln := Z.log2 n) in *. set (ld := Z.log2 (Zpos d)) in *.
  assert (Ex : n # d == inject_Z n / inject_Z (Zpos d)) by apply Qmake_Qdiv.
  assert (Ea : 2 ^ (ln - ld) * 2 ^ ld == 2 ^ ln).
  { rewrite <- pow2_plus. replace (ln - ld + ld)%Z with ln by lia.
    reflexivity. }
  assert (Ea' : 2 ^ (ln - ld - 1) * (2 * 2 ^ ld) == 2 ^ ln).
  { rewrite <- pow2_succ, <- pow2_plus.
    replace (ln - ld - 1 + (ld + 1))%Z with ln by lia. reflexivity. }
  pose proof (pow2_pos ld) as Pd. pose proof (pow2_pos ln) as Pn.
  pose proof (pow2_pos (ln - ld)) as Pa.
  pose proof (pow2_pos (ln - ld - 1)) as Pa'.
  set (N := inject_Z n) in *. set (D := inject_Z (Zpos d)) in *.
  assert (HD : 0 < D) by (apply Qlt_le_trans with (2 ^ ld); assumption).
  assert (Exm : (n # d) * D == N).
  { rewrite Ex. field. intros E. rewrite E in HD. discriminate. }
  set (x := n # d) in *.
  set (A := 2 ^ (ln - ld)) in *. set (A' := 2 ^ (ln - ld - 1)) in *.
  set (P := 2 ^ ln) in *. set (R := 2 ^ ld) in *.
  destruct (Qle_bool A x) eqn:E.
  - apply Qle_bool_iff in E. split; [exact E|].
    fold A. nra.
  - assert (Hlt : x < A).
    { apply Qnot_le_lt. intros H. apply Qle_bool_iff in H. congruence. }
    assert (EA : A == 2 * A').
    { unfold A, A'. rewrite <- pow2_succ.
      replace (ln - ld - 1 + 1)%Z with (ln - ld)%Z by lia. reflexivity. }
    fold A'. split; [|lra].
    nra.
Qed.

Lemma round_half_even_spec (x : Q) :
  inject_Z (F64.round_half_even x) - (1 # 2) <= x
  /\ x <= inject_Z (F64.round_half_even x) + (1 # 2).
Proof.
  unfold F64.round_half_even.
  pose proof (Qfloor_le x) as H1. pose proof (Qlt_floor x) as H2.
  rewrite inject_Z_plus in H2.
  set (f := Qfloor x) in *.
  change (inject_Z 1) with 1 in H2.
  destruct (x - inject_Z f ?= 1 # 2) eqn:E.
  - apply Qeq_alt in E. destruct (Z.even f).
    + lra.
    + rewrite inject_Z_plus. change (inject_Z 1) with 1. lra.
  - apply Qlt_alt in E. lra.
  - apply Qgt_alt in E. rewrite inject_Z_plus. change (inject_Z 1) with 1.
    lra.
Qed.

Lemma u_pow2 : F64.u == 2 ^ (-53).
Proof. reflexivity. Qed.

(** A positive number in the normal range is rounded to a double within
    relative error [u]. *)
Lemma round_normal (x : Q) :
  2 ^ (-1022) <= x -> x <= 2 ^ 1023 ->
  exists y,
    F64.round x = Fin y /\ (1 - F64.u) * x <= y /\ y <= (1 + F64.u) * x.
Proof.
  intros Hlo Hhi.
  assert (Hx : 0 < x).
  { apply Qlt_le_trans with (2 ^ (-1022)); [apply pow2_pos|exact Hlo]. }
  unfold F64.round. rewrite (proj1 (Qgt_alt x 0) Hx).
  unfold F64.round_pos.
  destruct (ilog2_spec Hx) as [K1 K2].
  set (k := F64.ilog2 x) in *.
  assert (Hk1 : (-1022 <= k)%Z).
  { assert (H : 2 ^ (-1022) < 2 ^ (k + 1)).
    { rewrite pow2_succ. lra. }
    apply Qpower_lt_compat_l_inv in H; [lia|reflexivity]. }
  assert (Hk2 : (k <= 1023)%Z).
  { assert (H : 2 ^ k <= 2 ^ 1023) by lra.
    apply Qpower_le_compat_l_inv in H; [lia|reflexivity]. }
  replace (Z.max (k - 52) (-1074)) with (k - 52)%Z by lia.
  set (e := (k - 52)%Z).
  pose proof (pow2_pos e) as Pe.
  destruct (round_half_even_spec (x / 2 ^ e)) as [Z1 Z2].
  set (z := inject_Z (F64.round_half_even (x / 2 ^ e))) in *.
  assert (Em : x / 2 ^ e * 2 ^ e == x).
  { field. intros E. rewrite E in Pe. discriminate. }
  assert (Ek : 2 ^ k * F64.u == (1 # 2) * 2 ^ e).
  { unfold e. rewrite u_pow2.
    replace k with ((k - 52) + 52)%Z at 1 by lia.
    rewrite pow2_plus. set (p := 2 ^ (k - 52)).
    change (2 ^ 52) with (4503599627370496 # 1).
    change (2 ^ (-53)) with (1 # 9007199254740992). field. }
  set (m := x / 2 ^ e) in *. set (E := 2 ^ e) in *. set (K := 2 ^ k) in *.
  assert (B1 : (1 - F64.u) * x <= z * E) by (unfold F64.u in *; nra).
  assert (B2 : z * E <= (1 + F64.u) * x) by (unfold F64.u in *; nra).
  assert (Hov : Qle_bool (2 ^ 1024) (z * E) = false).
  { destruct (Qle_bool (2 ^ 1024) (z * E)) eqn:Eo; [|reflexivity].
    apply Qle_bool_iff in Eo.
    assert (H24 : 2 ^ 1024 == 2 * 2 ^ 1023) by reflexivity.
    set (M := 2 ^ 1023) in *. set (M' := 2 ^ 1024) in *.
    assert (0 < M) by (apply pow2_pos).
    unfold F64.u in *. nra. }
  rewrite Hov. exists (Qred (z * E)). split; [reflexivity|].
  rewrite Qred_correct. split; assumption.
Qed.

Lemma round_zero (x : Q) : x == 0 -> F64.round x = Fin 0.
Proof. intros E. unfold F64.round. rewrite (proj1 (Qeq_alt x 0) E). reflexivity. Qed.

(** One more rounded addition keeps the accumulator near the exact sum. *)
Lemma near_step (e c t Sx x y : Q) :
  0 <= e -> c <= 1 -> 0 <= c - e -> 0 <= Sx -> 0 <= x ->
  c * Sx <= t -> t * c <= Sx ->
  (1 - e) * (t + x) <= y -> y <= (1 + e) * (t + x) ->
  (c - e) * (Sx + x) <= y /\ y * (c - e) <= Sx + x.
Proof.
  intros He Hc Hce HS Hx L U Y1 Y2.
  assert (Hc0 : 0 <= c) by lra.
  assert (Ht : 0 <= t) by nra.
  assert (Ha : 0 <= t + x) by lra.
  assert (Hb : 0 <= Sx + x) by lra.
  assert (E1 : 0 <= e * (1 - c)) by nra.
  assert (E2 : 0 <= e * (1 - c) * (Sx + x)).
  { apply Qmult_le_0_compat; assumption. }
  assert (E3 : 0 <= (e * (1 - c) + e * e) * (t + x)).
  { apply Qmult_le_0_compat; [nra|assumption]. }
  assert (E4 : 0 <= (1 - e) * (t + x - c * (Sx + x))).
  { apply Qmult_le_0_compat; [lra|nra]. }
  assert (E5 : 0 <= (c - e) * ((1 + e) * (t + x) - y)).
  { apply Qmult_le_0_compat; lra. }
  split.
  - lra.
  - assert (H4 : c * (t + x) <= Sx + x) by nra.
    lra.
Qed.

Section Summation.
Variables (lo hi : Q) (N : Q).
Hypothesis lo_pos : 0 < lo.
Hypothesis lo_hi : lo <= hi.
Hypothesis lo_normal : 2 ^ (-1021) <= lo.
Hypothesis hi_normal : 2 * (N * hi) <= 2 ^ 1023.
Hypothesis N_small : N * F64.u <= 1 # 2.

Lemma add_step (k t Sx x : Q) :
  0 <= k -> k + 1 <= N ->
  F64.near k t Sx -> (Sx == 0 \/ lo <= Sx) -> Sx <= k * hi -> F64.ranged lo hi x ->
  exists t',
    F64.add (Fin t) (Fin x) = Fin t' /\ F64.near (k + 1) t' (Sx + x).
Proof.
  intros Hk HkN [L U] HS Shi Hx. cbn [F64.add].
  assert (Hu : 0 < F64.u) by reflexivity.
  assert (Hku : (k + 1) * F64.u <= 1 # 2) by nra.
  assert (P1 : 2 ^ (-1021) == 2 * 2 ^ (-1022)) by reflexivity.
  set (p := 2 ^ (-1022)) in *. set (P := 2 ^ 1023) in *.
  set (p' := 2 ^ (-1021)) in *.
  assert (Hhi : 0 < hi) by lra.
  assert (HS0 : 0 <= Sx) by (destruct HS; lra).
  assert (Hx0 : 0 <= x) by (destruct Hx; lra).
  assert (Hxhi : x <= hi) by (destruct Hx; lra).
  set (c := 1 - k * F64.u) in *.
  assert (Hc1 : c <= 1) by (unfold c; nra).
  assert (Hc2 : 1 # 2 <= c - F64.u) by (unfold c; nra).
  assert (Ht : 0 <= t) by nra.
  assert (Hzero : Sx == 0 -> t == 0) by (intros E; nra).
  assert (Ec : 1 - (k + 1) * F64.u == c - F64.u) by (unfold c; ring).
  destruct (Qlt_le_dec 0 (Sx + x)) as [Hpos|Hnp].
  - assert (Hlow : lo <= Sx + x).
    { destruct HS as [HS|HS]; destruct Hx as [Hx|Hx]; lra. }
    destruct (@round_normal (t + x)) as [y [Ey [Y1 Y2]]].
    + fold p. nra.
    + fold P.
      assert (H1 : t <= 2 * Sx) by nra.
      assert (H2 : Sx + x <= (k + 1) * hi) by nra.
      assert (H3 : (k + 1) * hi <= N * hi) by nra.
      lra.
    + exists y. split; [exact Ey|]. unfold F64.near. rewrite Ec.
      apply near_step with (t := t); try assumption; lra.
  - assert (ES : Sx == 0) by lra. assert (Ex : x == 0) by lra.
    exists 0. split.
    + apply round_zero. rewrite (Hzero ES), Ex. reflexivity.
    + unfold F64.near. rewrite ES, Ex. lra.
Qed.

Lemma near_ext (k k' t Sx Sx' : Q) :
  k == k' -> Sx == Sx' -> F64.near k t Sx -> F64.near k' t Sx'.
Proof. unfold F64.near. intros Ek ES. rewrite Ek, ES. tauto. Qed.

Lemma inject_succ (k : nat) :
  inject_Z (Z.of_nat (S k)) == inject_Z (Z.of_nat k) + 1.
Proof.
  rewrite Nat2Z.inj_succ. unfold Z.succ. rewrite inject_Z_plus. reflexivity.
Qed.

Lemma inject_nat_nonneg (k : nat) : 0 <= inject_Z (Z.of_nat k).
Proof. change 0 with (inject_Z 0). rewrite <- Zle_Qle. lia. Qed.

Lemma sum_from (l : list Q) :
  forall (k : nat) (t Sx : Q),
    inject_Z (Z.of_nat (k + List.length l)) <= N ->
    F64.near (inject_Z (Z.of_nat k)) t Sx ->
    (Sx == 0 \/ lo <= Sx) -> Sx <= inject_Z (Z.of_nat k) * hi ->
    (forall x, In x l -> F64.ranged lo hi x) ->
    exists t',
      fold_left F64.add (map Fin l) (Fin t) = Fin t'
      /\ F64.near (inject_Z (Z.of_nat (k + List.length l))) t' (Sx + Qsum l).
Proof.
  induction l as [|x l IH]; intros k t Sx HN Hnear HS Shi Hl.
  - exists t. split; [reflexivity|].
    apply near_ext with (k := inject_Z (Z.of_nat k)) (Sx := Sx);
      [|simpl; ring|exact Hnear].
    rewrite Nat.add_0_r. reflexivity.
  - cbn [map fold_left List.length Qsum] in *.
    rewrite Nat.add_succ_r in HN. rewrite inject_succ in HN.
    assert (Hx : F64.ranged lo hi x) by (apply Hl; left; reflexivity).
    pose proof (inject_nat_nonneg k) as Hk0.
    pose proof (inject_nat_nonneg (List.length l)) as Hn0.
    assert (HkN : inject_Z (Z.of_nat k) + 1 <= N).
    { rewrite Nat2Z.inj_add, inject_Z_plus in HN. lra. }
    destruct (add_step Hk0 HkN Hnear HS Shi Hx) as [t1 [E1 N1]].
    rewrite E1.
    assert (HS0 : 0 <= Sx) by (destruct HS; lra).
    destruct (IH (S k) t1 (Sx + x)) as [t' [E' N']].
    + cbn [plus]. rewrite inject_succ. exact HN.
    + apply near_ext with (k := inject_Z (Z.of_nat k) + 1) (Sx := Sx + x);
        [symmetry; apply inject_succ|reflexivity|exact N1].
    + destruct HS as [HS|HS]; destruct Hx as [Hx|Hx]; [left|right|right|right];
        lra.
    + rewrite inject_succ.
      assert (x <= hi) by (destruct Hx; lra). lra.
    + intros y Hy. apply Hl. right. exact Hy.
    + exists t'. split; [exact E'|].
      apply near_ext with (k := inject_Z (Z.of_nat (S k + List.length l)))
                          (Sx := Sx + x + Qsum l); [|ring|exact N'].
      rewrite Nat.add_succ_r. reflexivity.
Qed.

(** The rounded sum of at most [N] values in range is near their exact
    sum. *)
Lemma sum_accurate (l : list Q) :
  inject_Z (Z.of_nat (List.length l)) <= N ->
  (forall x, In x l -> F64.ranged lo hi x) ->
  exists s,
    F64.sum (map Fin l) = Fin s
    /\ (1 - N * F64.u) * Qsum l <= s /\ s * (1 - N * F64.u) <= Qsum l.
Proof.
  intros HN Hl.
  destruct (@sum_from l O 0 0) as [s [Es [L U]]]; try assumption.
  - unfold F64.near. change (inject_Z (Z.of_nat 0)) with 0. lra.
  - left. reflexivity.
  - change (inject_Z (Z.of_nat 0)) with 0. lra.
  - exists s. split; [exact Es|]. cbn [plus] in L, U.
    assert (HS : 0 <= Qsum l).
    { clear - Hl lo_pos. induction l as [|x l IH]; simpl; [lra|].
      assert (0 <= x).
      { destruct (Hl x (or_introl eq_refl)) as [H|H]; lra. }
      assert (0 <= Qsum l) by (apply IH; intros y Hy; apply Hl; right; exact Hy).
      lra. }
    assert (Hu : 0 < F64.u) by reflexivity.
    pose proof (inject_nat_nonneg (List.length l)) as Hn0.
    set (n := inject_Z (Z.of_nat (List.length l))) in *.
    set (Q := Qsum l) in *.
    rewrite Qplus_0_l in L, U.
    assert (Hn : n * F64.u <= N * F64.u) by nra.
    assert (Hs : 0 <= s) by nra.
    split; nra.
Qed.

End Summation.

Lemma Qsum_ranged (lo hi : Q) (l : list Q) :
  0 < lo -> lo <= hi ->
  (forall x, In x l -> F64.ranged lo hi x) ->
  (Qsum l == 0 \/ lo <= Qsum l)
  /\ Qsum l <= inject_Z (Z.of_nat (List.length l)) * hi
  /\ forall x, In x l -> x <= Qsum l.
Proof.
  intros Hlo Hhi. induction l as [|x l IH]; intros Hl.
  - cbn [Qsum List.length]. change (inject_Z (Z.of_nat 0)) with 0.
    split; [left; reflexivity|]. split; [lra|contradiction].
  - cbn [Qsum List.length]. rewrite inject_succ.
    destruct IH as [I1 [I2 I3]]; [intros y Hy; apply Hl; right; exact Hy|].
    assert (Hx : F64.ranged lo hi x) by (apply Hl; left; reflexivity).
    assert (HS : 0 <= Qsum l) by (destruct I1; lra).
    assert (Hx0 : 0 <= x) by (destruct Hx; lra).
    assert (Hxh : x <= hi) by (destruct Hx; lra).
    split; [|split].
    + destruct I1; destruct Hx; [left|right|right|right]; lra.
    + lra.
    + intros y [<-|Hy]; [lra|]. specialize (I3 y Hy). lra.
Qed.

Lemma ranged_weaken (lo hi lo' hi' x : Q) :
  lo' <= lo -> hi <= hi' -> F64.ranged lo hi x -> F64.ranged lo' hi' x.
Proof. intros H1 H2 [H|[Ha Hb]]; [left; exact H|right; split; lra]. Qed.

Lemma max_rows_Q (n : nat) :
  (Z.of_nat n <= F64.max_rows)%Z -> inject_Z (Z.of_nat n) <= inject_Z F64.max_rows.
Proof. intros H. rewrite <- Zle_Qle. exact H. Qed.

(** Summation in row order is such a routine. *)
Lemma row_order_sum_accurate : F64.accurate F64.sum.
Proof.
  intros l Hn Hl.
  assert (G0 : 0 < 2 ^ (-900)) by reflexivity.
  assert (G1 : 2 ^ (-900) <= 2 ^ 900) by (vm_compute; discriminate).
  assert (G2 : 2 ^ (-1021) <= 2 ^ (-900)) by (vm_compute; discriminate).
  assert (G3 : 2 * (inject_Z F64.max_rows * 2 ^ 900) <= 2 ^ 1023)
    by (vm_compute; discriminate).
  assert (G4 : inject_Z F64.max_rows * F64.u <= 1 # 2)
    by (vm_compute; discriminate).
  destruct (@sum_accurate (2 ^ (-900)) (2 ^ 900) (inject_Z F64.max_rows)
              G0 G1 G2 G3 G4 l (max_rows_Q _ Hn) Hl) as [s [Es [L U]]].
  exists s. split; [exact Es|].
  destruct (@Qsum_ranged (2 ^ (-900)) (2 ^ 900) l G0 G1 Hl) as [S0 _].
  assert (HS : 0 <= Qsum l) by (destruct S0; lra).
  assert (C1 : 1 - F64.eps <= 1 - inject_Z F64.max_rows * F64.u)
    by (vm_compute; discriminate).
  assert (C2 : 1 <= (1 + F64.eps) * (1 - inject_Z F64.max_rows * F64.u))
    by (vm_compute; discriminate).
  assert (C3 : 0 < 1 - inject_Z F64.max_rows * F64.u) by reflexivity.
  clear G0 G1 G2 G3 G4 S0 Hl Hn Es.
  set (c := 1 - inject_Z F64.max_rows * F64.u) in *. set (Sx := Qsum l) in *.
  assert (A1 : 0 <= (c - (1 - F64.eps)) * Sx) by (apply Qmult_le_0_compat; lra).
  split; [lra|].
  assert (A2 : 0 <= ((1 + F64.eps) * c - 1) * Sx) by (apply Qmult_le_0_compat; lra).
  assert (A3 : s * c <= (1 + F64.eps) * Sx * c) by lra.
  apply Qnot_lt_le. intros Hlt.
  assert (0 < (s - (1 + F64.eps) * Sx) * c) by (apply Qmult_lt_0_compat; lra).
  lra.
Qed.

(** Rounding any rational within the double range: a relative error of
    at most [u], or an absolute one of at most [eta] below the normal
    numbers. *)
Lemma round_pos_general (x : Q) :
  0 < x -> x <= 2 ^ 1023 ->
  exists y,
    F64.round x = Fin y
    /\ x - (F64.u * x + F64.eta) <= y /\ y <= x + (F64.u * x + F64.eta).
Proof.
  intros Hx Hhi.
  assert (He : 0 < F64.eta) by reflexivity.
  destruct (Qlt_le_dec x (2 ^ (-1022))) as [Hsub|Hnorm].
  - unfold F64.round. rewrite (proj1 (Qgt_alt x 0) Hx). unfold F64.round_pos.
    destruct (ilog2_spec Hx) as [K1 K2].
    set (k := F64.ilog2 x) in *.
    assert (Hk : (k < -1022)%Z).
    { assert (H : 2 ^ k < 2 ^ (-1022)) by lra.
      apply Qpower_lt_compat_l_inv in H; [lia|reflexivity]. }
    replace (Z.max (k - 52) (-1074)) with (-1074)%Z by lia.
    pose proof (pow2_pos (-1074)) as Pe.
    destruct (round_half_even_spec (x / 2 ^ (-1074))) as [Z1 Z2].
    set (z := inject_Z (F64.round_half_even (x / 2 ^ (-1074)))) in *.
    assert (Em : x / 2 ^ (-1074) * 2 ^ (-1074) == x).
    { field. intros E. rewrite E in Pe. discriminate. }
    assert (Ee : (1 # 2) * 2 ^ (-1074) == F64.eta) by reflexivity.
    assert (H22 : 2 ^ (-1022) <= 1) by (vm_compute; discriminate).
    assert (H24 : 2 <= 2 ^ 1024) by (vm_compute; discriminate).
    assert (Hu : 0 < F64.u) by reflexivity.
    assert (He1 : F64.eta <= 1) by (vm_compute; discriminate).
    set (m := x / 2 ^ (-1074)) in *. set (E := 2 ^ (-1074)) in *.
    set (p := 2 ^ (-1022)) in *. set (M := 2 ^ 1024) in *.
    assert (B1 : x - F64.eta <= z * E) by nra.
    assert (B2 : z * E <= x + F64.eta) by nra.
    assert (Hov : Qle_bool M (z * E) = false).
    { destruct (Qle_bool M (z * E)) eqn:Eo; [|reflexivity].
      apply Qle_bool_iff in Eo. lra. }
    rewrite Hov. exists (Qred (z * E)). split; [reflexivity|].
    rewrite Qred_correct. split; nra.
  - destruct (round_normal Hnorm Hhi) as [y [Ey [Y1 Y2]]].
    exists y. split; [exact Ey|]. split; lra.
Qed.

(** Rounding a rational of magnitude at most [B]. *)
Lemma round_general (x B : Q) :
  - B <= x -> x <= B -> B <= 2 ^ 1023 ->
  exists y, F64.round x = Fin y
            /\ x - (F64.u * B + F64.eta) <= y /\ y <= x + (F64.u * B + F64.eta).
Proof.
  intros H1 H2 HB.
  assert (Hu : 0 < F64.u) by reflexivity.
  assert (He : 0 < F64.eta) by reflexivity.
  destruct (Qcompare x 0) eqn:C.
  - apply Qeq_alt in C. exists 0. split; [apply round_zero; exact C|].
    assert (0 <= B) by lra. split; nra.
  - apply Qlt_alt in C.
    assert (Hx : 0 < - x) by lra.
    destruct (@round_pos_general (- x) Hx) as [y [Ey [Y1 Y2]]]; [lra|].
    exists (- y). split.
    + unfold F64.round in *. rewrite (proj1 (Qlt_alt x 0) C).
      rewrite (proj1 (Qgt_alt (- x) 0) Hx) in Ey. rewrite Ey. reflexivity.
    + split; nra.
  - apply Qgt_alt in C.
    destruct (@round_pos_general x C) as [y [Ey [Y1 Y2]]]; [lra|].
    exists y. split; [exact Ey|]. split; nra.
Qed.

Lemma sub_Fin (a b : Q) : F64.sub (Fin a) (Fin b) = F64.round (a + - b).
Proof. reflexivity. Qed.

Lemma add_Fin (a b : Q) : F64.add (Fin a) (Fin b) = F64.round (a + b).
Proof. reflexivity. Qed.

(** One row of the compensated sum, with the error of the accumulator
    so far bounded by [D]. *)
Lemma kahan_step_arith (lo Smax Sx x s c D : Q) :
  0 <= Sx -> 0 <= x -> lo <= Sx + x ->
  F64.eta <= (1 # 1267650600228229401496703205376) * lo ->
  Sx + x <= Smax -> 4 * Smax <= 2 ^ 1023 ->
  Sx - D <= s -> s <= Sx + D -> 0 <= D -> D <= (1 # 100) * Sx ->
  - (3 * F64.u * Sx) <= c -> c <= 3 * F64.u * Sx ->
  exists t c',
    F64.add (Fin s) (F64.sub (Fin x) (Fin c)) = Fin t
    /\ F64.sub (F64.sub (Fin t) (Fin s)) (F64.sub (Fin x) (Fin c)) = Fin c'
    /\ (Sx + x) - (D + 6 * F64.u * (Sx + x)) <= t
    /\ t <= (Sx + x) + (D + 6 * F64.u * (Sx + x))
    /\ - (3 * F64.u * (Sx + x)) <= c' /\ c' <= 3 * F64.u * (Sx + x).
Proof.
  intros HS Hx Hlo Heta HSm HP Hs1 Hs2 HD0 HD Hc1 Hc2.
  assert (He : 0 < F64.eta) by reflexivity.
  set (P := 2 ^ 1023) in *.
  unfold F64.u in *.
  destruct (@round_general (x + - c) (x + 3 * (1 # 9007199254740992) * Sx))
    as [y [Ey [Y1 Y2]]]; [lra|lra|fold P; lra|].
  unfold F64.u in Y1, Y2.
  set (B1 := x + 3 * (1 # 9007199254740992) * Sx) in *.
  set (By := B1 + ((1 # 9007199254740992) * B1 + F64.eta)).
  destruct (@round_general (s + y) (Sx + D + By))
    as [t [Et [T1 T2]]]; [unfold By, B1 in *; lra|unfold By, B1 in *; lra|
                          fold P; unfold By, B1 in *; lra|].
  unfold F64.u in T1, T2.
  set (B2 := Sx + D + By) in *.
  set (B3 := By + ((1 # 9007199254740992) * B2 + F64.eta)).
  destruct (@round_general (t + - s) B3)
    as [d [Ed [D1 D2]]];
    [unfold B3, B2, By, B1 in *; lra|unfold B3, B2, By, B1 in *; lra|
     fold P; unfold B3, B2, By, B1 in *; lra|].
  unfold F64.u in D1, D2.
  set (B4 := ((1 # 9007199254740992) * B3 + F64.eta)
             + ((1 # 9007199254740992) * B2 + F64.eta)).
  destruct (@round_general (d + - y) B4)
    as [c' [Ec [C1 C2]]];
    [unfold B4, B3, B2, By, B1 in *; lra|unfold B4, B3, B2, By, B1 in *; lra|
     fold P; unfold B4, B3, B2, By, B1 in *; lra|].
  unfold F64.u in C1, C2.
  exists t, c'.
  split; [rewrite sub_Fin, Ey, add_Fin; exact Et|].
  split; [rewrite (sub_Fin x c), Ey, (sub_Fin t s), Ed, sub_Fin; exact Ec|].
  unfold B4, B3, B2, By, B1 in *. repeat split; lra.
Qed.

Lemma kahan_inv_ext (k k' s c Sx Sx' : Q) :
  k == k' -> Sx == Sx' -> F64.kahan_inv k s c Sx -> F64.kahan_inv k' s c Sx'.
Proof. unfold F64.kahan_inv. intros Ek ES. rewrite Ek, ES. tauto. Qed.

Lemma kahan_step (k Sx x s c : Q) :
  0 <= k -> k + 1 <= inject_Z F64.max_rows ->
  F64.kahan_inv k s c Sx ->
  (Sx == 0 \/ 2 ^ (-900) <= Sx) -> Sx <= k * 2 ^ 900 ->
  F64.ranged (2 ^ (-900)) (2 ^ 900) x ->
  exists t c',
    F64.add (Fin s) (F64.sub (Fin x) (Fin c)) = Fin t
    /\ F64.sub (F64.sub (Fin t) (Fin s)) (F64.sub (Fin x) (Fin c)) = Fin c'
    /\ F64.kahan_inv (k + 1) t c' (Sx + x).
Proof.
  intros Hk HkN [[L U] [CL CU]] HS Shi Hx.
  assert (Hu : 0 < F64.u) by reflexivity.
  assert (G1 : 0 < 2 ^ (-900)) by reflexivity.
  assert (G2 : F64.eta <= (1 # 1267650600228229401496703205376) * 2 ^ (-900))
    by (vm_compute; discriminate).
  assert (G3 : 4 * (inject_Z F64.max_rows * 2 ^ 900) <= 2 ^ 1023)
    by (vm_compute; discriminate).
  assert (G4 : 6 * inject_Z F64.max_rows * F64.u <= 1 # 100)
    by (vm_compute; discriminate).
  assert (G5 : 0 < 2 ^ 900) by reflexivity.
  set (lo := 2 ^ (-900)) in *. set (hi := 2 ^ 900) in *.
  set (N := inject_Z F64.max_rows) in *.
  assert (HS0 : 0 <= Sx) by (destruct HS; lra).
  assert (Hx0 : 0 <= x) by (destruct Hx; lra).
  assert (Hxhi : x <= hi) by (destruct Hx; lra).
  assert (Hku : 6 * k * F64.u <= 1 # 100) by nra.
  assert (Hku0 : 0 <= 6 * k * F64.u) by nra.
  destruct (Qlt_le_dec 0 (Sx + x)) as [Hpos|Hnp].
  - assert (Hlow : lo <= Sx + x).
    { destruct HS as [HS|HS]; destruct Hx as [Hx|Hx]; lra. }
    assert (HD0 : 0 <= 6 * k * F64.u * Sx) by (apply Qmult_le_0_compat; lra).
    assert (HD : 6 * k * F64.u * Sx <= (1 # 100) * Sx).
    { apply Qmult_le_compat_r; lra. }
    assert (HSm : Sx + x <= N * hi) by nra.
    destruct (@kahan_step_arith lo (N * hi) Sx x s c (6 * k * F64.u * Sx))
      as [t [c' [Et [Ec [T1 [T2 [C1 C2]]]]]]]; try assumption; try lra.
    exists t, c'. split; [exact Et|]. split; [exact Ec|].
    assert (HDx : 0 <= 6 * k * F64.u * x) by (apply Qmult_le_0_compat; lra).
    unfold F64.kahan_inv. repeat split; try assumption; lra.
  - assert (ES : Sx == 0) by lra. assert (Ex : x == 0) by lra.
    assert (Es : s == 0).
    { rewrite ES in L, U. lra. }
    assert (Ec : c == 0).
    { rewrite ES in CL, CU. lra. }
    exists 0, 0.
    assert (E1 : F64.sub (Fin x) (Fin c) = Fin 0).
    { rewrite sub_Fin. apply round_zero. rewrite Ex, Ec. reflexivity. }
    rewrite E1. rewrite add_Fin.
    assert (E2 : F64.round (s + 0) = Fin 0).
    { apply round_zero. rewrite Es. reflexivity. }
    split; [exact E2|]. split.
    + rewrite (sub_Fin 0 s).
      assert (E3 : F64.round (0 + - s) = Fin 0).
      { apply round_zero. rewrite Es. reflexivity. }
      rewrite E3. reflexivity.
    + unfold F64.kahan_inv. rewrite ES, Ex. lra.
Qed.

Lemma kahan_from (l : list Q) :
  forall (k : nat) (s c Sx : Q),
    inject_Z (Z.of_nat (k + List.length l)) <= inject_Z F64.max_rows ->
    F64.kahan_inv (inject_Z (Z.of_nat k)) s c Sx ->
    (Sx == 0 \/ 2 ^ (-900) <= Sx) -> Sx <= inject_Z (Z.of_nat k) * 2 ^ 900 ->
    (forall x, In x l -> F64.ranged (2 ^ (-900)) (2 ^ 900) x) ->
    exists s' c',
      F64.kahan (map Fin l) (Fin s) (Fin c) = Fin s'
      /\ F64.kahan_inv (inject_Z (Z.of_nat (k + List.length l))) s' c'
                   (Sx + Qsum l).
Proof.
  induction l as [|x l IH]; intros k s c Sx HN Hinv HS Shi Hl.
  - exists s, c. split; [reflexivity|].
    apply kahan_inv_ext with (k := inject_Z (Z.of_nat k)) (Sx := Sx);
      [|simpl; ring|exact Hinv].
    rewrite Nat.add_0_r. reflexivity.
  - cbn [map List.length Qsum F64.kahan] in *.
    rewrite Nat.add_succ_r in HN. rewrite inject_succ in HN.
    assert (Hx : F64.ranged (2 ^ (-900)) (2 ^ 900) x)
      by (apply Hl; left; reflexivity).
    pose proof (inject_nat_nonneg k) as Hk0.
    pose proof (inject_nat_nonneg (List.length l)) as Hn0.
    assert (HkN : inject_Z (Z.of_nat k) + 1 <= inject_Z F64.max_rows).
    { rewrite Nat2Z.inj_add, inject_Z_plus in HN. lra. }
    destruct (kahan_step Hk0 HkN Hinv HS Shi Hx) as [t [c' [Et [Ec Hinv']]]].
    rewrite Et, Ec.
    assert (G1 : 0 < 2 ^ (-900)) by reflexivity.
    assert (G5 : 0 < 2 ^ 900) by reflexivity.
    set (lo := 2 ^ (-900)) in *. set (hi := 2 ^ 900) in *.
    assert (HS0 : 0 <= Sx) by (destruct HS; lra).
    destruct (IH (S k) t c' (Sx + x)) as [s' [c'' [E' N']]].
    + cbn [plus]. rewrite inject_succ. exact HN.
    + apply kahan_inv_ext with (k := inject_Z (Z.of_nat k) + 1) (Sx := Sx + x);
        [symmetry; apply inject_succ|reflexivity|exact Hinv'].
    + destruct HS as [HS|HS]; destruct Hx as [Hx|Hx]; [left|right|right|right];
        lra.
    + rewrite inject_succ.
      assert (x <= hi) by (destruct Hx; lra). lra.
    + intros y Hy. apply Hl. right. exact Hy.
    + exists s', c''. split; [exact E'|].
      apply kahan_inv_ext
        with (k := inject_Z (Z.of_nat (S k + List.length l)))
             (Sx := Sx + x + Qsum l); [|ring|exact N'].
      rewrite Nat.add_succ_r. reflexivity.
Qed.

(** Compensated summation is an accurate routine. *)
Lemma kahan_sum_accurate : F64.accurate F64.kahan_sum.
Proof.
  intros l Hn Hl. unfold F64.kahan_sum.
  destruct (@kahan_from l O 0 0 0) as [s [c [Es [[L U] _]]]].
  - exact (max_rows_Q _ Hn).
  - unfold F64.kahan_inv. change (inject_Z (Z.of_nat 0)) with 0. lra.
  - left. reflexivity.
  - change (inject_Z (Z.of_nat 0)) with 0. lra.
  - exact Hl.
  - exists s. split; [exact Es|]. cbn [plus] in L, U.
    assert (G0 : 0 < 2 ^ (-900)) by reflexivity.
    assert (G1 : 2 ^ (-900) <= 2 ^ 900) by (vm_compute; discriminate).
    destruct (@Qsum_ranged (2 ^ (-900)) (2 ^ 900) l G0 G1 Hl) as [S0 _].
    assert (HS : 0 <= Qsum l) by (destruct S0; lra).
    pose proof (inject_nat_nonneg (List.length l)) as Hn0.
    pose proof (max_rows_Q _ Hn) as HnN.
    assert (C1 : 6 * inject_Z F64.max_rows * F64.u <= F64.eps)
      by (vm_compute; discriminate).
    assert (Hu : 0 < F64.u) by reflexivity.
    rewrite Qplus_0_l in L, U.
    set (n := inject_Z (Z.of_nat (List.length l))) in *.
    set (N := inject_Z F64.max_rows) in *. set (Sx := Qsum l) in *.
    assert (A1 : 6 * n * F64.u <= F64.eps) by nra.
    assert (A2 : 6 * n * F64.u * Sx <= F64.eps * Sx).
    { apply Qmult_le_compat_r; assumption. }
    split; lra.
Qed.

(** The quotient of a value in range by a total near the exact sum. *)
Lemma div_step (v T Sx : Q) :
  0 < T -> T <= 2 * Sx -> Sx <= 2 * T -> Sx <= inject_Z F64.max_rows * F64.value_hi ->
  v <= Sx -> F64.ranged F64.value_lo F64.value_hi v ->
  exists q,
    F64.div (Fin v) (Fin T) = Fin q
    /\ F64.ranged F64.quotient_lo F64.quotient_hi q
    /\ (1 - F64.u) * v <= q * T /\ q * T <= (1 + F64.u) * v.
Proof.
  intros HT HT2 HS2 HSN HvS Hv. cbn [F64.div].
  assert (HT0 : Qeq_bool T 0 = false).
  { destruct (Qeq_bool T 0) eqn:E; [|reflexivity].
    apply Qeq_bool_iff in E. lra. }
  rewrite HT0.
  assert (Hu : 0 < F64.u) by reflexivity.
  assert (Hu1 : F64.u <= 1 # 2) by (vm_compute; discriminate).
  destruct Hv as [Hv|[Hv1 Hv2]].
  - exists 0. split; [|split].
    + apply round_zero. rewrite Hv. field. lra.
    + left. reflexivity.
    + rewrite Hv. lra.
  - assert (Ex : v / T * T == v) by (field; lra).
    set (x := v / T) in *.
    assert (F1 : 2 ^ (-1022) * (4 * (inject_Z F64.max_rows * F64.value_hi))
                 <= F64.value_lo)
      by (vm_compute; discriminate).
    assert (F2 : 2 * F64.quotient_lo * (4 * (inject_Z F64.max_rows * F64.value_hi))
                 <= F64.value_lo)
      by (vm_compute; discriminate).
    assert (F3 : 2 <= 2 ^ 1023) by (vm_compute; discriminate).
    assert (F4 : 0 < 2 ^ (-1022)) by reflexivity.
    assert (F5 : 0 < F64.quotient_lo) by reflexivity.
    assert (F6 : F64.quotient_hi == 4) by reflexivity.
    set (p := 2 ^ (-1022)) in *. set (P := 2 ^ 1023) in *.
    set (M := inject_Z F64.max_rows * F64.value_hi) in *.
    set (ql := F64.quotient_lo) in *. set (qh := F64.quotient_hi) in *.
    set (l := F64.value_lo) in *.
    assert (X1 : x <= 2) by nra.
    assert (X0 : 0 < x) by nra.
    assert (X2 : p <= x) by nra.
    assert (X3 : 2 * ql <= x) by nra.
    destruct (@round_normal x) as [q [Eq [Q1 Q2]]].
    + exact X2.
    + fold P. lra.
    + exists q. split; [exact Eq|]. split; [|split].
      * right. split; nra.
      * nra.
      * nra.
Qed.

Lemma div_map (T Sx : Q) (l : list Q) :
  0 < T -> T <= 2 * Sx -> Sx <= 2 * T -> Sx <= inject_Z F64.max_rows * F64.value_hi ->
  (forall v, In v l -> v <= Sx /\ F64.ranged F64.value_lo F64.value_hi v) ->
  exists qs,
    map (fun v => F64.div (Fin v) (Fin T)) l = map Fin qs
    /\ List.length qs = List.length l
    /\ (forall q, In q qs -> F64.ranged F64.quotient_lo F64.quotient_hi q)
    /\ (1 - F64.u) * Qsum l <= Qsum qs * T
    /\ Qsum qs * T <= (1 + F64.u) * Qsum l.
Proof.
  intros HT HT2 HS2 HSN. induction l as [|v l IH]; intros Hl.
  - exists []. simpl. repeat split; try lra. contradiction.
  - destruct IH as [qs [E [Hlen [Hr [L U]]]]].
    { intros w Hw. apply Hl. right. exact Hw. }
    destruct (Hl v (or_introl eq_refl)) as [HvS Hv].
    destruct (div_step HT HT2 HS2 HSN HvS Hv) as [q [Eq [Rq [Q1 Q2]]]].
    exists (q :: qs). cbn [map List.length Qsum]. rewrite Eq, E, Hlen.
    split; [reflexivity|]. split; [reflexivity|]. split; [|split].
    + intros q' [<-|Hq']; [exact Rq|apply Hr; exact Hq'].
    + lra.
    + lra.
Qed.

(** The arithmetic of the tolerance: a total within [e] of the exact sum,
    quotients within [w] of the exact ones and a final sum within [e] of
    theirs give a result within [d] of 1. *)
Lemma tolerance_arith (e w d s Q Sx T : Q) :
  0 < T -> 0 < Sx -> 0 <= e -> e <= 1 # 2 -> 0 <= w -> w <= 1 # 2 ->
  (1 - e) * Sx <= T -> T <= (1 + e) * Sx ->
  (1 - w) * Sx <= Q * T -> Q * T <= (1 + w) * Sx ->
  (1 - e) * Q <= s -> s <= (1 + e) * Q ->
  (1 - d) * (1 + e) <= (1 - e) * (1 - w) ->
  (1 + e) * (1 + w) <= (1 + d) * (1 - e) ->
  1 - d <= s /\ s <= 1 + d.
Proof.
  intros HT HS He He1 Hw Hw1 TL TU QL QU SL SU D1 D2.
  assert (A1 : 0 <= (s - (1 - e) * Q) * T).
  { apply Qmult_le_0_compat; lra. }
  assert (A2 : 0 <= (1 - e) * (Q * T - (1 - w) * Sx)).
  { apply Qmult_le_0_compat; lra. }
  assert (A3 : 0 <= ((1 - e) * (1 - w) - (1 - d) * (1 + e)) * Sx).
  { apply Qmult_le_0_compat; lra. }
  assert (A4 : 0 <= (1 - d) * ((1 + e) * Sx - T) \/ 1 - d <= 0).
  { destruct (Qlt_le_dec 0 (1 - d)) as [H|H]; [left|right; exact H].
    apply Qmult_le_0_compat; lra. }
  assert (B1 : 0 <= ((1 + e) * Q - s) * T).
  { apply Qmult_le_0_compat; lra. }
  assert (B2 : 0 <= (1 + e) * ((1 + w) * Sx - Q * T)).
  { apply Qmult_le_0_compat; lra. }
  assert (B3 : 0 <= ((1 + d) * (1 - e) - (1 + e) * (1 + w)) * Sx).
  { apply Qmult_le_0_compat; lra. }
  assert (Hd : 0 <= 1 + d).
  { apply Qnot_lt_le. intros Hneg.
    assert (0 < (1 + e) * (1 + w)) by (apply Qmult_lt_0_compat; lra).
    assert (0 <= (- (1 + d)) * (1 - e)) by (apply Qmult_le_0_compat; lra).
    lra. }
  assert (B4 : 0 <= (1 + d) * (T - (1 - e) * Sx)).
  { apply Qmult_le_0_compat; lra. }
  assert (Hs : 0 <= (1 - e) * ((1 - w) * Sx)).
  { apply Qmult_le_0_compat; [lra|]. apply Qmult_le_0_compat; lra. }
  split.
  - destruct A4 as [A4|A4].
    + assert (L : (1 - d) * T <= s * T) by lra.
      apply Qnot_lt_le. intros Hlt.
      assert (0 < (1 - d - s) * T) by (apply Qmult_lt_0_compat; lra).
      lra.
    + apply Qnot_lt_le. intros Hlt.
      assert (0 < (- s) * T) by (apply Qmult_lt_0_compat; lra).
      lra.
  - assert (U : s * T <= (1 + d) * T) by lra.
    apply Qnot_lt_le. intros Hlt.
    assert (0 < (s - (1 + d)) * T) by (apply Qmult_lt_0_compat; lra).
    lra.
Qed.

(** Float64 proportions of non-negative values in range are within 1e-9
    of 1, whatever accurate routines add the totals and the proportions. *)
Lemma proportions_near_one (group_sum column_sum : list float -> float)
      (vs : list Q) :
  F64.accurate group_sum -> F64.accurate column_sum ->
  (Z.of_nat (List.length vs) <= F64.max_rows)%Z ->
  (forall v, In v vs -> F64.ranged F64.value_lo F64.value_hi v) ->
  ~ feq (group_sum (map Fin vs)) (Fin 0) ->
  exists s,
    column_sum (map (fun v => F64.div (Fin v) (group_sum (map Fin vs))) vs)
    = Fin s
    /\ Qabs (s - 1) <= 1 / 1000000000.
Proof.
  intros Hacc Hacc' Hn Hvs Hnz.
  assert (Hlo : 0 < F64.value_lo) by reflexivity.
  assert (Hlh : F64.value_lo <= F64.value_hi) by (vm_compute; discriminate).
  assert (G1 : 2 ^ (-900) <= F64.value_lo) by (vm_compute; discriminate).
  assert (G2 : F64.value_hi <= 2 ^ 900) by (vm_compute; discriminate).
  assert (G3 : 2 ^ (-900) <= F64.quotient_lo) by (vm_compute; discriminate).
  assert (G4 : F64.quotient_hi <= 2 ^ 900) by (vm_compute; discriminate).
  destruct (Hacc vs Hn) as [T [ET [TL TU]]].
  { intros x Hx. apply ranged_weaken with (3 := Hvs x Hx); assumption. }
  destruct (@Qsum_ranged F64.value_lo F64.value_hi vs Hlo Hlh Hvs)
    as [S0 [Shi Smem]].
  rewrite ET in Hnz |- *. cbn [feq] in Hnz.
  assert (C1 : 0 <= F64.eps) by (vm_compute; discriminate).
  assert (C2 : F64.eps <= 1 # 2) by (vm_compute; discriminate).
  assert (C3 : 0 <= F64.u) by (vm_compute; discriminate).
  assert (C4 : F64.u <= 1 # 2) by (vm_compute; discriminate).
  assert (C5 : (1 - (1 / 1000000000)) * (1 + F64.eps)
               <= (1 - F64.eps) * (1 - F64.u))
    by (vm_compute; discriminate).
  assert (C6 : (1 + F64.eps) * (1 + F64.u)
               <= (1 + (1 / 1000000000)) * (1 - F64.eps))
    by (vm_compute; discriminate).
  assert (C7 : 0 < F64.value_hi) by reflexivity.
  set (Sx := Qsum vs) in *.
  assert (HSpos : 0 < Sx).
  { destruct S0 as [S0|S0]; [|lra]. exfalso. apply Hnz.
    rewrite S0 in TL, TU. rewrite Qmult_0_r in TL, TU. lra. }
  assert (HT : 0 < T) by nra.
  assert (HT2 : T <= 2 * Sx) by nra.
  assert (HS2 : Sx <= 2 * T) by nra.
  assert (HSN : Sx <= inject_Z F64.max_rows * F64.value_hi).
  { apply Qle_trans with (1 := Shi).
    apply Qmult_le_compat_r; [apply max_rows_Q; exact Hn|lra]. }
  destruct (@div_map T Sx vs HT HT2 HS2 HSN)
    as [qs [Eqs [Hlen [Hr [QL QU]]]]].
  { intros v Hv. split; [apply Smem; exact Hv|apply Hvs; exact Hv]. }
  rewrite Eqs.
  destruct (Hacc' qs) as [s [Es [SL SU]]].
  { rewrite Hlen. exact Hn. }
  { intros x Hx. apply ranged_weaken with (3 := Hr x Hx); assumption. }
  exists s. split; [exact Es|].
  destruct (@tolerance_arith F64.eps F64.u (1 / 1000000000) s (Qsum qs) Sx T)
    as [R1 R2]; try assumption.
  apply Qabs_Qle_condition. split; lra.
Qed.

(* ================================================================== *)
(** * Proportions                                                      *)
(* ================================================================== *)

(** The per-area totals are the partition totals, one row per area. *)
Lemma total_by_partition (g : list ((string * string) * Q)) :
  NutrientDashboard.total g
  = map (fun a => (a, NutrientDashboard.partition_total a g))
        (group_keys (fun r : (string * string) * Q => fst (fst r)) g).
Proof.
  unfold NutrientDashboard.total. rewrite agg_sum_groupby. reflexivity.
Qed.

(** After the merge every aggregated row carries the total of its area. *)
Lemma proportion_rows (g : list ((string * string) * Q)) :
  NutrientDashboard.proportion g
  = map (fun l =>
           let t := NutrientDashboard.partition_total (fst (fst l)) g in
           {| NutrientDashboard.p_Reference_area := fst (fst l);
              NutrientDashboard.p_Measure := snd (fst l);
              NutrientDashboard.p_OBS_VALUE := snd l;
              NutrientDashboard.Total := t;
              NutrientDashboard.Proportion := fdiv (Fin (snd l)) (Fin t) |})
        g.
Proof.
  unfold NutrientDashboard.proportion, merge.
  apply flat_map_singleton. intros l Hl.
  rewrite total_by_partition.
  rewrite (filter_label (fun a => NutrientDashboard.partition_total a g)).
  - reflexivity.
  - apply group_keys_NoDup.
  - apply group_keys_In.
    apply (in_map (fun r : (string * string) * Q => fst (fst r))). exact Hl.
Qed.

(** The float64 totals are the float64 partition totals, one row per
    area. *)
Lemma total64_by_partition (summation : list float -> float)
      (g : list ((string * string) * Q)) :
  NutrientDashboard.total64 summation g
  = map (fun a => (a, NutrientDashboard.partition_total64 summation a g))
        (group_keys (fun r : (string * string) * Q => fst (fst r)) g).
Proof.
  unfold NutrientDashboard.total64, groupby. rewrite map_map. reflexivity.
Qed.

Lemma proportion64_rows (summation : list float -> float)
      (g : list ((string * string) * Q)) :
  NutrientDashboard.proportion64 summation g
  = map (fun l =>
           let t :=
             NutrientDashboard.partition_total64 summation (fst (fst l)) g in
           {| NutrientDashboard.r_Reference_area := fst (fst l);
              NutrientDashboard.r_Measure := snd (fst l);
              NutrientDashboard.r_OBS_VALUE := snd l;
              NutrientDashboard.r_Total := t;
              NutrientDashboard.r_Proportion := F64.div (Fin (snd l)) t |})
        g.
Proof.
  unfold NutrientDashboard.proportion64, merge.
  apply flat_map_singleton. intros l Hl.
  rewrite total64_by_partition.
  rewrite (filter_label
             (fun a => NutrientDashboard.partition_total64 summation a g)).
  - reflexivity.
  - apply group_keys_NoDup.
  - apply group_keys_In.
    apply (in_map (fun r : (string * string) * Q => fst (fst r))). exact Hl.
Qed.

Lemma proportions64_of_rows (tot : string -> float) (a : string)
      (l : list ((string * string) * Q)) :
  map NutrientDashboard.r_Proportion
      (filter (fun r => keqb (NutrientDashboard.r_Reference_area r) a)
         (map (fun l =>
                 {| NutrientDashboard.r_Reference_area := fst (fst l);
                    NutrientDashboard.r_Measure := snd (fst l);
                    NutrientDashboard.r_OBS_VALUE := snd l;
                    NutrientDashboard.r_Total := tot (fst (fst l));
                    NutrientDashboard.r_Proportion :=
                      F64.div (Fin (snd l)) (tot (fst (fst l))) |}) l))
  = map (fun l => F64.div (Fin (snd l)) (tot a))
        (filter (fun r => keqb (fst (fst r)) a) l).
Proof.
  induction l as [|r l IH]; [reflexivity|].
  cbn [map filter NutrientDashboard.r_Reference_area].
  destruct (keqb (fst (fst r)) a) eqn:E.
  - cbn [map NutrientDashboard.r_Proportion]. rewrite IH.
    apply (keqb_eq (K := string)) in E. rewrite E. reflexivity.
  - exact IH.
Qed.

(** The float64 proportions of an area are the values of its partition,
    each divided by the float64 total of the partition. *)
Lemma proportions64_of_partition (summation : list float -> float)
      (a : string) (g : list ((string * string) * Q)) :
  NutrientDashboard.proportions64_of a
    (NutrientDashboard.proportion64 summation g)
  = map (fun v =>
           F64.div (Fin v)
                   (summation
                      (map Fin (map snd (NutrientDashboard.partition a g)))))
        (map snd (NutrientDashboard.partition a g)).
Proof.
  unfold NutrientDashboard.proportions64_of. rewrite proportion64_rows.
  rewrite (proportions64_of_rows
             (fun b => NutrientDashboard.partition_total64 summation b g)).
  unfold NutrientDashboard.partition_total64, NutrientDashboard.partition.
  rewrite !map_map. reflexivity.
Qed.

(** C1 (as the code has it).  In every aggregated table, for every area
    whose partition is not empty, has at most 100000 rows, holds only
    values that are 0 or between [2^-400] and [2^400] (so none is
    negative), and has a non-zero float64 total: the float64 proportions
    of the partition (each value divided by the total, rounded) add up to
    a number within 1e-9 of 1.0.  This holds for every summation routine
    that is accurate in the sense of [F64.accurate], both for the totals
    and for adding the proportions; summation in row order and
    compensated summation are such routines. *)
Theorem proportions_sum_within_tolerance :
  forall (group_sum column_sum : list float -> float)
         (g : list ((string * string) * Q)) (a : string),
    F64.accurate group_sum -> F64.accurate column_sum ->
    NutrientDashboard.partition a g <> [] ->
    (Z.of_nat (List.length (NutrientDashboard.partition a g)) <= 100000)%Z ->
    (forall r, In r (NutrientDashboard.partition a g) ->
               snd r == 0 \/ (2 ^ (-400) <= snd r /\ snd r <= 2 ^ 400)) ->
    ~ feq (NutrientDashboard.partition_total64 group_sum a g) (Fin 0) ->
    exists s,
      column_sum (NutrientDashboard.proportions64_of a
                    (NutrientDashboard.proportion64 group_sum g))
      = Fin s
      /\ Qabs (s - 1) <= 1 / 1000000000.
Proof.
  intros group_sum column_sum g a Hg Hc _ Hn Hr Hnz.
  rewrite proportions64_of_partition.
  unfold NutrientDashboard.partition_total64 in Hnz.
  rewrite <- (map_map snd Fin) in Hnz.
  apply proportions_near_one; try assumption.
  - rewrite length_map. exact Hn.
  - intros v Hv. apply in_map_iff in Hv. destruct Hv as [r [<- Hin]].
    exact (Hr r Hin).
Qed.

(** Area A of the table [sixths], the totals by compensated summation
    and the proportions added in row order: 1/6 + 4/6 + 1/6 is the double
    just below 1. *)
Lemma proportions_sum_within_tolerance_witness :
  F64.sum (NutrientDashboard.proportions64_of "A"
             (NutrientDashboard.proportion64 F64.kahan_sum Examples.sixths))
  = Fin (9007199254740991 # 9007199254740992)
  /\ exists s,
       F64.sum (NutrientDashboard.proportions64_of "A"
                  (NutrientDashboard.proportion64 F64.kahan_sum
                     Examples.sixths))
       = Fin s
       /\ Qabs (s - 1) <= 1 / 1000000000.
Proof.
  split; [vm_compute; reflexivity|].
  apply (@proportions_sum_within_tolerance F64.kahan_sum F64.sum
           Examples.sixths "A"%string
           kahan_sum_accurate row_order_sum_accurate).
  - vm_compute. discriminate.
  - vm_compute. discriminate.
  - intros r Hr. cbn in Hr.
    destruct Hr as [<-|[<-|[<-|[]]]]; right; split; vm_compute; discriminate.
  - vm_compute. discriminate.
Defined.

(** C1, as stated, fails: the area A of [cancelling] has the values
    [3 * 2^50 + 1] and [-(3 * 2^50 - 2)], both doubles; its total is
    exactly 3, the two quotients are rounded to [2^50 + 1/4] and
    [-(2^50 - 5/8)], and their sum is 0.875, whether the sums are added
    in row order or compensated. *)
Lemma cancellation_breaks_the_tolerance :
  NutrientDashboard.partition "A" Examples.cancelling <> []
  /\ NutrientDashboard.partition_total64 F64.sum "A" Examples.cancelling
     = Fin 3
  /\ NutrientDashboard.proportions64_of "A"
       (NutrientDashboard.proportion64 F64.sum Examples.cancelling)
     = [Fin (4503599627370497 # 4); Fin (-9007199254740987 # 8)]
  /\ F64.sum (NutrientDashboard.proportions64_of "A"
                (NutrientDashboard.proportion64 F64.sum Examples.cancelling))
     = Fin (7 # 8)
  /\ NutrientDashboard.partition_total64 F64.kahan_sum "A"
       Examples.cancelling
     = Fin 3
  /\ F64.kahan_sum (NutrientDashboard.proportions64_of "A"
                      (NutrientDashboard.proportion64 F64.kahan_sum
                         Examples.cancelling))
     = Fin (7 # 8)
  /\ ~ Qabs ((7 # 8) - 1) <= 1 / 1000000000.
Proof.
  split; [discriminate|]. split; [vm_compute; reflexivity|].
  split; [vm_compute; reflexivity|]. split; [vm_compute; reflexivity|].
  split; [vm_compute; reflexivity|]. split; [vm_compute; reflexivity|].
  vm_compute. intros H. apply H. reflexivity.
Qed.

(** Every row of the proportion table is an aggregated row with the total
    of its area and the quotient of the two. *)
Lemma proportion_row_inv (g : list ((string * string) * Q))
      (r : NutrientDashboard.proportion_row) :
  In r (NutrientDashboard.proportion g) ->
  In ((NutrientDashboard.p_Reference_area r, NutrientDashboard.p_Measure r),
      NutrientDashboard.p_OBS_VALUE r) g
  /\ NutrientDashboard.Total r
     = NutrientDashboard.partition_total (NutrientDashboard.p_Reference_area r) g
  /\ NutrientDashboard.Proportion r
     = fdiv (Fin (NutrientDashboard.p_OBS_VALUE r))
            (Fin (NutrientDashboard.Total r)).
Proof.
  rewrite proportion_rows. intros Hin. apply in_map_iff in Hin.
  destruct Hin as [[[a m] v] [<- Hl]]. simpl. auto.
Qed.

(** Division of finite numbers by a zero divisor. *)
Lemma fdiv_by_zero (v t : Q) :
  t == 0 -> fdiv (Fin v) (Fin t) = inf_of_sign (Qsign v).
Proof.
  intros Ht. unfold fdiv. apply Qeq_bool_iff in Ht. rewrite Ht. reflexivity.
Qed.

Lemma fdiv_finite (v t : Q) :
  ~ t == 0 -> fdiv (Fin v) (Fin t) = Fin (v / t).
Proof.
  intros Ht. unfold fdiv. destruct (Qeq_bool t 0) eqn:E; [|reflexivity].
  apply Qeq_bool_iff in E. contradiction.
Qed.

Lemma inf_of_sign_cases (v : Q) :
  (v == 0 -> inf_of_sign (Qsign v) = NaN)
  /\ (0 < v -> inf_of_sign (Qsign v) = PInf)
  /\ (v < 0 -> inf_of_sign (Qsign v) = NInf).
Proof.
  unfold Qsign. repeat split; intros Hv.
  - rewrite (proj1 (Qeq_alt v 0) Hv). reflexivity.
  - rewrite (proj1 (Qgt_alt v 0) Hv). reflexivity.
  - rewrite (proj1 (Qlt_alt v 0) Hv). reflexivity.
Qed.

Lemma fmul_inf_of_sign_100 (c : comparison) :
  fmul (inf_of_sign c) (Fin 100) = inf_of_sign c.
Proof. destruct c; reflexivity. Qed.

(** C2 (as the code has it).  When the total of a partition is 0 the
    proportion of each of its rows is the float quotient by zero: NaN for a
    value of 0, +inf for a positive value, -inf for a negative one; the same
    quotients, times 100, are the percentages of [draw_proportion_bar] when
    its two values add up to 0.  No marker value is produced. *)
Theorem zero_total_proportion :
  forall (g : list ((string * string) * Q))
         (r : NutrientDashboard.proportion_row) (value1 value2 : Q),
    In r (NutrientDashboard.proportion g) ->
    NutrientDashboard.Total r == 0 ->
    value1 + value2 == 0 ->
    NutrientDashboard.Total r
    = NutrientDashboard.partition_total (NutrientDashboard.p_Reference_area r) g
    /\ (NutrientDashboard.p_OBS_VALUE r == 0 ->
        NutrientDashboard.Proportion r = NaN)
    /\ (0 < NutrientDashboard.p_OBS_VALUE r ->
        NutrientDashboard.Proportion r = PInf)
    /\ (NutrientDashboard.p_OBS_VALUE r < 0 ->
        NutrientDashboard.Proportion r = NInf)
    /\ NutrientDashboard.draw_proportion_bar value1 value2
       = (inf_of_sign (Qsign value1), inf_of_sign (Qsign value2)).
Proof.
  intros g r value1 value2 Hin Ht Hv.
  destruct (proportion_row_inv g r Hin) as [_ [Etot Eprop]].
  split; [exact Etot|].
  rewrite Eprop, (fdiv_by_zero _ Ht).
  destruct (inf_of_sign_cases (NutrientDashboard.p_OBS_VALUE r))
    as [H0 [Hpos Hneg]].
  repeat split; try assumption.
  unfold NutrientDashboard.draw_proportion_bar.
  rewrite !(fdiv_by_zero _ Hv), !fmul_inf_of_sign_100. reflexivity.
Qed.

(** Entity B of the scenario: its only value is 0, and so is its total. *)
Lemma zero_total_proportion_witness :
  In Examples.scenario_B
     (NutrientDashboard.render_hori_stacked_plot Examples.scenario)
  /\ NutrientDashboard.Total Examples.scenario_B == 0
  /\ NutrientDashboard.p_OBS_VALUE Examples.scenario_B == 0
  /\ NutrientDashboard.Proportion Examples.scenario_B = NaN.
Proof.
  assert (Hin : In Examples.scenario_B
                   (NutrientDashboard.proportion
                      (NutrientDashboard.grouped Examples.scenario))).
  { vm_compute. right. right. left. reflexivity. }
  assert (Ht : NutrientDashboard.Total Examples.scenario_B == 0)
    by reflexivity.
  assert (Hv : NutrientDashboard.p_OBS_VALUE Examples.scenario_B == 0)
    by reflexivity.
  split; [exact Hin|]. split; [exact Ht|]. split; [exact Hv|].
  assert (Hz : 0 + 0 == 0) by reflexivity.
  destruct (@zero_total_proportion
              (NutrientDashboard.grouped Examples.scenario)
              Examples.scenario_B 0 0 Hin Ht Hz) as [_ [Hnan _]].
  apply Hnan. exact Hv.
Defined.

(** C2, as stated, fails: in the spec's scenario entity B has total 0 and
    its proportion is a plain NaN (and A has 10/40 and 30/40); with both
    sums 0 [draw_proportion_bar] writes NaN percentages. *)
Lemma zero_total_emits_nan :
  NutrientDashboard.proportions_of "B"
    (NutrientDashboard.render_hori_stacked_plot Examples.scenario) = [NaN]
  /\ NutrientDashboard.proportions_of "A"
       (NutrientDashboard.render_hori_stacked_plot Examples.scenario)
     = [Fin (10 # 40); Fin (30 # 40)]
  /\ NutrientDashboard.draw_proportion_bar 0 0 = (NaN, NaN).
Proof. repeat split. Qed.

(* ================================================================== *)
(** * Percent change                                                   *)
(* ================================================================== *)

(** C3 (as the code has it).  For a series of at least two points whose
    first value is not 0, [percent_change] is (last - first) / first * 100
    (50 for [2015:100, 2020:150]).  For a shorter series it is 0.  For a
    series of at least two points whose first value is 0 it is the float
    quotient by zero: +inf, -inf or NaN as the last value is positive,
    negative or 0. *)
Theorem percent_change_cases :
  forall annual : list (Z * Q),
    ((2 <= List.length annual)%nat ->
     ~ GreenhouseGas.iloc_first annual == 0 ->
     GreenhouseGas.percent_change annual
     = Fin ((GreenhouseGas.iloc_last annual - GreenhouseGas.iloc_first annual)
            / GreenhouseGas.iloc_first annual * 100))
    /\ ((List.length annual < 2)%nat ->
        GreenhouseGas.percent_change annual = Fin 0)
    /\ ((2 <= List.length annual)%nat ->
        GreenhouseGas.iloc_first annual == 0 ->
        (0 < GreenhouseGas.iloc_last annual ->
         GreenhouseGas.percent_change annual = PInf)
        /\ (GreenhouseGas.iloc_last annual < 0 ->
            GreenhouseGas.percent_change annual = NInf)
        /\ (GreenhouseGas.iloc_last annual == 0 ->
            GreenhouseGas.percent_change annual = NaN))
    /\ feq (GreenhouseGas.percent_change [(2015%Z, 100); (2020%Z, 150)])
           (Fin 50).
Proof.
  intros annual. unfold GreenhouseGas.percent_change.
  split; [|split; [|split]].
  - intros Hlen Hf. apply Nat.leb_le in Hlen. rewrite Hlen.
    unfold fsub, fopp, fadd. rewrite (fdiv_finite _ Hf). reflexivity.
  - intros Hlen. apply Nat.leb_gt in Hlen. rewrite Hlen. reflexivity.
  - intros Hlen Hf. apply Nat.leb_le in Hlen. rewrite Hlen.
    unfold fsub, fopp, fadd. rewrite (fdiv_by_zero _ Hf).
    rewrite fmul_inf_of_sign_100.
    assert (Hdiff : GreenhouseGas.iloc_last annual
                    + - GreenhouseGas.iloc_first annual
                    == GreenhouseGas.iloc_last annual)
      by (rewrite Hf; ring).
    unfold Qsign. rewrite Hdiff.
    destruct (inf_of_sign_cases (GreenhouseGas.iloc_last annual))
      as [H0 [Hpos Hneg]].
    repeat split; assumption.
  - vm_compute. reflexivity.
Qed.

(** The two series of the spec's scenario and a one-point series. *)
Lemma percent_change_cases_witness :
  GreenhouseGas.percent_change [(2015%Z, 100); (2020%Z, 150)]
  = Fin ((150 - 100) / 100 * 100)
  /\ GreenhouseGas.percent_change [(2015%Z, 100)] = Fin 0
  /\ GreenhouseGas.percent_change [(2015%Z, 0); (2020%Z, 150)] = PInf.
Proof.
  split; [|split].
  - apply (percent_change_cases [(2015%Z, 100); (2020%Z, 150)]).
    + simpl. lia.
    + vm_compute. discriminate.
  - apply (percent_change_cases [(2015%Z, 100)]). simpl. lia.
  - apply (percent_change_cases [(2015%Z, 0); (2020%Z, 150)]).
    + simpl. lia.
    + reflexivity.
    + reflexivity.
Defined.

(** C3, as stated, fails: a first value of 0 gives +inf, and a series of
    one point gives the ordinary number 0. *)
Lemma percent_change_not_marked :
  GreenhouseGas.percent_change [(2015%Z, 0); (2020%Z, 150)] = PInf
  /\ GreenhouseGas.percent_change [(2015%Z, 100)] = Fin 0
  /\ option_map GreenhouseGas.pct_change
       (GreenhouseGas.kpi_and_line_tab
          [Examples.ghg "CO2" "A" 2015 (Some 0);
           Examples.ghg "CO2" "A" 2020 (Some 150)]) = Some PInf.
Proof. repeat split. Qed.

(* ================================================================== *)
(** * Sum and mean                                                     *)
(* ================================================================== *)

Lemma nansum_present (col : list (option Q)) :
  nansum col = Qsum (present col).
Proof.
  induction col as [|[q|] col IH]; simpl; [reflexivity| |exact IH].
  rewrite IH. reflexivity.
Qed.

Lemma count_present (col : list (option Q)) :
  count col = List.length (present col).
Proof.
  induction col as [|[q|] col IH]; simpl; [reflexivity| |exact IH].
  rewrite IH. reflexivity.
Qed.

Lemma present_all_missing {R : Type} (col : R -> option Q) (l : list R) :
  (forall r, In r l -> col r = None) -> present (map col l) = [].
Proof.
  induction l as [|a l IH]; simpl; intros Hm; [reflexivity|].
  rewrite (Hm a (or_introl eq_refl)). apply IH.
  intros r Hr. apply Hm. right. exact Hr.
Qed.

Lemma nanmean_present (col : list (option Q)) :
  (present col = [] -> nanmean col = NaN)
  /\ (present col <> [] ->
      nanmean col
      = Fin (Qsum (present col)
             / inject_Z (Z.of_nat (List.length (present col))))).
Proof.
  unfold nanmean. rewrite count_present, nansum_present.
  destruct (present col) as [|q l]; simpl; split; congruence.
Qed.

(** Rows of an aggregated table are (label, reduction of the label's
    rows), for the labels that occur. *)
Lemma agg_sum_In {R K : Type} `{KeyEq K} (by_ : R -> K) (col : R -> option Q)
      (df : list R) (k : K) (v : Q) :
  In (k, v) (agg_sum col (groupby by_ df)) <->
  In k (map by_ df)
  /\ v = nansum (map col (filter (fun r => keqb (by_ r) k) df)).
Proof.
  rewrite agg_sum_groupby, in_map_iff. split.
  - intros [k' [E Hk]]. inversion E; subst.
    apply group_keys_In in Hk. auto.
  - intros [Hk ->]. exists k. split; [reflexivity|].
    apply group_keys_In. exact Hk.
Qed.

Lemma agg_mean_In {R K : Type} `{KeyEq K} (by_ : R -> K) (col : R -> option Q)
      (df : list R) (k : K) (m : float) :
  In (k, m) (agg_mean col (groupby by_ df)) <->
  In k (map by_ df)
  /\ m = nanmean (map col (filter (fun r => keqb (by_ r) k) df)).
Proof.
  rewrite agg_mean_groupby, in_map_iff. split.
  - intros [k' [E Hk]]. inversion E; subst.
    apply group_keys_In in Hk. auto.
  - intros [Hk ->]. exists k. split; [reflexivity|].
    apply group_keys_In. exact Hk.
Qed.

(** A label that occurs has a row carrying it. *)
Lemma group_nonempty {R K : Type} `{KeyEq K} (by_ : R -> K) (df : list R)
      (k : K) :
  In k (map by_ df) -> filter (fun r => keqb (by_ r) k) df <> [].
Proof.
  intros Hk E. apply in_map_iff in Hk. destruct Hk as [r [Er Hr]].
  assert (Hin : In r (filter (fun r => keqb (by_ r) k) df)).
  { apply filter_In. split; [exact Hr|]. apply keqb_eq. exact Er. }
  rewrite E in Hin. contradiction.
Qed.

(** C5.  The SUM aggregation of the erosion time series: every group that
    occurs among the total rows has one value, the sum of the values of
    its rows that are present (missing values are left out of the sum,
    which stays a number); a group whose values are all missing, like an
    empty column, sums to 0; an empty view aggregates to the empty table,
    with no error, and is charted as the empty figure. *)
Theorem sum_ignores_missing :
  forall (df : list ErosionCharts.row),
    (forall k v,
        In (k, v) (ErosionCharts.total_data df) <->
        ErosionCharts.time_series_group k df <> []
        /\ v = Qsum (present (map ErosionCharts.OBS_VALUE
                                  (ErosionCharts.time_series_group k df))))
    /\ (forall k v,
           In (k, v) (ErosionCharts.total_data df) ->
           (forall r, In r (ErosionCharts.time_series_group k df) ->
                      ErosionCharts.OBS_VALUE r = None) ->
           v = 0)
    /\ (forall col, present col = [] -> nansum col = 0)
    /\ NoDup (map fst (ErosionCharts.total_data df))
    /\ ErosionCharts.total_data [] = []
    /\ ErosionCharts.create_time_series_chart [] = EmptyFigure
    /\ (ErosionCharts.totals_only df = [] -> ErosionCharts.total_data df = []).
Proof.
  intros df.
  assert (Hchar : forall k v,
             In (k, v) (ErosionCharts.total_data df) <->
             ErosionCharts.time_series_group k df <> []
             /\ v = Qsum (present (map ErosionCharts.OBS_VALUE
                                       (ErosionCharts.time_series_group k df)))).
  { intros k v. unfold ErosionCharts.total_data. rewrite agg_sum_In.
    rewrite nansum_present. unfold ErosionCharts.time_series_group.
    split; intros [Hk Hv]; (split; [|exact Hv]).
    - apply (group_nonempty _ _ _ Hk).
    - destruct (filter _ (ErosionCharts.totals_only df)) as [|r l] eqn:E;
        [congruence|].
      assert (Hr : In r (r :: l)) by (left; reflexivity).
      rewrite <- E in Hr. apply filter_In in Hr. destruct Hr as [Hr Ek].
      apply keqb_eq in Ek. rewrite <- Ek.
      apply (in_map (fun r => (ErosionCharts.Country r, ErosionCharts.Time r,
                               ErosionCharts.Types_of_Erosion r))).
      exact Hr. }
  split; [exact Hchar|].
  split.
  { intros k v Hin Hmiss. apply Hchar in Hin. destruct Hin as [_ ->].
    rewrite (present_all_missing _ _ Hmiss). reflexivity. }
  split.
  { intros col Hp. rewrite nansum_present, Hp. reflexivity. }
  split.
  { unfold ErosionCharts.total_data. rewrite agg_sum_keys.
    apply group_keys_NoDup. }
  split; [reflexivity|].
  split; [reflexivity|].
  intros E. unfold ErosionCharts.total_data. rewrite E. reflexivity.
Qed.

(** The erosion example: the group (A, 2010, Water) has only a missing
    value and sums to 0. *)
Lemma sum_ignores_missing_witness :
  In (("A"%string, 2010%Z, "Water"%string), 0)
     (ErosionCharts.total_data Examples.erosion_years)
  /\ ErosionCharts.total_data
       (ErosionCharts.filter_data Examples.erosion_years ["C"%string]
          None [] []) = [].
Proof.
  split.
  - apply (sum_ignores_missing Examples.erosion_years). split.
    + vm_compute. discriminate.
    + reflexivity.
  - apply (sum_ignores_missing
             (ErosionCharts.filter_data Examples.erosion_years ["C"%string]
                None [] [])).
    reflexivity.
Defined.

(** C6 (as the code has it).  The MEAN aggregation of the erosion
    comparison: every group that occurs has one value; when some of its
    values are present it is their sum divided by their number (missing
    values are ignored), when none is present it is NaN.  The "Average
    Total Erosion" metric is computed the same way over the total rows of a
    non-empty view and is the number 0 for an empty view; the comparison of
    an empty view is the empty figure. *)
Theorem mean_ignores_missing :
  forall (df : list ErosionCharts.row),
    (forall k m,
        In (k, m) (ErosionCharts.comparison_data df) ->
        let vals := present (map ErosionCharts.OBS_VALUE
                                 (ErosionCharts.comparison_group k df)) in
        ErosionCharts.comparison_group k df <> []
        /\ (vals <> [] ->
            m = Fin (Qsum vals / inject_Z (Z.of_nat (List.length vals))))
        /\ (vals = [] -> m = NaN))
    /\ (forall k, ErosionCharts.comparison_group k df <> [] ->
                  exists m, In (k, m) (ErosionCharts.comparison_data df))
    /\ ErosionCharts.avg_erosion [] = Fin 0
    /\ (df <> [] ->
        let vals := present (map ErosionCharts.OBS_VALUE
                                 (ErosionCharts.totals_only df)) in
        (vals <> [] ->
         ErosionCharts.avg_erosion df
         = Fin (Qsum vals / inject_Z (Z.of_nat (List.length vals))))
        /\ (vals = [] -> ErosionCharts.avg_erosion df = NaN))
    /\ ErosionCharts.create_erosion_comparison_chart [] = EmptyFigure.
Proof.
  intros df.
  split.
  { intros k m Hin vals. unfold ErosionCharts.comparison_data in Hin.
    apply agg_mean_In in Hin. destruct Hin as [Hk ->].
    split; [apply (group_nonempty _ _ _ Hk)|].
    destruct (nanmean_present
                (map ErosionCharts.OBS_VALUE
                     (ErosionCharts.comparison_group k df))) as [Hnone Hsome].
    split; [exact Hsome | exact Hnone]. }
  split.
  { intros k Hne.
    exists (nanmean (map ErosionCharts.OBS_VALUE
                         (ErosionCharts.comparison_group k df))).
    unfold ErosionCharts.comparison_data. apply agg_mean_In.
    split; [|reflexivity].
    unfold ErosionCharts.comparison_group in Hne.
    destruct (filter _ (ErosionCharts.totals_only df)) as [|r l] eqn:E;
      [congruence|].
    assert (Hr : In r (r :: l)) by (left; reflexivity).
    rewrite <- E in Hr. apply filter_In in Hr. destruct Hr as [Hr Ek].
    apply keqb_eq in Ek. rewrite <- Ek.
    apply (in_map (fun r => (ErosionCharts.Country r,
                             ErosionCharts.Types_of_Erosion r))).
    exact Hr. }
  split; [reflexivity|].
  split; [|reflexivity].
  intros Hne vals. unfold ErosionCharts.avg_erosion.
  destruct df as [|r df]; [congruence|]. cbn [empty negb].
  destruct (nanmean_present
              (map ErosionCharts.OBS_VALUE
                   (ErosionCharts.totals_only (r :: df)))) as [Hnone Hsome].
  split; [exact Hsome | exact Hnone].
Qed.

(** The erosion example: a view whose only total has a missing value, and
    the whole example, whose present totals are 1 and 2. *)
Lemma mean_ignores_missing_witness :
  ErosionCharts.avg_erosion [Examples.erosion "A" 2010 "Water" "_T" None]
  = NaN
  /\ ErosionCharts.avg_erosion Examples.erosion_years
     = Fin (Qsum [1; 2] / inject_Z (Z.of_nat 2)).
Proof.
  split.
  - destruct (mean_ignores_missing
                [Examples.erosion "A" 2010 "Water" "_T" None])
      as [_ [_ [_ [H _]]]].
    assert (Hne : [Examples.erosion "A" 2010 "Water" "_T" None] <> [])
      by discriminate.
    destruct (H Hne) as [_ Hn]. apply Hn. reflexivity.
  - destruct (mean_ignores_missing Examples.erosion_years)
      as [_ [_ [_ [H _]]]].
    assert (Hne : Examples.erosion_years <> []) by discriminate.
    destruct (H Hne) as [Hs _]. apply Hs. discriminate.
Defined.

(** C6, as stated, fails: the mean of nothing is an ordinary float, 0 for
    the metric of an empty view and NaN for a group (or a view) without a
    present value; no error value is produced. *)
Lemma mean_of_nothing_is_a_number :
  ErosionCharts.avg_erosion [] = Fin 0
  /\ ErosionCharts.avg_erosion
       [Examples.erosion "B" 2020 "Wind" "LW" (Some 4)] = NaN
  /\ ErosionCharts.comparison_data
       [Examples.erosion "A" 2010 "Water" "_T" None]
     = [(("A"%string, "Water"%string), NaN)].
Proof. repeat split. Qed.

(* ================================================================== *)
(** * Ranking                                                          *)
(* ================================================================== *)

Lemma fleb_total (x y : float) : fleb x y = true \/ fleb y x = true.
Proof.
  destruct x as [a| | |], y as [b| | |]; simpl; auto.
  destruct (Qle_bool a b) eqn:E; [left; reflexivity|right].
  apply Qle_bool_iff. apply Qlt_le_weak. apply Qnot_le_lt.
  intros Hle. apply Qle_bool_iff in Hle. congruence.
Qed.

Lemma fleb_trans (x y z : float) :
  fleb x y = true -> fleb y z = true -> fleb x z = true.
Proof.
  destruct x as [a| | |], y as [b| | |], z as [c| | |]; simpl;
    try congruence; try reflexivity.
  rewrite !Qle_bool_iff. apply Qle_trans.
Qed.

Section SortedFacts.
Context {A : Type} (le : A -> A -> bool).
Hypothesis le_total : forall a b, le a b = true \/ le b a = true.
Hypothesis le_trans : forall a b c, le a b = true -> le b c = true -> le a c = true.

Lemma insert_sorted_sorted (x : A) (l : list A) :
  StronglySorted (fun a b => le a b = true) l ->
  StronglySorted (fun a b => le a b = true) (insert_sorted le x l).
Proof.
  induction 1 as [|h t Hs IH Hall]; simpl.
  - constructor; constructor.
  - destruct (le x h) eqn:E.
    + constructor; [constructor; assumption|].
      constructor; [exact E|].
      eapply Forall_impl; [|exact Hall]. intros b Hb.
      apply (le_trans E Hb).
    + constructor; [exact IH|].
      apply Forall_forall. intros b Hb.
      apply (Permutation_in _ (insert_sorted_perm le x t)) in Hb.
      destruct Hb as [<-|Hb].
      * destruct (le_total x h); congruence.
      * rewrite Forall_forall in Hall. apply Hall. exact Hb.
Qed.

Lemma sort_by_sorted (l : list A) :
  StronglySorted (fun a b => le a b = true) (sort_by le l).
Proof.
  induction l as [|a l IH]; simpl; [constructor|].
  apply insert_sorted_sorted. exact IH.
Qed.

End SortedFacts.

Lemma StronglySorted_app_inv {A : Type} (R : A -> A -> Prop) (l1 l2 : list A) :
  StronglySorted R (l1 ++ l2) ->
  StronglySorted R l1 /\ StronglySorted R l2
  /\ (forall a b, In a l1 -> In b l2 -> R a b).
Proof.
  induction l1 as [|x l1 IH]; simpl; intros Hs.
  - split; [constructor|]. split; [exact Hs|]. intros a b [].
  - inversion Hs as [|? ? Hs' Hall]; subst.
    destruct (IH Hs') as [H1 [H2 H12]].
    rewrite Forall_app in Hall. destruct Hall as [Ha1 Ha2].
    split; [constructor; assumption|]. split; [exact H2|].
    intros a b [<-|Ha] Hb.
    + rewrite Forall_forall in Ha2. apply Ha2. exact Hb.
    + apply H12; assumption.
Qed.

Lemma tail_split {A : Type} (n : nat) (l : list A) :
  firstn (List.length l - n) l ++ tail n l = l.
Proof. unfold tail. apply firstn_skipn. Qed.

Lemma tail_length {A : Type} (n : nat) (l : list A) :
  List.length (tail n l) = Nat.min n (List.length l).
Proof. unfold tail. rewrite length_skipn. lia. Qed.

(** The last [n] rows of an ascending sort: how many they are, their
    order, and that they are the rows with the largest values. *)
Lemma largest_rows {R : Type} (col : R -> float) (n : nat) (df : list R) :
  List.length (tail n (sort_values col df)) = Nat.min n (List.length df)
  /\ StronglySorted (fun a b => fleb (col a) (col b) = true)
                    (tail n (sort_values col df))
  /\ exists dropped,
      Permutation (dropped ++ tail n (sort_values col df)) df
      /\ forall d r, In d dropped -> In r (tail n (sort_values col df)) ->
                     fleb (col d) (col r) = true.
Proof.
  pose proof (sort_by_sorted (fun a b => fleb (col a) (col b))
                (fun a b => fleb_total (col a) (col b))
                (fun a b c => @fleb_trans (col a) (col b) (col c)) df) as Hs.
  fold (sort_values col df) in Hs.
  rewrite <- (tail_split n (sort_values col df)) in Hs.
  apply StronglySorted_app_inv in Hs. destruct Hs as [_ [Hk Hdk]].
  split.
  { rewrite tail_length. unfold sort_values. rewrite sort_by_length.
    reflexivity. }
  split; [exact Hk|].
  exists (firstn (List.length (sort_values col df) - n) (sort_values col df)).
  split; [|exact Hdk].
  rewrite tail_split. apply sort_by_perm.
Qed.

(** C8 (as the code has it).  The ranking tables hold [min n rows] rows of
    the per-country table (n is 15 in the code): they are in ascending
    order of the rank column, NaN last, and every row left out ranks no
    higher than any row kept. *)
Theorem ranking_keeps_largest :
  forall (n : nat) (edf : list ErosionCharts.row) (ldf : list LandCharts.row),
    (List.length (ErosionCharts.ranking n edf)
     = Nat.min n (List.length (ErosionCharts.country_avg edf))
     /\ StronglySorted (fun a b => fleb (snd a) (snd b) = true)
                       (ErosionCharts.ranking n edf)
     /\ exists dropped,
         Permutation (dropped ++ ErosionCharts.ranking n edf)
                     (ErosionCharts.country_avg edf)
         /\ forall d r, In d dropped -> In r (ErosionCharts.ranking n edf) ->
                        fleb (snd d) (snd r) = true)
    /\ (List.length (LandCharts.top_countries n ldf)
        = Nat.min n (List.length
                       (agg_sum LandCharts.Actual_area
                                (groupby LandCharts.Country ldf)))
        /\ StronglySorted (fun a b => Qle_bool (snd a) (snd b) = true)
                          (LandCharts.top_countries n ldf)
        /\ exists dropped,
            Permutation (dropped ++ LandCharts.top_countries n ldf)
                        (agg_sum LandCharts.Actual_area
                                 (groupby LandCharts.Country ldf))
            /\ forall d r, In d dropped ->
                           In r (LandCharts.top_countries n ldf) ->
                           Qle_bool (snd d) (snd r) = true)
    /\ ErosionCharts.create_country_ranking_chart []
       = EmptyFigure
    /\ LandCharts.create_top_countries_chart [] = EmptyFigure.
Proof.
  intros n edf ldf.
  split; [apply largest_rows|].
  split; [|split; reflexivity].
  apply (largest_rows (fun r : string * Q => Fin (snd r))).
Qed.

(** C8, as stated, fails: the rows come out in ascending, not descending,
    order of the rank column. *)
Lemma ranking_is_ascending :
  ErosionCharts.ranking 15
    [Examples.erosion "A" 2010 "Water" "_T" (Some 2);
     Examples.erosion "B" 2010 "Water" "_T" (Some 1)]
  = [("B"%string, Fin 1); ("A"%string, Fin 2)]
  /\ LandCharts.top_countries 15
       [Examples.land "A" 2000 "Arable" (Some 7);
        Examples.land "B" 2000 "Arable" (Some 5)]
     = [("B"%string, 5); ("A"%string, 7)].
Proof. split; reflexivity. Qed.

(* ================================================================== *)
(** * Pivot                                                            *)
(* ================================================================== *)

Lemma find_label {K V : Type} `{KeyEq K} (f : K -> V) (a : K) (ks : list K) :
  find (fun t => keqb (fst t) a) (map (fun k => (k, f k)) ks)
  = if isin a ks then Some (a, f a) else None.
Proof.
  induction ks as [|k ks IH]; [reflexivity|].
  cbn [map find fst]. unfold isin. cbn [existsb].
  rewrite (keqb_sym a k). destruct (keqb k a) eqn:E.
  - apply keqb_eq in E. subst. reflexivity.
  - exact IH.
Qed.

Lemma combine_map_self {A B : Type} (h : A -> B) (l : list A) :
  combine l (map h l) = map (fun a => (a, h a)) l.
Proof. induction l as [|a l IH]; simpl; [|rewrite IH]; reflexivity. Qed.

Lemma flat_map_map_comp {A B C : Type} (f : B -> list C) (h : A -> B)
      (l : list A) :
  flat_map f (map h l) = flat_map (fun x => f (h x)) l.
Proof. induction l as [|a l IH]; simpl; [|rewrite IH]; reflexivity. Qed.

Lemma NoDup_fst_functional {K V : Type} (l : list (K * V)) (k : K) (v v' : V) :
  NoDup (map fst l) -> In (k, v) l -> In (k, v') l -> v = v'.
Proof.
  induction l as [|[k0 v0] l IH]; simpl; intros Hnd Hv Hv'; [contradiction|].
  inversion Hnd as [|? ? Hnin Hnd']; subst.
  destruct Hv as [E|Hv], Hv' as [E'|Hv'].
  - congruence.
  - inversion E; subst. exfalso. apply Hnin.
    apply (in_map fst) in Hv'. exact Hv'.
  - inversion E'; subst. exfalso. apply Hnin.
    apply (in_map fst) in Hv. exact Hv.
  - apply IH; assumption.
Qed.

Lemma NoDup_flat_map {A B : Type} (f : A -> list B) (l : list A) :
  NoDup l ->
  (forall x, In x l -> NoDup (f x)) ->
  (forall x y z, In x l -> In y l -> In z (f x) -> In z (f y) -> x = y) ->
  NoDup (flat_map f l).
Proof.
  induction 1 as [|a l Hnin Hnd IH]; simpl; intros Hf Hinj; [constructor|].
  apply NoDup_app.
  - apply Hf. left. reflexivity.
  - apply IH.
    + intros x Hx. apply Hf. right. exact Hx.
    + intros x y z Hx Hy. apply Hinj; right; assumption.
  - intros z Hz Hz'. apply in_flat_map in Hz'. destruct Hz' as [y [Hy Hzy]].
    assert (a = y).
    { apply (Hinj a y z);
        [left; reflexivity | right; exact Hy | exact Hz | exact Hzy]. }
    subst. contradiction.
Qed.

Section PivotFacts.
Context {I C : Type} `{KeyEq I} `{KeyEq C}.

Lemma loc_table (cols : list C) (idx : list I) (g : I -> C -> option Q)
      (i : I) (c : C) :
  loc (table cols idx g) i c
  = if isin i idx then if isin c cols then Some (g i c) else None else None.
Proof.
  unfold loc, table. cbn [rows columns].
  rewrite (find_label (fun i => map (g i) cols)).
  destruct (isin i idx); [|reflexivity]. cbn [snd].
  rewrite combine_map_self, (find_label (g i)).
  destruct (isin c cols); reflexivity.
Qed.

Lemma fillna_table (v : Q) (cols : list C) (idx : list I)
      (g : I -> C -> option Q) :
  fillna v (table cols idx g)
  = table cols idx (fun i c => match g i c with
                               | Some q => Some q
                               | None => Some v
                               end).
Proof.
  unfold fillna, table. cbn [rows columns]. f_equal.
  rewrite map_map. apply map_ext. intros i. cbn [fst snd].
  rewrite map_map. reflexivity.
Qed.

Lemma unpivot_table (cols : list C) (idx : list I) (g : I -> C -> option Q) :
  unpivot (table cols idx g)
  = flat_map (fun i =>
                flat_map (fun c => match g i c with
                                   | Some v => [((i, c), v)]
                                   | None => []
                                   end) cols) idx.
Proof.
  unfold unpivot, table. cbn [rows columns].
  rewrite flat_map_map_comp. apply flat_map_ext. intros i. cbn [fst snd].
  rewrite combine_map_self, flat_map_map_comp. reflexivity.
Qed.

Lemma unpivot_table_In (cols : list C) (idx : list I)
      (g : I -> C -> option Q) (i : I) (c : C) (v : Q) :
  In ((i, c), v) (unpivot (table cols idx g))
  <-> In i idx /\ In c cols /\ g i c = Some v.
Proof.
  rewrite unpivot_table, in_flat_map. split.
  - intros [i' [Hi Hin]]. apply in_flat_map in Hin.
    destruct Hin as [c' [Hc Hin]].
    destruct (g i' c') as [v'|] eqn:E; [|contradiction].
    destruct Hin as [Ex|[]]. inversion Ex; subst. auto.
  - intros [Hi [Hc Hg]]. exists i. split; [exact Hi|].
    apply in_flat_map. exists c. split; [exact Hc|].
    rewrite Hg. left. reflexivity.
Qed.

Lemma unpivot_table_NoDup (cols : list C) (idx : list I)
      (g : I -> C -> option Q) :
  NoDup idx -> NoDup cols -> NoDup (unpivot (table cols idx g)).
Proof.
  intros Hi Hc. rewrite unpivot_table.
  apply NoDup_flat_map; [exact Hi| |].
  - intros i _. apply NoDup_flat_map; [exact Hc| |].
    + intros c _. destruct (g i c); repeat constructor. intros [].
    + intros c c' z _ _ Hz Hz'.
      destruct (g i c); [|contradiction]. destruct (g i c'); [|contradiction].
      destruct Hz as [<-|[]]. destruct Hz' as [E|[]]. congruence.
  - intros i i' z _ _ Hz Hz'.
    apply in_flat_map in Hz. destruct Hz as [c [_ Hz]].
    apply in_flat_map in Hz'. destruct Hz' as [c' [_ Hz']].
    destruct (g i c); [|contradiction]. destruct (g i' c'); [|contradiction].
    destruct Hz as [<-|[]]. destruct Hz' as [E|[]]. congruence.
Qed.

Variable long : list ((I * C) * Q).
Hypothesis long_keys : NoDup (map fst long).

Lemma cell_Some (i : I) (c : C) (v : Q) :
  cell long i c = Some v <-> In ((i, c), v) long.
Proof.
  unfold cell. split.
  - destruct (find _ long) as [r|] eqn:E; [|discriminate].
    intros Ev. inversion Ev; subst. apply find_some in E.
    destruct E as [Hin Ek]. apply keqb_eq in Ek.
    destruct r as [k v]. simpl in *. subst. exact Hin.
  - intros Hin. destruct (find _ long) as [r|] eqn:E.
    + apply find_some in E. destruct E as [Hr Ek]. apply keqb_eq in Ek.
      destruct r as [k v']. simpl in *. subst. f_equal.
      apply (NoDup_fst_functional long (i, c)); assumption.
    + apply (find_none _ _ E) in Hin. cbn [fst] in Hin.
      rewrite (keqb_refl (i, c)) in Hin. discriminate Hin.
Qed.

Lemma cell_None (i : I) (c : C) :
  cell long i c = None <-> ~ In (i, c) (map fst long).
Proof.
  split.
  - intros E Hin. apply in_map_iff in Hin. destruct Hin as [[k v] [Ek Hin]].
    simpl in Ek. subst. apply cell_Some in Hin. congruence.
  - intros Hn. destruct (cell long i c) as [v|] eqn:E; [|reflexivity].
    apply cell_Some in E. exfalso. apply Hn.
    apply (in_map fst) in E. exact E.
Qed.

Lemma pivot_index_In (i : I) :
  In i (pivot_index long) <-> exists c v, In ((i, c), v) long.
Proof.
  unfold pivot_index. rewrite sort_by_In, unique_In, in_map_iff. split.
  - intros [[[i' c] v] [E Hin]]. simpl in E. subst. eauto.
  - intros [c [v Hin]]. exists ((i, c), v). auto.
Qed.

Lemma pivot_columns_In (c : C) :
  In c (pivot_columns long) <-> exists i v, In ((i, c), v) long.
Proof.
  unfold pivot_columns. rewrite sort_by_In, unique_In, in_map_iff. split.
  - intros [[[i c'] v] [E Hin]]. simpl in E. subst. eauto.
  - intros [i [v Hin]]. exists ((i, c), v). auto.
Qed.

Lemma pivot_index_NoDup : NoDup (pivot_index long).
Proof.
  unfold pivot_index. eapply Permutation_NoDup;
    [symmetry; apply sort_by_perm | apply unique_NoDup].
Qed.

Lemma pivot_columns_NoDup : NoDup (pivot_columns long).
Proof.
  unfold pivot_columns. eapply Permutation_NoDup;
    [symmetry; apply sort_by_perm | apply unique_NoDup].
Qed.

(** Without duplicate pairs [pivot] succeeds, with these labels and cells. *)
Lemma pivot_table :
  pivot long = Some (table (pivot_columns long) (pivot_index long) (cell long)).
Proof.
  unfold pivot. rewrite (has_duplicates_NoDup long_keys). reflexivity.
Qed.

(** Stacking the pivot gives back the long table, up to row order. *)
Lemma unpivot_pivot :
  Permutation
    (unpivot (table (pivot_columns long) (pivot_index long) (cell long)))
    long.
Proof.
  apply NoDup_Permutation.
  - apply unpivot_table_NoDup; [apply pivot_index_NoDup|apply pivot_columns_NoDup].
  - apply (NoDup_map_inv fst). exact long_keys.
  - intros [[i c] v]. rewrite unpivot_table_In, cell_Some.
    rewrite pivot_index_In, pivot_columns_In. split; [tauto|].
    intros Hin. split; [|split]; eauto.
Qed.

End PivotFacts.

Section PivotCells.
Context {I C : Type} `{KeyEq I} `{KeyEq C}.
Variable long : list ((I * C) * Q).
Hypothesis long_keys : NoDup (map fst long).

Let wide_table : wide I C :=
  table (pivot_columns long) (pivot_index long) (cell long).

Lemma index_table (cols : list C) (idx : list I) (g : I -> C -> option Q) :
  index (table cols idx g) = idx.
Proof.
  unfold index, table. cbn [rows]. rewrite map_map. apply map_id.
Qed.

Lemma loc_table_Some (cols : list C) (idx : list I) (g : I -> C -> option Q)
      (i : I) (c : C) (x : option Q) :
  loc (table cols idx g) i c = Some x
  <-> In i idx /\ In c cols /\ g i c = x.
Proof.
  rewrite loc_table.
  destruct (isin i idx) eqn:Ei, (isin c cols) eqn:Ec;
    try apply isin_In in Ei; try apply isin_In in Ec.
  - split; [intros E; inversion E; auto | intros [_ [_ ->]]; reflexivity].
  - split; [discriminate|]. intros [_ [Hc _]]. apply isin_In in Hc. congruence.
  - split; [discriminate|]. intros [Hi _]. apply isin_In in Hi. congruence.
  - split; [discriminate|]. intros [Hi _]. apply isin_In in Hi. congruence.
Qed.

Lemma loc_pivot_value (i : I) (c : C) (v : Q) :
  loc wide_table i c = Some (Some v) <-> In ((i, c), v) long.
Proof.
  unfold wide_table. rewrite loc_table_Some, (cell_Some long long_keys).
  rewrite pivot_index_In, pivot_columns_In. split; [tauto|].
  intros Hin. split; [|split]; eauto.
Qed.

Lemma loc_pivot_nan (i : I) (c : C) :
  loc wide_table i c = Some None
  <-> In i (index wide_table) /\ In c (columns wide_table)
      /\ ~ In (i, c) (map fst long).
Proof.
  unfold wide_table. rewrite loc_table_Some, (cell_None long long_keys).
  rewrite index_table. reflexivity.
Qed.

Lemma loc_fillna_value (z : Q) (i : I) (c : C) (v : Q) :
  In ((i, c), v) long -> loc (fillna z wide_table) i c = Some (Some v).
Proof.
  intros Hin. unfold wide_table. rewrite fillna_table.
  apply loc_table_Some.
  rewrite pivot_index_In, pivot_columns_In.
  split; [eauto|]. split; [eauto|].
  apply (cell_Some long long_keys) in Hin. rewrite Hin. reflexivity.
Qed.

Lemma loc_fillna_unseen (z : Q) (i : I) (c : C) :
  In i (index (fillna z wide_table)) ->
  In c (columns (fillna z wide_table)) ->
  ~ In (i, c) (map fst long) ->
  loc (fillna z wide_table) i c = Some (Some z).
Proof.
  unfold wide_table. rewrite fillna_table, index_table. cbn [columns table].
  intros Hi Hc Hn. apply loc_table_Some.
  split; [exact Hi|]. split; [exact Hc|].
  apply (cell_None long long_keys) in Hn. rewrite Hn. reflexivity.
Qed.

Lemma loc_fillna_not_nan (z : Q) (i : I) (c : C) :
  loc (fillna z wide_table) i c <> Some None.
Proof.
  unfold wide_table. rewrite fillna_table. intros E.
  apply loc_table_Some in E. destruct E as [_ [_ E]].
  destruct (cell long i c); discriminate.
Qed.

End PivotCells.

(** The long tables that the dashboards pivot: one row per pair. *)
Section AggregatedLong.
Context {R I C : Type} `{KeyEq I} `{KeyEq C}.
Variables (ti : R -> I) (cc : R -> C) (col : R -> option Q) (df : list R).

Let long : list ((I * C) * Q) :=
  agg_sum col (groupby (fun r => (ti r, cc r)) df).

Lemma long_keys_NoDup : NoDup (map fst long).
Proof. unfold long. rewrite agg_sum_keys. apply group_keys_NoDup. Qed.

Lemma long_index_In (i : I) : In i (pivot_index long) <-> In i (map ti df).
Proof.
  rewrite pivot_index_In. unfold long. split.
  - intros [c [v Hin]]. apply agg_sum_In in Hin. destruct Hin as [Hk _].
    apply in_map_iff in Hk. destruct Hk as [r [E Hr]]. inversion E; subst.
    apply in_map. exact Hr.
  - intros Hi. apply in_map_iff in Hi. destruct Hi as [r [<- Hr]].
    exists (cc r). eexists. apply agg_sum_In. split; [|reflexivity].
    apply (in_map (fun r => (ti r, cc r))). exact Hr.
Qed.

Lemma long_columns_In (c : C) : In c (pivot_columns long) <-> In c (map cc df).
Proof.
  rewrite pivot_columns_In. unfold long. split.
  - intros [i [v Hin]]. apply agg_sum_In in Hin. destruct Hin as [Hk _].
    apply in_map_iff in Hk. destruct Hk as [r [E Hr]]. inversion E; subst.
    apply in_map. exact Hr.
  - intros Hc. apply in_map_iff in Hc. destruct Hc as [r [<- Hr]].
    exists (ti r). eexists. apply agg_sum_In. split; [|reflexivity].
    apply (in_map (fun r => (ti r, cc r))). exact Hr.
Qed.

End AggregatedLong.

(* ================================================================== *)
(** * Order of the labels and the exact round trip                     *)
(* ================================================================== *)

#[export] Instance KeyOrd_Z : KeyOrd Z.
Proof.
  constructor; simpl; intros; rewrite ?Z.leb_le in *; lia.
Qed.

Lemma string_leb_trans (s1 s2 s3 : string) :
  String.leb s1 s2 = true -> String.leb s2 s3 = true ->
  String.leb s1 s3 = true.
Proof.
  unfold String.leb. revert s2 s3.
  induction s1 as [|a s1 IH]; intros [|b s2] [|c s3]; simpl;
    try congruence.
  unfold Ascii.compare.
  destruct (N.compare_spec (Ascii.N_of_ascii a) (Ascii.N_of_ascii b)),
    (N.compare_spec (Ascii.N_of_ascii b) (Ascii.N_of_ascii c)),
    (N.compare_spec (Ascii.N_of_ascii a) (Ascii.N_of_ascii c));
    try lia; try congruence.
  apply IH.
Qed.

#[export] Instance KeyOrd_string : KeyOrd string.
Proof.
  constructor.
  - exact String.leb_total.
  - exact string_leb_trans.
  - exact String.leb_antisym.
Qed.

#[export] Instance KeyOrd_prod {A B : Type} {KA : Key A} {KB : Key B}
  {EA : KeyEq A} {OA : KeyOrd A} {OB : KeyOrd B} : KeyOrd (A * B).
Proof.
  constructor.
  - intros [a1 b1] [a2 b2]. simpl. rewrite (keqb_sym a2 a1).
    destruct (keqb a1 a2); [apply kleb_total|apply kleb_total].
  - intros [a1 b1] [a2 b2] [a3 b3]. simpl.
    destruct (keqb a1 a2) eqn:E12.
    + apply keqb_eq in E12. subst a2.
      destruct (keqb a1 a3); [apply kleb_trans|auto].
    + destruct (keqb a2 a3) eqn:E23.
      * apply keqb_eq in E23. subst a3. rewrite E12. auto.
      * intros H12 H23. destruct (keqb a1 a3) eqn:E13.
        -- apply keqb_eq in E13. subst a3.
           rewrite (kleb_antisym _ _ H12 H23), keqb_refl in E12.
           discriminate.
        -- apply (kleb_trans _ _ _ H12 H23).
  - intros [a1 b1] [a2 b2]. simpl. rewrite (keqb_sym a2 a1).
    destruct (keqb a1 a2) eqn:E.
    + apply keqb_eq in E. subst a2. intros H1 H2.
      rewrite (kleb_antisym _ _ H1 H2). reflexivity.
    + intros H1 H2. rewrite (kleb_antisym _ _ H1 H2), keqb_refl in E.
      discriminate.
Qed.

Lemma StronglySorted_app {A : Type} (R : A -> A -> Prop) (l1 l2 : list A) :
  StronglySorted R l1 -> StronglySorted R l2 ->
  (forall a b, In a l1 -> In b l2 -> R a b) ->
  StronglySorted R (l1 ++ l2).
Proof.
  induction 1 as [|x l1 Hs IH Hall]; simpl; intros H2 H12; [exact H2|].
  constructor.
  - apply IH; [exact H2|]. intros a b Ha. apply H12. right. exact Ha.
  - apply Forall_app. split; [exact Hall|].
    apply Forall_forall. intros b Hb. apply H12; [left; reflexivity|exact Hb].
Qed.

Lemma StronglySorted_flat_map {A B : Type} (Ra : A -> A -> Prop)
      (Rb : B -> B -> Prop) (f : A -> list B) (l : list A) :
  StronglySorted Ra l ->
  (forall x, StronglySorted Rb (f x)) ->
  (forall x y u v, Ra x y -> In u (f x) -> In v (f y) -> Rb u v) ->
  StronglySorted Rb (flat_map f l).
Proof.
  intros Hs Hf Hxy. induction Hs as [|x l Hs IH Hall]; simpl; [constructor|].
  apply StronglySorted_app; [apply Hf|exact IH|].
  intros u v Hu Hv. apply in_flat_map in Hv. destruct Hv as [y [Hy Hv]].
  rewrite Forall_forall in Hall. apply (Hxy x y); auto.
Qed.

Lemma StronglySorted_map {A B : Type} (R : B -> B -> Prop) (h : A -> B)
      (l : list A) :
  StronglySorted (fun x y => R (h x) (h y)) l -> StronglySorted R (map h l).
Proof.
  induction 1 as [|x l Hs IH Hall]; simpl; constructor; [exact IH|].
  apply Forall_map. exact Hall.
Qed.

(** Two lists sorted by a relation that no pair satisfies both ways, with
    the same members, are the same list. *)
Lemma sorted_unique {A : Type} (R : A -> A -> Prop) :
  (forall a b, R a b -> R b a -> False) ->
  forall l1 l2 : list A,
    StronglySorted R l1 -> StronglySorted R l2 ->
    (forall x, In x l1 <-> In x l2) -> l1 = l2.
Proof.
  intros Hasym l1. induction l1 as [|a l1 IH]; intros l2 H1 H2 Hin.
  - destruct l2 as [|b l2]; [reflexivity|].
    exfalso. apply (Hin b). left. reflexivity.
  - destruct l2 as [|b l2].
    { exfalso. apply (Hin a). left. reflexivity. }
    inversion H1 as [|? ? H1' Ha]; subst.
    inversion H2 as [|? ? H2' Hb]; subst.
    rewrite Forall_forall in Ha, Hb.
    assert (Eab : a = b).
    { destruct (proj1 (Hin a) (or_introl eq_refl)) as [E|Ha2]; [auto|].
      destruct (proj2 (Hin b) (or_introl eq_refl)) as [E|Hb1]; [auto|].
      exfalso. apply (Hasym a b); [apply Ha; exact Hb1|apply Hb; exact Ha2]. }
    subst b. f_equal. apply IH; [exact H1'|exact H2'|].
    intros x. split; intros Hx.
    + destruct (proj1 (Hin x) (or_intror Hx)) as [E|Hx2]; [|exact Hx2].
      subst x. exfalso. apply (Hasym a a); apply Ha; exact Hx.
    + destruct (proj2 (Hin x) (or_intror Hx)) as [E|Hx1]; [|exact Hx1].
      subst x. exfalso. apply (Hasym a a); apply Hb; exact Hx.
Qed.

(** Two tables with the same label column, the second with one row per
    label, are equal when every row of the first is a row of the second. *)
Lemma rows_eq_of_keys {K V : Type} (l1 l2 : list (K * V)) :
  map fst l1 = map fst l2 -> NoDup (map fst l2) ->
  (forall x, In x l1 -> In x l2) -> l1 = l2.
Proof.
  revert l2. induction l1 as [|[k v] l1 IH]; intros [|[k' v'] l2];
    simpl; intros Ek Hnd Hin; try discriminate; [reflexivity|].
  inversion Ek as [[Ek1 Ek2]]. subst k'.
  inversion Hnd as [|? ? Hnin Hnd']; subst.
  assert (Ev : v = v').
  { destruct (Hin (k, v) (or_introl eq_refl)) as [E|Hkv]; [congruence|].
    exfalso. apply Hnin. apply (in_map fst) in Hkv. exact Hkv. }
  subst v'. f_equal. apply IH; [exact Ek2|exact Hnd'|].
  intros [k1 v1] Hx. destruct (Hin (k1, v1) (or_intror Hx)) as [E|Hx2];
    [|exact Hx2].
  inversion E; subst. exfalso. apply Hnin. rewrite <- Ek2.
  apply (in_map fst) in Hx. exact Hx.
Qed.

Section OrderFacts.
Context {K : Type} {KK : Key K} {EK : KeyEq K} {OK : KeyOrd K}.

Lemma klt_asym (a b : K) : klt a b -> klt b a -> False.
Proof.
  intros [H1 Hne] [H2 _]. apply Hne. apply kleb_antisym; assumption.
Qed.

(** Sorted labels without repetition are strictly sorted. *)
Lemma sort_unique_strict (l : list K) :
  StronglySorted klt (sort_by kleb (unique l)).
Proof.
  pose proof (sort_by_sorted kleb kleb_total kleb_trans (unique l)) as Hs.
  assert (Hnd : NoDup (sort_by kleb (unique l))).
  { eapply Permutation_NoDup;
      [symmetry; apply sort_by_perm | apply unique_NoDup]. }
  induction Hs as [|a t Hs IH Hall]; constructor.
  - apply IH. inversion Hnd; assumption.
  - inversion Hnd as [|? ? Hnin _]; subst.
    rewrite Forall_forall in *. intros b Hb. split; [apply Hall; exact Hb|].
    intros ->. contradiction.
Qed.

Lemma group_keys_sorted {R : Type} (by_ : R -> K) (df : list R) :
  StronglySorted klt (group_keys by_ df).
Proof. apply sort_unique_strict. Qed.

End OrderFacts.

Section ExactRoundTrip.
Context {I C : Type} {KI : Key I} {KC : Key C}
        {EI : KeyEq I} {EC : KeyEq C} {OI : KeyOrd I} {OC : KeyOrd C}.

(** Stacking a table with strictly sorted labels lists the pairs in
    strictly increasing lexicographic order. *)
Lemma unpivot_table_sorted (cols : list C) (idx : list I)
      (g : I -> C -> option Q) :
  StronglySorted klt idx -> StronglySorted klt cols ->
  StronglySorted klt (map fst (unpivot (table cols idx g))).
Proof.
  intros Hi Hc. apply StronglySorted_map. rewrite unpivot_table.
  apply (StronglySorted_flat_map (Ra := klt)); [exact Hi| |].
  - intros i. apply (StronglySorted_flat_map (Ra := klt)); [exact Hc| |].
    + intros c. destruct (g i c); repeat constructor.
    + intros c c' u v [Hle Hne] Hu Hv.
      destruct (g i c); [|contradiction]. destruct (g i c'); [|contradiction].
      destruct Hu as [<-|[]]. destruct Hv as [<-|[]].
      split; simpl; [rewrite keqb_refl; exact Hle|congruence].
  - intros i i' u v [Hle Hne] Hu Hv.
    apply in_flat_map in Hu. destruct Hu as [c [_ Hu]].
    apply in_flat_map in Hv. destruct Hv as [c' [_ Hv]].
    destruct (g i c); [|contradiction]. destruct (g i' c'); [|contradiction].
    destruct Hu as [<-|[]]. destruct Hv as [<-|[]].
    split; simpl; [|congruence].
    destruct (keqb i i') eqn:E; [|exact Hle].
    apply keqb_eq in E. contradiction.
Qed.

(** Stacking the pivot of an aggregated table gives the table back, row
    for row. *)
Lemma unpivot_pivot_exact {R : Type} (ti : R -> I) (cc : R -> C)
      (col : R -> option Q) (df : list R) :
  let long := agg_sum col (groupby (fun r => (ti r, cc r)) df) in
  unpivot (table (pivot_columns long) (pivot_index long) (cell long)) = long.
Proof.
  intros long.
  pose proof (long_keys_NoDup ti cc col df) as Hk. fold long in Hk.
  apply rows_eq_of_keys; [|exact Hk|].
  - apply (sorted_unique (R := klt) klt_asym).
    + apply unpivot_table_sorted; apply sort_unique_strict.
    + unfold long. rewrite agg_sum_keys. apply group_keys_sorted.
    + intros k. split; intros Hin; apply in_map_iff in Hin;
        destruct Hin as [[k' v] [E Hin]]; simpl in E; subst k'.
      * apply (Permutation_in _ (unpivot_pivot long Hk)) in Hin.
        apply (in_map fst) in Hin. exact Hin.
      * apply (Permutation_in _ (Permutation_sym (unpivot_pivot long Hk)))
          in Hin.
        apply (in_map fst) in Hin. exact Hin.
  - intros x. apply Permutation_in. apply (unpivot_pivot long Hk).
Qed.

End ExactRoundTrip.

(** C4 (as the code has it).  Both pivots succeed and have the distinct
    years as index and the distinct values of the pivot column as columns.
    In the greenhouse line plot a cell holds the aggregated value of its
    (year, measure) pair when the pair was observed and NaN ("no data")
    when it was not, so stacking the pivot gives back exactly the rows of
    the long table.  In the land stacked-area chart a cell holds the
    aggregated value of an observed pair and 0 for a pair that was not
    observed ([fillna(0)]); it has no NaN cell. *)
Theorem pivot_cells :
  forall (filtered : list GreenhouseGas.row) (df : list LandCharts.row),
    (exists w,
        GreenhouseGas.df_plot filtered = Some w
        /\ (forall c, In c (columns w)
                      <-> In c (map GreenhouseGas.MEASURE filtered))
        /\ (forall i, In i (index w)
                      <-> In i (map GreenhouseGas.TIME_PERIOD filtered))
        /\ NoDup (columns w) /\ NoDup (index w)
        /\ (forall i c v, loc w i c = Some (Some v)
                          <-> In ((i, c), v) (GreenhouseGas.plot_long filtered))
        /\ (forall i c, loc w i c = Some None
                        <-> In i (index w) /\ In c (columns w)
                            /\ ~ In (i, c)
                                 (map fst (GreenhouseGas.plot_long filtered)))
        /\ unpivot w = GreenhouseGas.plot_long filtered)
    /\ (exists w,
           LandCharts.area_data df = Some w
           /\ (forall c, In c (columns w)
                         <-> In c (map LandCharts.Types_of_Land df))
           /\ (forall i, In i (index w) <-> In i (map LandCharts.Time df))
           /\ (forall i c v, In ((i, c), v) (LandCharts.area_long df) ->
                             loc w i c = Some (Some v))
           /\ (forall i c, In i (index w) -> In c (columns w) ->
                           ~ In (i, c) (map fst (LandCharts.area_long df)) ->
                           loc w i c = Some (Some 0))
           /\ (forall i c, loc w i c <> Some None)).
Proof.
  intros filtered df. split.
  - pose proof (long_keys_NoDup GreenhouseGas.TIME_PERIOD GreenhouseGas.MEASURE
                  GreenhouseGas.OBS_VALUE filtered) as Hk.
    fold (GreenhouseGas.plot_long filtered) in Hk.
    eexists. split.
    { unfold GreenhouseGas.df_plot. apply (pivot_table _ Hk). }
    split.
    { intros c. cbn [columns table].
      apply (long_columns_In GreenhouseGas.TIME_PERIOD GreenhouseGas.MEASURE
               GreenhouseGas.OBS_VALUE filtered). }
    split.
    { intros i. rewrite index_table.
      apply (long_index_In GreenhouseGas.TIME_PERIOD GreenhouseGas.MEASURE
               GreenhouseGas.OBS_VALUE filtered). }
    split; [apply pivot_columns_NoDup|].
    split; [rewrite index_table; apply pivot_index_NoDup|].
    split; [apply (loc_pivot_value _ Hk)|].
    split; [apply (loc_pivot_nan _ Hk)|].
    apply (unpivot_pivot_exact GreenhouseGas.TIME_PERIOD GreenhouseGas.MEASURE
             GreenhouseGas.OBS_VALUE filtered).
  - pose proof (long_keys_NoDup LandCharts.Time LandCharts.Types_of_Land
                  LandCharts.Actual_area df) as Hk.
    fold (LandCharts.area_long df) in Hk.
    eexists. split.
    { unfold LandCharts.area_data. rewrite (pivot_table _ Hk). reflexivity. }
    split.
    { intros c. cbn [fillna columns table].
      apply (long_columns_In LandCharts.Time LandCharts.Types_of_Land
               LandCharts.Actual_area df). }
    split.
    { intros i. rewrite fillna_table, index_table.
      apply (long_index_In LandCharts.Time LandCharts.Types_of_Land
               LandCharts.Actual_area df). }
    split; [apply (loc_fillna_value _ Hk)|].
    split; [apply (loc_fillna_unseen _ Hk)|].
    apply loc_fillna_not_nan.
Qed.

(** C4, as stated, fails for the land chart: with (2000, Arable) and
    (2001, Pasture) observed, the two pairs that were not observed are 0 in
    the pivot; the greenhouse pivot of the same shape has NaN there. *)
Lemma land_pivot_fills_zero :
  LandCharts.area_data Examples.land_sparse
  = Some {| columns := ["Arable"%string; "Pasture"%string];
            rows := [(2000%Z, [Some 5; Some 0]);
                     (2001%Z, [Some 0; Some 7])] |}
  /\ GreenhouseGas.df_plot Examples.ghg_sparse
     = Some {| columns := ["CH4"%string; "CO2"%string];
               rows := [(2000%Z, [None; Some 5]);
                        (2001%Z, [Some 7; None])] |}.
Proof. split; reflexivity. Qed.

(* ================================================================== *)
(** * The greenhouse KPIs                                              *)
(* ================================================================== *)

(** Insertion sort leaves a sorted list as it is. *)
Lemma sort_by_sorted_id {A : Type} (le : A -> A -> bool) (l : list A) :
  StronglySorted (fun a b => le a b = true) l -> sort_by le l = l.
Proof.
  induction 1 as [|a l Hs IH Hall]; [reflexivity|].
  cbn [sort_by fold_right]. fold (sort_by le l). rewrite IH.
  destruct l as [|b l]; [reflexivity|]. cbn [insert_sorted].
  inversion Hall as [|? ? Hab _]; subst. rewrite Hab. reflexivity.
Qed.

Lemma labelled_sorted {K V : Type} `{Key K} (f : K -> V) (ks : list K) :
  StronglySorted klt ks ->
  StronglySorted (fun a b : K * V => kleb (fst a) (fst b) = true)
                 (map (fun k => (k, f k)) ks).
Proof.
  induction 1 as [|k ks Hs IH Hall]; simpl; constructor; [exact IH|].
  apply Forall_map. eapply Forall_impl; [|exact Hall].
  intros b [Hle _]. exact Hle.
Qed.

(** [sort_index] after [groupby] changes nothing: the yearly series is the
    aggregated table, one entry per year of the view, in year order. *)
Lemma annual_emissions_by_year (filtered : list GreenhouseGas.row) :
  GreenhouseGas.annual_emissions filtered
  = map (fun y => (y, GreenhouseGas.year_emissions y filtered))
        (group_keys GreenhouseGas.TIME_PERIOD filtered).
Proof.
  unfold GreenhouseGas.annual_emissions, sort_index.
  rewrite agg_sum_groupby.
  apply (sort_by_sorted_id (fun a b : Z * Q => kleb (fst a) (fst b))).
  apply labelled_sorted. apply group_keys_sorted.
Qed.

Lemma klt_Z (a b : Z) : klt a b <-> (a < b)%Z.
Proof.
  unfold klt. simpl. rewrite Z.leb_le. lia.
Qed.

Lemma group_keys_nonempty {R K : Type} `{KeyEq K} (by_ : R -> K)
      (df : list R) :
  df <> [] -> group_keys by_ df <> [].
Proof.
  destruct df as [|r df]; [congruence|]. intros _ E.
  assert (Hin : In (by_ r) (group_keys by_ (r :: df))).
  { apply group_keys_In. left. reflexivity. }
  rewrite E in Hin. contradiction.
Qed.

Lemma last_In {A : Type} (d : A) (l : list A) : l <> [] -> In (last l d) l.
Proof.
  intros Hne. destruct (@exists_last _ l Hne) as [l1 [z E]].
  rewrite E, last_last. apply in_or_app. right. left. reflexivity.
Qed.

(** In a strictly sorted list the first element is before, and the last
    element after, every other one. *)
Lemma sorted_first_last {A : Type} (R : A -> A -> Prop) (d : A) (l : list A) :
  StronglySorted R l ->
  forall x, In x l ->
            (x = hd d l \/ R (hd d l) x) /\ (x = last l d \/ R x (last l d)).
Proof.
  induction 1 as [|a l Hs IH Hall]; intros x Hx; [contradiction|].
  rewrite Forall_forall in Hall. split.
  - destruct Hx as [<-|Hx]; [left; reflexivity|right; apply Hall; exact Hx].
  - destruct l as [|b l].
    + destruct Hx as [<-|[]]. left. reflexivity.
    + change (last (a :: b :: l) d) with (last (b :: l) d).
      destruct Hx as [<-|Hx].
      * right. apply Hall. apply last_In. discriminate.
      * apply IH. exact Hx.
Qed.

Lemma last_labelled {K V : Type} (f : K -> V) (ks : list K) (d : K)
      (dv : K * V) :
  ks <> [] ->
  last (map (fun k => (k, f k)) ks) dv = (last ks d, f (last ks d)).
Proof.
  intros Hne. destruct (@exists_last _ ks Hne) as [l1 [z E]].
  rewrite E, map_app. cbn [map]. rewrite !last_last. reflexivity.
Qed.

(** X2.  Whenever the KPI panel is shown, its average is a number, never
    NaN: the sum of the yearly emissions divided by the number of distinct
    years of the view, which is at least 1. *)
Theorem kpi_average_is_a_number :
  forall (filtered : list GreenhouseGas.row) (k : GreenhouseGas.kpi),
    GreenhouseGas.kpi_and_line_tab filtered = Some k ->
    GreenhouseGas.avg_annual k
    = Fin (Qsum (map snd (GreenhouseGas.annual_emissions filtered))
           / inject_Z (Z.of_nat (nunique (map GreenhouseGas.TIME_PERIOD
                                              filtered))))
    /\ (1 <= nunique (map GreenhouseGas.TIME_PERIOD filtered))%nat
    /\ List.length (GreenhouseGas.annual_emissions filtered)
       = nunique (map GreenhouseGas.TIME_PERIOD filtered).
Proof.
  intros filtered k Hk.
  unfold GreenhouseGas.kpi_and_line_tab in Hk.
  destruct (empty filtered) eqn:Ee; [discriminate|].
  assert (Hne : filtered <> []).
  { intros E. rewrite E in Ee. discriminate. }
  inversion Hk as [Ek]. cbn [GreenhouseGas.avg_annual]. clear Ek Hk k.
  set (annual := GreenhouseGas.annual_emissions filtered) in *.
  assert (Hlen : List.length annual
                 = nunique (map GreenhouseGas.TIME_PERIOD filtered)).
  { unfold annual. rewrite annual_emissions_by_year, length_map.
    unfold group_keys, nunique. apply sort_by_length. }
  assert (Hpres : present (map (fun r : Z * Q => Some (snd r)) annual)
                  = map snd annual).
  { clear. induction annual as [|a l IH]; simpl; [|rewrite IH]; reflexivity. }
  destruct (nanmean_present (map (fun r : Z * Q => Some (snd r)) annual))
    as [_ Hsome].
  rewrite Hpres, length_map in Hsome.
  assert (Hann : annual <> []).
  { unfold annual. rewrite annual_emissions_by_year. intros E.
    apply map_eq_nil in E. revert E. apply group_keys_nonempty. exact Hne. }
  split.
  - rewrite <- Hlen. apply Hsome. intros E. apply map_eq_nil in E.
    contradiction.
  - split; [|exact Hlen]. rewrite <- Hlen.
    destruct annual; [congruence|]. simpl. lia.
Qed.

(** A view of two years: the yearly emissions are 5 and 7. *)
Lemma kpi_average_is_a_number_witness :
  exists k,
    GreenhouseGas.kpi_and_line_tab Examples.ghg_sparse = Some k
    /\ GreenhouseGas.avg_annual k
       = Fin (Qsum (map snd (GreenhouseGas.annual_emissions
                               Examples.ghg_sparse))
              / inject_Z (Z.of_nat 2)).
Proof.
  eexists. split; [reflexivity|].
  apply (@kpi_average_is_a_number Examples.ghg_sparse _ eq_refl).
Defined.

Lemma StronglySorted_impl {A : Type} (R S : A -> A -> Prop) (l : list A) :
  (forall a b, R a b -> S a b) -> StronglySorted R l -> StronglySorted S l.
Proof.
  intros HRS. induction 1 as [|a l Hs IH Hall]; constructor; [exact IH|].
  eapply Forall_impl; [|exact Hall]. intros b. apply HRS.
Qed.

Lemma labelled_sorted_by {K V : Type} (R : K -> K -> Prop) (f : K -> V)
      (ks : list K) :
  StronglySorted R ks ->
  StronglySorted (fun a b : K * V => R (fst a) (fst b))
                 (map (fun k => (k, f k)) ks).
Proof.
  induction 1 as [|k ks Hs IH Hall]; simpl; constructor; [exact IH|].
  apply Forall_map. exact Hall.
Qed.

(** X3.  The yearly series of a non-empty view has one entry per year of
    the view, in strictly increasing year order; its first entry is the
    emissions of the earliest year and its last entry those of the latest
    year, so the percent change compares the two ends of the view. *)
Theorem percent_change_spans_the_view :
  forall filtered : list GreenhouseGas.row,
    filtered <> [] ->
    exists y0 y1,
      In y0 (map GreenhouseGas.TIME_PERIOD filtered)
      /\ In y1 (map GreenhouseGas.TIME_PERIOD filtered)
      /\ (forall r, In r filtered ->
                    (y0 <= GreenhouseGas.TIME_PERIOD r <= y1)%Z)
      /\ GreenhouseGas.iloc_first (GreenhouseGas.annual_emissions filtered)
         = GreenhouseGas.year_emissions y0 filtered
      /\ GreenhouseGas.iloc_last (GreenhouseGas.annual_emissions filtered)
         = GreenhouseGas.year_emissions y1 filtered
      /\ List.length (GreenhouseGas.annual_emissions filtered)
         = nunique (map GreenhouseGas.TIME_PERIOD filtered)
      /\ StronglySorted (fun a b => (fst a < fst b)%Z)
                        (GreenhouseGas.annual_emissions filtered).
Proof.
  intros filtered Hne. rewrite annual_emissions_by_year.
  pose proof (group_keys_sorted GreenhouseGas.TIME_PERIOD filtered) as Hs.
  pose proof (@group_keys_nonempty _ _ _ _ GreenhouseGas.TIME_PERIOD filtered Hne)
    as Hk.
  pose proof (fun y => group_keys_In GreenhouseGas.TIME_PERIOD filtered y)
    as Hin.
  set (keys := group_keys GreenhouseGas.TIME_PERIOD filtered) in *.
  exists (hd 0%Z keys), (last keys 0%Z).
  split.
  { apply Hin. destruct keys; [congruence|]. left. reflexivity. }
  split.
  { apply Hin. apply last_In. exact Hk. }
  split.
  { intros r Hr.
    assert (Hy : In (GreenhouseGas.TIME_PERIOD r) keys).
    { apply Hin. apply in_map. exact Hr. }
    destruct (@sorted_first_last _ klt 0%Z keys Hs _ Hy) as [H0 H1].
    rewrite !klt_Z in *. lia. }
  split.
  { unfold GreenhouseGas.iloc_first. destruct keys; [congruence|].
    reflexivity. }
  split.
  { unfold GreenhouseGas.iloc_last.
    rewrite (@last_labelled _ _ _ keys 0%Z (0%Z, 0) Hk). reflexivity. }
  split.
  { rewrite length_map. unfold keys, group_keys, nunique.
    apply sort_by_length. }
  apply (StronglySorted_impl (R := fun a b : Z * Q => klt (fst a) (fst b))).
  - intros a b. apply klt_Z.
  - apply labelled_sorted_by. exact Hs.
Qed.

Lemma percent_change_spans_the_view_witness :
  exists y0 y1,
    GreenhouseGas.iloc_first
      (GreenhouseGas.annual_emissions Examples.ghg_sparse)
    = GreenhouseGas.year_emissions y0 Examples.ghg_sparse
    /\ GreenhouseGas.iloc_last
         (GreenhouseGas.annual_emissions Examples.ghg_sparse)
       = GreenhouseGas.year_emissions y1 Examples.ghg_sparse
    /\ (forall r, In r Examples.ghg_sparse ->
                  (y0 <= GreenhouseGas.TIME_PERIOD r <= y1)%Z).
Proof.
  assert (Hne : Examples.ghg_sparse <> []) by discriminate.
  destruct (@percent_change_spans_the_view Examples.ghg_sparse Hne)
    as [y0 [y1 [_ [_ [Hr [H0 [H1 _]]]]]]].
  exists y0, y1. auto.
Defined.

(* ================================================================== *)
(** * More on the nutrients page                                       *)
(* ================================================================== *)

Lemma Qsum_nonneg (l : list Q) :
  (forall x, In x l -> 0 <= x) -> 0 <= Qsum l.
Proof.
  induction l as [|a l IH]; simpl; intros Hl; [apply Qle_refl|].
  rewrite <- (Qplus_0_l 0). apply Qplus_le_compat.
  - apply Hl. left. reflexivity.
  - apply IH. intros x Hx. apply Hl. right. exact Hx.
Qed.

Lemma Qsum_member_le (l : list Q) (x : Q) :
  (forall y, In y l -> 0 <= y) -> In x l -> x <= Qsum l.
Proof.
  induction l as [|a l IH]; simpl; intros Hl Hx; [contradiction|].
  destruct Hx as [->|Hx].
  - rewrite <- (Qplus_0_r x) at 1. apply Qplus_le_compat; [apply Qle_refl|].
    apply Qsum_nonneg. intros y Hy. apply Hl. right. exact Hy.
  - rewrite <- (Qplus_0_l x). apply Qplus_le_compat.
    + apply Hl. left. reflexivity.
    + apply IH; [|exact Hx]. intros y Hy. apply Hl. right. exact Hy.
Qed.

Lemma partition_total_values (a : string) (g : list ((string * string) * Q)) :
  NutrientDashboard.partition_total a g
  = Qsum (map snd (NutrientDashboard.partition a g)).
Proof.
  unfold NutrientDashboard.partition_total.
  rewrite nansum_present. f_equal.
  induction (NutrientDashboard.partition a g) as [|r l IH]; simpl;
    [|rewrite IH]; reflexivity.
Qed.

(** X5.  In an area whose aggregated values are all non-negative and whose
    total is positive, every proportion is a number between 0 and 1. *)
Theorem proportion_between_0_and_1 :
  forall (g : list ((string * string) * Q))
         (r : NutrientDashboard.proportion_row),
    In r (NutrientDashboard.proportion g) ->
    (forall x, In x (NutrientDashboard.partition
                       (NutrientDashboard.p_Reference_area r) g) ->
               0 <= snd x) ->
    0 < NutrientDashboard.Total r ->
    exists q,
      NutrientDashboard.Proportion r = Fin q /\ 0 <= q <= 1.
Proof.
  intros g r Hin Hnn Hpos.
  destruct (proportion_row_inv g r Hin) as [Hg [Etot Eprop]].
  assert (Hne : ~ NutrientDashboard.Total r == 0).
  { intros E. rewrite E in Hpos. discriminate Hpos. }
  exists (NutrientDashboard.p_OBS_VALUE r / NutrientDashboard.Total r).
  split; [rewrite Eprop; apply fdiv_finite; exact Hne|].
  assert (Hpart : In ((NutrientDashboard.p_Reference_area r,
                       NutrientDashboard.p_Measure r),
                      NutrientDashboard.p_OBS_VALUE r)
                     (NutrientDashboard.partition
                        (NutrientDashboard.p_Reference_area r) g)).
  { unfold NutrientDashboard.partition. apply filter_In.
    split; [exact Hg|]. apply (keqb_refl (K := string)). }
  assert (Hv0 : 0 <= NutrientDashboard.p_OBS_VALUE r).
  { apply (Hnn _ Hpart). }
  assert (Hv1 : NutrientDashboard.p_OBS_VALUE r <= NutrientDashboard.Total r).
  { rewrite Etot, partition_total_values.
    apply Qsum_member_le.
    - intros y Hy. apply in_map_iff in Hy. destruct Hy as [x [<- Hx]].
      apply Hnn. exact Hx.
    - apply (in_map snd) in Hpart. exact Hpart. }
  split.
  - apply Qle_shift_div_l; [exact Hpos|]. rewrite Qmult_0_l. exact Hv0.
  - apply Qle_shift_div_r; [exact Hpos|]. rewrite Qmult_1_l. exact Hv1.
Qed.

(** Area A of the scenario, measure X: 10 of 40. *)
Lemma proportion_between_0_and_1_witness :
  exists q, Fin (10 # 40) = Fin q /\ 0 <= q <= 1.
Proof.
  apply (@proportion_between_0_and_1
           (NutrientDashboard.grouped Examples.scenario)
           {| NutrientDashboard.p_Reference_area := "A";
              NutrientDashboard.p_Measure := "X";
              NutrientDashboard.p_OBS_VALUE := 10;
              NutrientDashboard.Total := 40;
              NutrientDashboard.Proportion := Fin (10 # 40) |}).
  - vm_compute. left. reflexivity.
  - intros x Hx. vm_compute in Hx.
    destruct Hx as [<-|[<-|[]]]; vm_compute; discriminate.
  - reflexivity.
Defined.

(** X6.  The merge with the totals keeps every row of the aggregated table
    exactly once and in order: the proportion table has the same areas,
    measures and values as the aggregated table, row for row. *)
Theorem merge_keeps_every_row :
  forall g : list ((string * string) * Q),
    map (fun r => ((NutrientDashboard.p_Reference_area r,
                    NutrientDashboard.p_Measure r),
                   NutrientDashboard.p_OBS_VALUE r))
        (NutrientDashboard.proportion g) = g
    /\ List.length (NutrientDashboard.proportion g) = List.length g.
Proof.
  intros g. rewrite proportion_rows, map_map, length_map.
  split; [|reflexivity]. cbn.
  rewrite <- (map_id g) at 2. apply map_ext. intros [[a m] v]. reflexivity.
Qed.

(** X7.  [format_number] abbreviates a number of at least 1000 with a
    mantissa of at least 1, below 1000 for the units K and M, and prints
    every number below 1000 -- every negative number, whatever its size --
    in full. *)
Theorem format_number_units :
  forall num : Q,
    (num < 1000 -> NutrientDashboard.format_number num
                   = NutrientDashboard.Plain num)
    /\ (1000 <= num -> num < 1000000 ->
        NutrientDashboard.format_number num
        = NutrientDashboard.Abbrev (num / 1000) "K"
        /\ 1 <= num / 1000 < 1000)
    /\ (1000000 <= num -> num < 1000000000 ->
        NutrientDashboard.format_number num
        = NutrientDashboard.Abbrev (num / 1000000) "M"
        /\ 1 <= num / 1000000 < 1000)
    /\ (1000000000 <= num ->
        NutrientDashboard.format_number num
        = NutrientDashboard.Abbrev (num / 1000000000) "B"
        /\ 1 <= num / 1000000000).
Proof.
  intros num. unfold NutrientDashboard.format_number.
  assert (Hb : forall c, Qle_bool c num = false <-> num < c).
  { intros c. split.
    - intros E. apply Qnot_le_lt. intros Hle.
      apply Qle_bool_iff in Hle. congruence.
    - intros Hlt. destruct (Qle_bool c num) eqn:E; [|reflexivity].
      apply Qle_bool_iff in E. exfalso. apply (Qlt_not_le _ _ Hlt E). }
  assert (Ht : forall c, c <= num -> Qle_bool c num = true).
  { intros c. apply Qle_bool_iff. }
  assert (Hlow : forall c, 0 < c -> c <= num -> 1 <= num / c).
  { intros c Hc Hle. apply Qle_shift_div_l; [exact Hc|].
    rewrite Qmult_1_l. exact Hle. }
  assert (Hup : forall c d, 0 < c -> num < d * c -> num / c < d).
  { intros c d Hc Hlt. apply Qlt_shift_div_r; assumption. }
  split; [|split; [|split]].
  - intros Hlt.
    assert (H3 : Qle_bool 1000 num = false) by (apply Hb; exact Hlt).
    assert (H6 : Qle_bool 1000000 num = false).
    { apply Hb. apply (Qlt_trans _ 1000); [exact Hlt|reflexivity]. }
    assert (H9 : Qle_bool 1000000000 num = false).
    { apply Hb. apply (Qlt_trans _ 1000); [exact Hlt|reflexivity]. }
    rewrite H9, H6, H3. reflexivity.
  - intros Hge Hlt.
    assert (H6 : Qle_bool 1000000 num = false) by (apply Hb; exact Hlt).
    assert (H9 : Qle_bool 1000000000 num = false).
    { apply Hb. apply (Qlt_trans _ 1000000); [exact Hlt|reflexivity]. }
    rewrite H9, H6, (Ht _ Hge). split; [reflexivity|]. split.
    + apply Hlow; [reflexivity|exact Hge].
    + apply Hup; [reflexivity|exact Hlt].
  - intros Hge Hlt.
    assert (H9 : Qle_bool 1000000000 num = false) by (apply Hb; exact Hlt).
    rewrite H9, (Ht _ Hge). split; [reflexivity|]. split.
    + apply Hlow; [reflexivity|exact Hge].
    + apply Hup; [reflexivity|exact Hlt].
  - intros Hge. rewrite (Ht _ Hge). split; [reflexivity|].
    apply Hlow; [reflexivity|exact Hge].
Qed.

(** A nutrient balance of minus five million is printed in full. *)
Lemma format_number_units_witness :
  NutrientDashboard.format_number (- 5000000)
  = NutrientDashboard.Plain (- 5000000)
  /\ NutrientDashboard.format_number 2500000
     = NutrientDashboard.Abbrev (2500000 / 1000000) "M".
Proof.
  split.
  - apply (format_number_units (- 5000000)). reflexivity.
  - apply (format_number_units 2500000); [discriminate|reflexivity].
Defined.

(* ================================================================== *)
(** * More on the filters                                              *)
(* ================================================================== *)

Lemma filter_and {A : Type} (p q : A -> bool) (l : list A) :
  filter p (filter q l) = filter (fun x => q x && p x) l.
Proof.
  induction l as [|a l IH]; simpl; [reflexivity|].
  destruct (q a); simpl; [destruct (p a)|]; rewrite IH; reflexivity.
Qed.

Lemma filter_all {A : Type} (p : A -> bool) (l : list A) :
  (forall x, In x l -> p x = true) -> filter p l = l.
Proof.
  induction l as [|a l IH]; simpl; intros Hp; [reflexivity|].
  rewrite (Hp a (or_introl eq_refl)). f_equal. apply IH.
  intros x Hx. apply Hp. right. exact Hx.
Qed.

Lemma optional_filter {R : Type} (col : R -> string) (sel : list string)
      (df : list R) :
  (if negb (empty sel) then filter (fun r => isin (col r) sel) df else df)
  = filter (fun r => empty sel || isin (col r) sel) df.
Proof.
  destruct sel as [|s sel]; cbn [empty negb orb].
  - symmetry. apply filter_all. reflexivity.
  - reflexivity.
Qed.

Lemma year_filter {R : Type} (time : R -> Z) (years : option (Z * Z))
      (df : list R) :
  match years with
  | Some y => filter (fun r => (time r >=? fst y)%Z && (time r <=? snd y)%Z) df
  | None => df
  end
  = filter (fun r => match years with
                     | Some y => (fst y <=? time r)%Z && (time r <=? snd y)%Z
                     | None => true
                     end) df.
Proof.
  destruct years as [y|].
  - apply filter_ext. intros r. rewrite Z.geb_leb. reflexivity.
  - symmetry. apply filter_all. reflexivity.
Qed.

(** [filter_data] is one pass over the frame with the combined test. *)
Lemma erosion_filter_single_pass (df : list ErosionCharts.row) cs ys ets sls :
  ErosionCharts.filter_data df cs ys ets sls
  = filter (ErosionCharts.selected cs ys ets sls) df.
Proof.
  unfold ErosionCharts.filter_data.
  rewrite (optional_filter ErosionCharts.EROSION_LEVEL).
  rewrite (optional_filter ErosionCharts.Types_of_Erosion).
  rewrite (year_filter ErosionCharts.Time).
  rewrite (optional_filter ErosionCharts.Country).
  rewrite !filter_and. apply filter_ext. intros r.
  unfold ErosionCharts.selected. rewrite !andb_assoc. reflexivity.
Qed.

Lemma land_filter_single_pass (df : list LandCharts.row) cs ys lts :
  LandCharts.filter_data df cs ys lts
  = filter (LandCharts.selected cs ys lts) df.
Proof.
  unfold LandCharts.filter_data.
  rewrite (optional_filter LandCharts.Types_of_Land).
  rewrite (year_filter LandCharts.Time).
  rewrite (optional_filter LandCharts.Country).
  rewrite !filter_and. apply filter_ext. intros r.
  unfold LandCharts.selected. rewrite !andb_assoc. reflexivity.
Qed.

Lemma filter_idem {A : Type} (p : A -> bool) (l : list A) :
  filter p (filter p l) = filter p l.
Proof.
  rewrite filter_and. apply filter_ext. intros a. destruct (p a); reflexivity.
Qed.

(** X8.  Both [filter_data] functions keep, in their original order, the
    rows that pass every test, so filtering a second time with the same
    selections changes nothing, and filtering by country first and by the
    other selections afterwards gives the same view as one call. *)
Theorem filter_data_composes :
  forall (edf : list ErosionCharts.row) (ldf : list LandCharts.row)
         (cs : list string) (ys : option (Z * Z)) (ets sls lts : list string),
    ErosionCharts.filter_data edf cs ys ets sls
    = filter (ErosionCharts.selected cs ys ets sls) edf
    /\ ErosionCharts.filter_data
         (ErosionCharts.filter_data edf cs ys ets sls) cs ys ets sls
       = ErosionCharts.filter_data edf cs ys ets sls
    /\ ErosionCharts.filter_data
         (ErosionCharts.filter_data edf cs None [] []) [] ys ets sls
       = ErosionCharts.filter_data edf cs ys ets sls
    /\ LandCharts.filter_data ldf cs ys lts
       = filter (LandCharts.selected cs ys lts) ldf
    /\ LandCharts.filter_data (LandCharts.filter_data ldf cs ys lts) cs ys lts
       = LandCharts.filter_data ldf cs ys lts
    /\ LandCharts.filter_data (LandCharts.filter_data ldf cs None []) [] ys lts
       = LandCharts.filter_data ldf cs ys lts.
Proof.
  intros edf ldf cs ys ets sls lts.
  rewrite !erosion_filter_single_pass, !land_filter_single_pass.
  split; [reflexivity|]. split; [apply filter_idem|].
  split.
  { rewrite filter_and. apply filter_ext. intros r.
    unfold ErosionCharts.selected. cbn [empty orb andb].
    rewrite !andb_true_r. rewrite <- !andb_assoc. reflexivity. }
  split; [reflexivity|]. split; [apply filter_idem|].
  rewrite filter_and. apply filter_ext. intros r.
  unfold LandCharts.selected. cbn [empty orb andb].
  rewrite !andb_true_r. rewrite <- !andb_assoc. reflexivity.
Qed.

(** X9.  A selection that contains the value of every row restricts as
    little as the empty selection: selecting every erosion type, severity
    level or land type that occurs is the same as selecting none. *)
Theorem select_all_is_select_none :
  forall (edf : list ErosionCharts.row) (ldf : list LandCharts.row)
         (cs : list string) (ys : option (Z * Z)) (ets sls lts : list string),
    (forall r, In r edf -> In (ErosionCharts.Types_of_Erosion r) ets) ->
    (forall r, In r edf -> In (ErosionCharts.EROSION_LEVEL r) sls) ->
    (forall r, In r ldf -> In (LandCharts.Types_of_Land r) lts) ->
    ErosionCharts.filter_data edf cs ys ets sls
    = ErosionCharts.filter_data edf cs ys [] []
    /\ LandCharts.filter_data ldf cs ys lts
       = LandCharts.filter_data ldf cs ys [].
Proof.
  intros edf ldf cs ys ets sls lts Het Hsl Hlt.
  rewrite !erosion_filter_single_pass, !land_filter_single_pass.
  split; apply filter_ext_in; intros r Hr.
  - unfold ErosionCharts.selected. cbn [empty orb].
    rewrite (proj2 (isin_In _ _) (Het r Hr)).
    rewrite (proj2 (isin_In _ _) (Hsl r Hr)). rewrite !orb_true_r.
    reflexivity.
  - unfold LandCharts.selected. cbn [empty orb].
    rewrite (proj2 (isin_In _ _) (Hlt r Hr)). rewrite !orb_true_r.
    reflexivity.
Qed.

Lemma select_all_is_select_none_witness :
  ErosionCharts.filter_data Examples.erosion_years ["A"%string] None
    ["Water"%string; "Wind"%string] ["_T"%string; "LW"%string]
  = ErosionCharts.filter_data Examples.erosion_years ["A"%string] None [] []
  /\ LandCharts.filter_data Examples.land_sparse ["A"%string] None
       ["Pasture"%string; "Arable"%string]
     = LandCharts.filter_data Examples.land_sparse ["A"%string] None [].
Proof.
  apply (@select_all_is_select_none Examples.erosion_years
           Examples.land_sparse).
  - intros r Hr. simpl in Hr.
    repeat (destruct Hr as [<-|Hr]; [simpl; tauto|]). contradiction.
  - intros r Hr. simpl in Hr.
    repeat (destruct Hr as [<-|Hr]; [simpl; tauto|]). contradiction.
  - intros r Hr. simpl in Hr.
    repeat (destruct Hr as [<-|Hr]; [simpl; tauto|]). contradiction.
Defined.

Lemma fold_min_le (rest : list Z) (x : Z) :
  (fold_left Z.min rest x <= x)%Z
  /\ forall y, In y rest -> (fold_left Z.min rest x <= y)%Z.
Proof.
  revert x. induction rest as [|a rest IH]; intros x; simpl.
  - split; [lia|contradiction].
  - destruct (IH (Z.min x a)) as [H1 H2]. split; [lia|].
    intros y [<-|Hy]; [lia|apply H2; exact Hy].
Qed.

Lemma fold_max_ge (rest : list Z) (x : Z) :
  (x <= fold_left Z.max rest x)%Z
  /\ forall y, In y rest -> (y <= fold_left Z.max rest x)%Z.
Proof.
  revert x. induction rest as [|a rest IH]; intros x; simpl.
  - split; [lia|contradiction].
  - destruct (IH (Z.max x a)) as [H1 H2]. split; [lia|].
    intros y [<-|Hy]; [lia|apply H2; exact Hy].
Qed.

(** The slider bounds exist for a non-empty column and enclose it. *)
Lemma col_bounds (l : list Z) :
  l <> [] ->
  exists lo hi, col_min l = Some lo /\ col_max l = Some hi
                /\ forall x, In x l -> (lo <= x <= hi)%Z.
Proof.
  destruct l as [|a l]; [congruence|]. intros _. simpl.
  eexists. eexists. split; [reflexivity|]. split; [reflexivity|].
  destruct (fold_min_le l a) as [Hm1 Hm2].
  destruct (fold_max_ge l a) as [HM1 HM2].
  intros x [<-|Hx]; [lia|]. split; [apply Hm2|apply HM2]; exact Hx.
Qed.






Lemma year_in_bounds (t lo hi : Z) :
  (lo <= t <= hi)%Z -> ((t >=? lo)%Z && (t <=? hi)%Z) = true.
Proof. intros Ht. apply year_test. exact Ht. Qed.

(** The slider gives the whole range of a column that holds two different
    years, and the range encloses the column. *)
Lemma slider_whole_range (l : list Z) (t1 t2 : Z) :
  In t1 l -> In t2 l -> t1 <> t2 ->
  exists lo hi,
    col_min l = Some lo /\ col_max l = Some hi
    /\ slider_default lo hi = Some (lo, hi)
    /\ forall x, In x l -> (lo <= x <= hi)%Z.
Proof.
  intros H1 H2 Hneq.
  assert (Hne : l <> []) by (intros E; rewrite E in H1; contradiction).
  destruct (col_bounds Hne) as [lo [hi [Hlo [Hhi Hb]]]].
  exists lo, hi. repeat split; try assumption; try (apply Hb; assumption).
  unfold slider_default.
  pose proof (Hb _ H1). pose proof (Hb _ H2).
  replace (lo <? hi)%Z with true by (symmetry; apply Z.ltb_lt; lia).
  reflexivity.
Qed.

(** X10.  With the widgets of the nutrients page left at their defaults
    -- 'All areas' and the whole year range -- a data set that spans at
    least two different years is shown whole: no row is filtered out. *)
Theorem default_selection_shows_everything :
  forall (data : list NutrientDashboard.row) (r1 r2 : NutrientDashboard.row),
    In r1 data -> In r2 data ->
    NutrientDashboard.TIME_PERIOD r1 <> NutrientDashboard.TIME_PERIOD r2 ->
    NutrientDashboard.default_view data = Some data.
Proof.
  intros data r1 r2 H1 H2 Hneq.
  unfold NutrientDashboard.default_view, NutrientDashboard.year_bounds.
  destruct (@slider_whole_range (map NutrientDashboard.TIME_PERIOD data)
              _ _ (in_map _ _ _ H1) (in_map _ _ _ H2) Hneq)
    as [lo [hi [-> [-> [-> Hb]]]]]. f_equal.
  unfold NutrientDashboard.filtered_data. simpl.
  apply filter_all. intros r Hr. apply year_in_bounds.
  apply Hb. apply in_map. exact Hr.
Qed.

Lemma default_selection_shows_everything_witness :
  NutrientDashboard.default_view Examples.nutrient_years
  = Some [ Examples.nutrient "A" 2000 "X" (Some 1);
           Examples.nutrient "A" 2010 "X" (Some 2);
           Examples.nutrient "B" 2010 "Y" None;
           Examples.nutrient "B" 2020 "X" (Some 4) ].
Proof.
  apply (@default_selection_shows_everything Examples.nutrient_years
           (Examples.nutrient "A" 2000 "X" (Some 1))
           (Examples.nutrient "B" 2020 "X" (Some 4))).
  - left. reflexivity.
  - right. right. right. left. reflexivity.
  - discriminate.
Defined.



(* ================================================================== *)
(** * Summary metrics                                                  *)
(* ================================================================== *)

Section Nunique.
Context {K : Type} `{KeyEq K}.

Lemma nunique_le_length (l : list K) : (nunique l <= List.length l)%nat.
Proof.
  unfold nunique. apply NoDup_incl_length; [apply unique_NoDup|].
  intros x Hx. apply unique_In. exact Hx.
Qed.

Lemma nunique_le_selection (l sel : list K) :
  (forall x, In x l -> In x sel) -> (nunique l <= List.length sel)%nat.
Proof.
  intros Hincl. unfold nunique. apply NoDup_incl_length; [apply unique_NoDup|].
  intros x Hx. apply Hincl. apply unique_In. exact Hx.
Qed.

Lemma nunique_zero (l : list K) : nunique l = O <-> l = [].
Proof.
  unfold nunique. destruct l as [|a l]; simpl; split; congruence.
Qed.

End Nunique.

(** X12.  The summary metrics of the erosion and land pages: the number of
    countries analysed is at most the number of data points, it is 0
    exactly for an empty view, and when countries are selected it is at
    most the number of selected countries (likewise the number of land
    types and the selected land types); the data points are at most the
    rows of the data set. *)
Theorem metrics_bounds :
  forall (edf : list ErosionCharts.row) (ldf : list LandCharts.row)
         (cs : list string) (ys : option (Z * Z)) (ets sls lts : list string),
    let eview := ErosionCharts.filter_data edf cs ys ets sls in
    let lview := LandCharts.filter_data ldf cs ys lts in
    (ErosionCharts.total_countries eview
     <= ErosionCharts.total_records eview <= List.length edf)%nat
    /\ (ErosionCharts.total_countries eview = O <-> eview = [])
    /\ (cs <> [] ->
        (ErosionCharts.total_countries eview <= List.length cs)%nat
        /\ (LandCharts.total_countries lview <= List.length cs)%nat)
    /\ (LandCharts.total_countries lview <= List.length lview)%nat
    /\ (LandCharts.land_type_count lview <= List.length lview)%nat
    /\ (lts <> [] ->
        (LandCharts.land_type_count lview <= List.length lts)%nat).
Proof.
  intros edf ldf cs ys ets sls lts eview lview.
  assert (Hec : ErosionCharts.total_countries eview
                = nunique (map ErosionCharts.Country eview)).
  { unfold ErosionCharts.total_countries. destruct eview; reflexivity. }
  assert (Hlc : LandCharts.total_countries lview
                = nunique (map LandCharts.Country lview)).
  { unfold LandCharts.total_countries. destruct lview; reflexivity. }
  assert (Hlt : LandCharts.land_type_count lview
                = nunique (map LandCharts.Types_of_Land lview)).
  { unfold LandCharts.land_type_count. destruct lview; reflexivity. }
  rewrite Hec, Hlc, Hlt. unfold ErosionCharts.total_records.
  split.
  { split.
    - rewrite <- (length_map ErosionCharts.Country eview).
      apply nunique_le_length.
    - unfold eview. rewrite erosion_filter_single_pass. apply filter_length_le. }
  split.
  { rewrite nunique_zero. split; [apply map_eq_nil|intros ->; reflexivity]. }
  split.
  { intros Hcs. split; apply nunique_le_selection; intros c Hc;
      apply in_map_iff in Hc; destruct Hc as [r [<- Hr]].
    - apply erosion_filter_In in Hr. destruct Hr as [_ [[E|Hin] _]];
        [contradiction|exact Hin].
    - apply land_filter_In in Hr. destruct Hr as [_ [[E|Hin] _]];
        [contradiction|exact Hin]. }
  split.
  { rewrite <- (length_map LandCharts.Country lview). apply nunique_le_length. }
  split.
  { rewrite <- (length_map LandCharts.Types_of_Land lview).
    apply nunique_le_length. }
  intros Hl. apply nunique_le_selection. intros c Hc.
  apply in_map_iff in Hc. destruct Hc as [r [<- Hr]].
  apply land_filter_In in Hr. destruct Hr as [_ [_ [_ [E|Hin]]]];
    [contradiction|exact Hin].
Qed.

(* ================================================================== *)
(** * The greenhouse pie chart                                         *)
(* ================================================================== *)

(** X13.  The three emission categories of the pie chart tab: a row shown
    under TOTAL is shown under neither LULUCF nor AGR; the rows shown
    under at least one category are exactly the rows of the region and
    time range whose measure does not contain TOTGHG; no category shows a
    TOTGHG measure. *)
Theorem emission_categories :
  forall (df_ghg : list GreenhouseGas.row) (region : string)
         (time_range : Z * Z) (r : GreenhouseGas.row),
    let shown c := In r (GreenhouseGas.pie_filtered df_ghg region
                           time_range c) in
    (shown "TOTAL"%string ->
     ~ shown "LULUCF"%string /\ ~ shown "AGR"%string)
    /\ (shown "TOTAL"%string \/ shown "LULUCF"%string \/ shown "AGR"%string
        <-> In r df_ghg
            /\ GreenhouseGas.Reference_area r = region
            /\ (fst time_range <= GreenhouseGas.TIME_PERIOD r
                <= snd time_range)%Z
            /\ is_substring "TOTGHG" (GreenhouseGas.MEASURE r) = false)
    /\ (forall c, shown c ->
                  is_substring "TOTGHG" (GreenhouseGas.MEASURE r) = false).
Proof.
  intros df_ghg region time_range r shown.
  assert (Hbase : forall c, shown c ->
            In r df_ghg
            /\ GreenhouseGas.Reference_area r = region
            /\ (fst time_range <= GreenhouseGas.TIME_PERIOD r
                <= snd time_range)%Z
            /\ is_substring "TOTGHG" (GreenhouseGas.MEASURE r) = false).
  { intros c. unfold shown, GreenhouseGas.pie_filtered.
    assert (Hb : In r (filter
              (fun r => negb (str_contains ["TOTGHG"%string]
                                           (GreenhouseGas.MEASURE r)))
              (filter (fun r => keqb (GreenhouseGas.Reference_area r) region
                         && (GreenhouseGas.TIME_PERIOD r >=? fst time_range)%Z
                         && (GreenhouseGas.TIME_PERIOD r <=? snd time_range)%Z)
                      df_ghg)) ->
            In r df_ghg
            /\ GreenhouseGas.Reference_area r = region
            /\ (fst time_range <= GreenhouseGas.TIME_PERIOD r
                <= snd time_range)%Z
            /\ is_substring "TOTGHG" (GreenhouseGas.MEASURE r) = false).
    { rewrite !filter_In, <- andb_assoc, andb_true_iff, year_test.
      rewrite (keqb_eq (K := string)), negb_true_iff.
      unfold str_contains. cbn [existsb]. rewrite orb_false_r. tauto. }
    destruct (keqb c "TOTAL"%string);
      [|destruct (keqb c "LULUCF"%string);
        [|destruct (keqb c "AGR"%string)]];
      try (intros Hin; apply filter_In in Hin; apply Hb; tauto).
    exact Hb. }
  unfold shown in *. unfold GreenhouseGas.pie_filtered in *.
  cbn [keqb Key_string String.eqb Ascii.eqb Bool.eqb] in *.
  set (base := filter _ (filter _ df_ghg)) in *.
  assert (Hin_base : In r base <->
            In r df_ghg
            /\ GreenhouseGas.Reference_area r = region
            /\ (fst time_range <= GreenhouseGas.TIME_PERIOD r
                <= snd time_range)%Z
            /\ is_substring "TOTGHG" (GreenhouseGas.MEASURE r) = false).
  { unfold base.
    rewrite !filter_In, <- andb_assoc, andb_true_iff, year_test.
    change (GreenhouseGas.Reference_area r =? region)%string
      with (keqb (GreenhouseGas.Reference_area r) region).
    rewrite (keqb_eq (K := string)), negb_true_iff.
    unfold str_contains. cbn [existsb]. rewrite orb_false_r. tauto. }
  rewrite !filter_In. unfold str_contains. cbn [existsb].
  rewrite !orb_false_r, negb_true_iff, orb_false_iff.
  split; [|split].
  - intros [_ [H1 H2]]. split; intros [_ E]; congruence.
  - rewrite <- Hin_base.
    destruct (is_substring "LULUCF" (GreenhouseGas.MEASURE r));
      destruct (is_substring "AGR" (GreenhouseGas.MEASURE r)); tauto.
  - intros c Hc. apply (Hbase c Hc).
Qed.

(* ================================================================== *)
(** * Shape and order of the aggregated tables                         *)
(* ================================================================== *)

Lemma table_rectangular {I C : Type} (cols : list C) (idx : list I)
      (g : I -> C -> option Q) :
  Forall (fun r => List.length (snd r) = List.length cols)
         (rows (table cols idx g))
  /\ List.length (rows (table cols idx g)) = List.length idx.
Proof.
  unfold table. cbn [rows]. split; [|apply length_map].
  apply Forall_map. apply Forall_forall. intros i _. apply length_map.
Qed.

Lemma fillna_shape {I C : Type} (v : Q) (w : wide I C) :
  columns (fillna v w) = columns w
  /\ map fst (rows (fillna v w)) = map fst (rows w)
  /\ map (fun r => List.length (snd r)) (rows (fillna v w))
     = map (fun r => List.length (snd r)) (rows w).
Proof.
  unfold fillna. cbn [columns rows]. rewrite !map_map. cbn [fst snd].
  split; [reflexivity|]. split; [reflexivity|].
  apply map_ext. intros r. apply length_map.
Qed.

Lemma same_members_same_count {K : Type} `{KeyEq K} (l1 l2 : list K) :
  NoDup l1 -> (forall x, In x l1 <-> In x l2) ->
  List.length l1 = nunique l2.
Proof.
  intros Hnd Hin. unfold nunique. apply Permutation_length.
  apply NoDup_Permutation; [exact Hnd|apply unique_NoDup|].
  intros x. rewrite Hin. symmetry. apply unique_In.
Qed.

(** X14.  The pivots are rectangular: the greenhouse line-plot table and
    the land stacked-area table have one row per year of the view and one
    column per measure (land type) of the view, and every row has exactly
    one cell per column. *)
Theorem pivot_is_rectangular :
  forall (filtered : list GreenhouseGas.row) (df : list LandCharts.row),
    (exists w,
        GreenhouseGas.df_plot filtered = Some w
        /\ List.length (rows w)
           = nunique (map GreenhouseGas.TIME_PERIOD filtered)
        /\ List.length (columns w)
           = nunique (map GreenhouseGas.MEASURE filtered)
        /\ Forall (fun r => List.length (snd r) = List.length (columns w))
                  (rows w))
    /\ (exists w,
           LandCharts.area_data df = Some w
           /\ List.length (rows w) = nunique (map LandCharts.Time df)
           /\ List.length (columns w)
              = nunique (map LandCharts.Types_of_Land df)
           /\ Forall (fun r => List.length (snd r) = List.length (columns w))
                     (rows w)).
Proof.
  intros filtered df. split.
  - pose proof (long_keys_NoDup GreenhouseGas.TIME_PERIOD GreenhouseGas.MEASURE
                  GreenhouseGas.OBS_VALUE filtered) as Hk.
    fold (GreenhouseGas.plot_long filtered) in Hk.
    eexists. split.
    { unfold GreenhouseGas.df_plot. apply (pivot_table _ Hk). }
    destruct (table_rectangular
                (pivot_columns (GreenhouseGas.plot_long filtered))
                (pivot_index (GreenhouseGas.plot_long filtered))
                (cell (GreenhouseGas.plot_long filtered))) as [Hrect Hlen].
    split.
    { rewrite Hlen. apply same_members_same_count;
        [apply pivot_index_NoDup|].
      apply (long_index_In GreenhouseGas.TIME_PERIOD GreenhouseGas.MEASURE
               GreenhouseGas.OBS_VALUE filtered). }
    split; [|exact Hrect].
    cbn [columns table]. apply same_members_same_count;
      [apply pivot_columns_NoDup|].
    apply (long_columns_In GreenhouseGas.TIME_PERIOD GreenhouseGas.MEASURE
             GreenhouseGas.OBS_VALUE filtered).
  - pose proof (long_keys_NoDup LandCharts.Time LandCharts.Types_of_Land
                  LandCharts.Actual_area df) as Hk.
    fold (LandCharts.area_long df) in Hk.
    eexists. split.
    { unfold LandCharts.area_data. rewrite (pivot_table _ Hk). reflexivity. }
    rewrite fillna_table.
    destruct (table_rectangular
                (pivot_columns (LandCharts.area_long df))
                (pivot_index (LandCharts.area_long df))
                (fun i c => match cell (LandCharts.area_long df) i c with
                            | Some q => Some q
                            | None => Some 0
                            end)) as [Hrect Hlen].
    split.
    { rewrite Hlen. apply same_members_same_count;
        [apply pivot_index_NoDup|].
      apply (long_index_In LandCharts.Time LandCharts.Types_of_Land
               LandCharts.Actual_area df). }
    split; [|exact Hrect].
    cbn [columns table]. apply same_members_same_count;
      [apply pivot_columns_NoDup|].
    apply (long_columns_In LandCharts.Time LandCharts.Types_of_Land
             LandCharts.Actual_area df).
Qed.

(** X15.  The land pie chart has one slice for every land type of the view
    whose total area is positive, with that total as its value, and no
    other slice: totals that are zero or negative are never drawn. *)
Theorem pie_slices_are_positive :
  forall (df : list LandCharts.row) (k : string) (v : Q),
    (In (k, v) (LandCharts.pie_data df) <->
     In k (map LandCharts.Types_of_Land df)
     /\ v = Qsum (present (map LandCharts.Actual_area
                               (filter (fun r => keqb (LandCharts.Types_of_Land r) k)
                                       df)))
     /\ 0 < v)
    /\ NoDup (map fst (LandCharts.pie_data df)).
Proof.
  intros df k v. split.
  - unfold LandCharts.pie_data. rewrite filter_In, agg_sum_In.
    rewrite nansum_present, negb_true_iff. cbn [snd].
    assert (Hpos : Qle_bool v 0 = false <-> 0 < v).
    { split.
      - intros E. apply Qnot_le_lt. intros Hle.
        apply Qle_bool_iff in Hle. congruence.
      - intros Hlt. destruct (Qle_bool v 0) eqn:E; [|reflexivity].
        apply Qle_bool_iff in E. exfalso. apply (Qlt_not_le _ _ Hlt E). }
    rewrite Hpos. tauto.
  - unfold LandCharts.pie_data.
    assert (Hnd : NoDup (map fst (agg_sum LandCharts.Actual_area
                                    (groupby LandCharts.Types_of_Land df)))).
    { rewrite agg_sum_keys. apply group_keys_NoDup. }
    revert Hnd.
    generalize (agg_sum LandCharts.Actual_area
                  (groupby LandCharts.Types_of_Land df)).
    intros l. induction l as [|a l IH]; simpl; intros Hnd; [constructor|].
    inversion Hnd as [|? ? Hnin Hnd']; subst.
    destruct (negb (Qle_bool (snd a) 0)); [|apply IH; exact Hnd'].
    simpl. constructor; [|apply IH; exact Hnd'].
    intros Hin. apply Hnin. apply in_map_iff in Hin.
    destruct Hin as [x [Ex Hx]]. apply filter_In in Hx.
    rewrite <- Ex. apply in_map. tauto.
Qed.

Lemma klt_pair {A B : Type} {KA : Key A} {KB : Key B} {EA : KeyEq A}
      (a1 a2 : A) (b1 b2 : B) :
  klt (a1, b1) (a2, b2) <-> klt a1 a2 \/ (a1 = a2 /\ klt b1 b2).
Proof.
  unfold klt. simpl. destruct (keqb a1 a2) eqn:E.
  - apply keqb_eq in E. subst a2. split.
    + intros [Hle Hne]. right. split; [reflexivity|].
      split; [exact Hle|congruence].
    + intros [[_ Hne]|[_ [Hle Hne]]]; [congruence|].
      split; [exact Hle|congruence].
  - apply keqb_neq in E. split.
    + intros [Hle _]. left. split; assumption.
    + intros [[Hle _]|[Heq _]]; [|contradiction].
      split; [exact Hle|congruence].
Qed.

(** X17.  The erosion time-series table comes out sorted by country, then
    year, then erosion type, with no key repeated; so the points of one
    line (one country, one erosion type) are in strictly increasing year
    order. *)
Theorem time_series_is_sorted :
  forall (df : list ErosionCharts.row) (country type : string),
    StronglySorted
      (fun a b =>
         klt (fst (fst (fst a))) (fst (fst (fst b)))
         \/ (fst (fst (fst a)) = fst (fst (fst b))
             /\ ((snd (fst (fst a)) < snd (fst (fst b)))%Z
                 \/ (snd (fst (fst a)) = snd (fst (fst b))
                     /\ klt (snd (fst a)) (snd (fst b))))))
      (ErosionCharts.total_data df)
    /\ StronglySorted
         (fun a b => (snd (fst (fst a)) < snd (fst (fst b)))%Z)
         (filter (fun x => keqb (fst (fst (fst x)), snd (fst x))
                                (country, type))
                 (ErosionCharts.total_data df)).
Proof.
  intros df country type.
  assert (Hs : StronglySorted
      (fun a b : (string * Z * string) * Q =>
         klt (fst (fst (fst a))) (fst (fst (fst b)))
         \/ (fst (fst (fst a)) = fst (fst (fst b))
             /\ ((snd (fst (fst a)) < snd (fst (fst b)))%Z
                 \/ (snd (fst (fst a)) = snd (fst (fst b))
                     /\ klt (snd (fst a)) (snd (fst b))))))
      (ErosionCharts.total_data df)).
  { unfold ErosionCharts.total_data. rewrite agg_sum_groupby.
    apply (StronglySorted_impl
             (R := fun a b : (string * Z * string) * Q => klt (fst a) (fst b))).
    - intros [[[c1 t1] y1] v1] [[[c2 t2] y2] v2]. cbn [fst snd].
      rewrite !klt_pair, klt_Z. intros [[Hc|[Ec Ht]]|[Ek Hy]].
      + left. exact Hc.
      + right. split; [exact Ec|]. left. exact Ht.
      + inversion Ek; subst. right. split; [reflexivity|]. right.
        split; [reflexivity|exact Hy].
    - apply labelled_sorted_by. apply group_keys_sorted. }
  split; [exact Hs|].
  induction Hs as [|a l Hs IH Hall]; cbn [filter]; [constructor|].
  destruct (keqb (fst (fst (fst a)), snd (fst a)) (country, type)) eqn:Ea;
    [|exact IH].
  constructor; [exact IH|].
  apply Forall_forall. intros b Hb. apply filter_In in Hb.
  destruct Hb as [Hb Eb]. rewrite Forall_forall in Hall.
  apply (keqb_eq (K := string * string)) in Ea.
  apply (keqb_eq (K := string * string)) in Eb.
  rewrite <- Eb in Ea. inversion Ea as [[Ec Ey]].
  destruct (Hall b Hb) as [[_ Hne]|[_ [Ht|[_ [_ Hne]]]]];
    [congruence|exact Ht|congruence].
Qed.

(** The same for the land trend table, sorted by country, land type and
    year. *)
Lemma trend_lines_sorted (df : list LandCharts.row) (country type : string) :
  StronglySorted
    (fun a b => (snd (fst a) < snd (fst b))%Z)
    (filter (fun x => keqb (fst (fst x)) (country, type))
            (LandCharts.trend_data df)).
Proof.
  assert (Hs : StronglySorted
                 (fun a b : (string * string * Z) * Q => klt (fst a) (fst b))
                 (LandCharts.trend_data df)).
  { unfold LandCharts.trend_data. rewrite agg_sum_groupby.
    apply labelled_sorted_by. apply group_keys_sorted. }
  induction Hs as [|a l Hs IH Hall]; cbn [filter]; [constructor|].
  destruct (keqb (fst (fst a)) (country, type)) eqn:Ea; [|exact IH].
  constructor; [exact IH|].
  apply Forall_forall. intros b Hb. apply filter_In in Hb.
  destruct Hb as [Hb Eb]. rewrite Forall_forall in Hall.
  apply (keqb_eq (K := string * string)) in Ea.
  apply (keqb_eq (K := string * string)) in Eb.
  specialize (Hall b Hb).
  destruct a as [[ka ta] va], b as [[kb tb] vb]. cbn [fst snd] in *.
  subst ka kb. apply klt_pair in Hall.
  destruct Hall as [[_ Hne]|[_ Ht]]; [congruence|].
  apply klt_Z. exact Ht.
Qed.

(** X18.  The land trend table is sorted by country, land type and year,
    so the points of one line (one country, one land type) are in strictly
    increasing year order, and no (country, land type, year) occurs
    twice. *)
Theorem trend_lines_in_year_order :
  forall (df : list LandCharts.row) (country type : string),
    StronglySorted
      (fun a b => (snd (fst a) < snd (fst b))%Z)
      (filter (fun x => keqb (fst (fst x)) (country, type))
              (LandCharts.trend_data df))
    /\ NoDup (map fst (LandCharts.trend_data df)).
Proof.
  intros df country type. split; [apply trend_lines_sorted|].
  unfold LandCharts.trend_data. rewrite agg_sum_keys. apply group_keys_NoDup.
Qed.

(** X22.  The severity pie never mixes in the total and tolerable rows:
    every entry has a severity level other than '_T' and 'TOL' that occurs
    in the view, each (level, risk level) pair occurs once, and an entry
    has a label exactly when its level is LW, MD, HG or SV. *)
Theorem severity_entries :
  forall (df : list ErosionCharts.row) (level risk : string) (m : float)
         (label : option string),
    In (((level, risk), m), label) (ErosionCharts.severity_data df) ->
    level <> "_T"%string /\ level <> "TOL"%string
    /\ (exists r, In r df /\ ErosionCharts.EROSION_LEVEL r = level
                  /\ ErosionCharts.Erosion_risk_level r = risk)
    /\ (label <> None <->
        In level ["LW"%string; "MD"%string; "HG"%string; "SV"%string])
    /\ NoDup (map (fun e => fst (fst e)) (ErosionCharts.severity_data df)).
Proof.
  intros df level risk m label Hin.
  unfold ErosionCharts.severity_data in *. apply in_map_iff in Hin.
  destruct Hin as [[[l k] m'] [E Hin]]. cbn [fst] in E.
  inversion E; subst. clear E.
  unfold ErosionCharts.severity_means in Hin. apply agg_mean_In in Hin.
  destruct Hin as [Hk _]. apply in_map_iff in Hk.
  destruct Hk as [r [Er Hr]]. inversion Er; subst. clear Er.
  apply filter_In in Hr. destruct Hr as [Hr Hn].
  apply negb_true_iff in Hn.
  assert (Hnot : ~ In (ErosionCharts.EROSION_LEVEL r)
                      ["_T"%string; "TOL"%string]).
  { intros Hi. apply isin_In in Hi. congruence. }
  split; [intros E; apply Hnot; rewrite E; simpl; tauto|].
  split; [intros E; apply Hnot; rewrite E; simpl; tauto|].
  split; [exists r; auto|].
  split.
  - unfold ErosionCharts.severity_mapping.
    destruct (keqb (ErosionCharts.EROSION_LEVEL r) "LW"%string) eqn:E1;
      [apply (keqb_eq (K := string)) in E1; rewrite E1; simpl;
       split; [tauto|discriminate]|].
    destruct (keqb (ErosionCharts.EROSION_LEVEL r) "MD"%string) eqn:E2;
      [apply (keqb_eq (K := string)) in E2; rewrite E2; simpl;
       split; [tauto|discriminate]|].
    destruct (keqb (ErosionCharts.EROSION_LEVEL r) "HG"%string) eqn:E3;
      [apply (keqb_eq (K := string)) in E3; rewrite E3; simpl;
       split; [tauto|discriminate]|].
    destruct (keqb (ErosionCharts.EROSION_LEVEL r) "SV"%string) eqn:E4;
      [apply (keqb_eq (K := string)) in E4; rewrite E4; simpl;
       split; [tauto|discriminate]|].
    apply (keqb_neq (K := string)) in E1, E2, E3, E4.
    split; [congruence|]. simpl. intuition congruence.
  - rewrite map_map. cbn [fst].
    change (fun x : (string * string) * float => fst x)
      with (@fst (string * string) float).
    unfold ErosionCharts.severity_means. rewrite agg_mean_groupby, map_map.
    cbn [fst]. rewrite map_id. apply group_keys_NoDup.
Qed.

(** The low-severity row of the erosion example. *)
Lemma severity_entries_witness :
  In ((("LW"%string, "LW"%string), Fin 4), Some "Low"%string)
     (ErosionCharts.severity_data Examples.erosion_years)
  /\ "LW"%string <> "_T"%string /\ "LW"%string <> "TOL"%string
  /\ (Some "Low"%string <> None <->
      In "LW"%string ["LW"%string; "MD"%string; "HG"%string; "SV"%string]).
Proof.
  assert (Hin : In ((("LW"%string, "LW"%string), Fin 4), Some "Low"%string)
                   (ErosionCharts.severity_data Examples.erosion_years)).
  { vm_compute. left. reflexivity. }
  destruct (@severity_entries Examples.erosion_years "LW" "LW" (Fin 4)
              (Some "Low"%string) Hin) as [H1 [H2 [_ [H4 _]]]].
  split; [exact Hin|]. split; [exact H1|]. split; [exact H2|exact H4].
Defined.
